(** * Ear-clipping polygon triangulation: a shallow embedding

    The development follows the JavaScript sources of the repository:

    - the linked-list implementation (classes [Vertex] and [CircularList],
      [createDoublyLinkedList], [isEar], [isWithinTriangle], [getOrientation],
      [isConvex], [naiveEarCutting], [optimizedEarCutting], [triangulate]);
    - the earlier array draft of [createDoublyLinkedList] (module [Draft]) and
      the draft of the ear test (module [Sketch]);
    - the index-based class [PolygonTriangulation] of [triangulation.js]
      (module [PolygonTriangulation]);
    - the simple-polygon check ([doIntersect], [isSimplePolygon]);
    - the doubly-connected edge list of [DCEL.js] (module [DCEL]);
    - the line table and the bottom-point search of the convex hull demo
      (module [Hull]).

    Coordinates are JavaScript numbers, that is IEEE 754 doubles.  The
    development takes integer coordinates; the subtractions, additions and
    multiplications of the sources are modelled with their rounding to 53
    significant bits and their overflow (section Numbers).  They are exact
    on intermediate results below [2 ^ 53]: the statements that rely on
    exact arithmetic carry the hypothesis that the coordinates are below
    [2 ^ 25] in absolute value. *)

From Stdlib Require Import ZArith List Lia Bool.
From stdpp Require Import base option list.
Import ListNotations.

Local Open Scope Z_scope.

(** ** Errors and outcomes *)

(** The sources throw [Error] objects told apart by their message, and the
    engine raises [TypeError] when a property of [null] or [undefined] is read
    or written, [ReferenceError] when an undeclared name is read. *)
Inductive error : Type :=
  | InvalidInputError        (* Error("Needs at Least 3 Vertices, ...") *)
  | NullNodeError            (* Error("Input is Null!") *)
  | DegenerateGeometryError  (* Error("Points provided are collinear and do not form a triangle") *)
  | NoEarFoundError          (* Error("No ear found - polygon may be invalid") *)
  | TypeError
  | ReferenceError.

(** [OutOfFuel] is not a JavaScript outcome: it marks a [while] loop of the
    source that was still running when the step budget of the model ended. *)
Inductive outcome (A : Type) : Type :=
  | Ret (a : A)
  | Throw (e : error)
  | OutOfFuel.

Arguments Ret {A} a.
Arguments Throw {A} e.
Arguments OutOfFuel {A}.

Definition obind {A B} (o : outcome A) (k : A -> outcome B) : outcome B :=
  match o with
  | Ret a => k a
  | Throw e => Throw e
  | OutOfFuel => OutOfFuel
  end.

(** ** Numbers

    The value of an arithmetic expression of the sources on integer
    operands: a double whose value is an integer, an infinity, or NaN.
    (The sign of a zero is not kept: no operation used here tells [-0] from
    [0].) *)
Inductive number : Type :=
  | Fin (z : Z)
  | PInf
  | NInf
  | NaN.

(** Rounding to nearest, ties to even, of an integer to 53 significant
    bits, the exponent unbounded: [e] is the number of low bits that do not
    fit. *)
Definition round53 (z : Z) : Z :=
  let m := Z.abs z in
  let e := Z.log2 m - 52 in
  if e <=? 0 then z
  else
    let q := m / 2 ^ e in
    let r := m mod 2 ^ e in
    let half := 2 ^ (e - 1) in
    let q' := if r <? half then q
              else if half <? r then q + 1
              else if Z.even q then q else q + 1 in
    Z.sgn z * (q' * 2 ^ e).

(** The least magnitude that no finite double has. *)
Definition overflow : Z := 2 ^ 1024.

(** The double that an operation delivers when its exact result is the
    integer [z]. *)
Definition to_number (z : Z) : number :=
  let r := round53 z in
  if overflow <=? r then PInf
  else if r <=? - overflow then NInf
  else Fin r.

(** The sign of a number, [0] for NaN. *)
Definition nsgn (a : number) : Z :=
  match a with
  | Fin z => Z.sgn z
  | PInf => 1
  | NInf => -1
  | NaN => 0
  end.

(** [a + b] *)
Definition nadd (a b : number) : number :=
  match a, b with
  | Fin x, Fin y => to_number (x + y)
  | NaN, _ | _, NaN => NaN
  | PInf, NInf | NInf, PInf => NaN
  | PInf, _ | _, PInf => PInf
  | NInf, _ | _, NInf => NInf
  end.

(** [a - b] *)
Definition nsub (a b : number) : number :=
  match a, b with
  | Fin x, Fin y => to_number (x - y)
  | NaN, _ | _, NaN => NaN
  | PInf, PInf | NInf, NInf => NaN
  | PInf, _ | _, NInf => PInf
  | NInf, _ | _, PInf => NInf
  end.

(** [a * b]: an infinity times zero is NaN. *)
Definition nmul (a b : number) : number :=
  match a, b with
  | Fin x, Fin y => to_number (x * y)
  | NaN, _ | _, NaN => NaN
  | _, _ =>
      match nsgn a * nsgn b with
      | 0 => NaN
      | Zpos _ => PInf
      | Zneg _ => NInf
      end
  end.

(** [a < b] and [a > b]: false when an operand is NaN. *)
Definition nltb (a b : number) : bool :=
  match a, b with
  | NaN, _ | _, NaN => false
  | Fin x, Fin y => x <? y
  | PInf, _ => false
  | _, NInf => false
  | NInf, _ => true
  | _, PInf => true
  end.

Definition ngtb (a b : number) : bool := nltb b a.

(** Equality of keys of a [Map] (SameValueZero): NaN is equal to itself. *)
Definition number_eqb (a b : number) : bool :=
  match a, b with
  | Fin x, Fin y => x =? y
  | PInf, PInf | NInf, NInf | NaN, NaN => true
  | _, _ => false
  end.

(** Integers on which the arithmetic of the predicates is exact: below
    [2 ^ 25] in absolute value, so that differences stay below [2 ^ 26],
    their products below [2 ^ 52] and the difference of two products below
    [2 ^ 53]. *)
Definition small (z : Z) : Prop := - 33554432 < z < 33554432.

(** ** Points

    A point is the array [[x, y]].  The sources compare points with [==] and
    [===], which on arrays is object identity: [pid] is that identity. *)
Record Point : Type := mkPoint { pid : nat; px : Z; py : Z }.

Definition same_object (p q : Point) : bool := Nat.eqb (pid p) (pid q).

(** [point.slice()]: a fresh copy, of which only the coordinates matter. *)
Definition coords : Type := (Z * Z)%type.
Definition slice (p : Point) : coords := (px p, py p).

Definition Triangle : Type := (coords * coords * coords)%type.

(** ** Geometric predicates *)

Definition cross (v1 v2 : number * number) : number :=
  nsub (nmul (fst v1) (snd v2)) (nmul (snd v1) (fst v2)).

Definition CCW : Z := 1.
Definition CW : Z := -1.
Definition COLLINEAR : Z := 0.

Definition getOrientation (p1 p2 p3 : Point) : Z :=
  let v1 := (nsub (Fin (px p1)) (Fin (px p2)), nsub (Fin (py p1)) (Fin (py p2))) in
  let v2 := (nsub (Fin (px p3)) (Fin (px p2)), nsub (Fin (py p3)) (Fin (py p2))) in
  let res := cross v1 v2 in
  if ngtb res (Fin 0) then 1
  else if nltb res (Fin 0) then -1
  else 0.

Definition isConvex (a b c : Point) : bool := getOrientation a b c =? 1.

Definition isWithinTriangle (point a b c : Point) : outcome bool :=
  if getOrientation a b c =? 0 then Throw DegenerateGeometryError
  else if same_object point a || same_object point b || same_object point c
  then Ret true
  else
    let o1 := getOrientation point a b in
    let o2 := getOrientation point b c in
    let o3 := getOrientation point c a in
    if (o1 =? o2) && (o2 =? o3) then Ret true
    else if o1 * o2 * o3 =? 0 then Ret ((o1 =? o2) || (o1 =? o3) || (o2 =? o3))
    else Ret false.

(** The reading of the specification's words for [isWithinTriangle]. *)

(** A point whose coordinates are in the range of exact arithmetic. *)
Definition safe (p : Point) : Prop := small (px p) /\ small (py p).

(** The orientation of three points in exact arithmetic: the sign of the
    cross product of [p1 - p2] and [p3 - p2]. *)
Definition orientation (p1 p2 p3 : Point) : Z :=
  Z.sgn ((px p1 - px p2) * (py p3 - py p2) - (py p1 - py p2) * (px p3 - px p2)).






(** The last two tests of [isWithinTriangle], on the three orientations. *)
Definition verdict (o1 o2 o3 : Z) : bool :=
  if (o1 =? o2) && (o2 =? o3) then true
  else if o1 * o2 * o3 =? 0 then (o1 =? o2) || (o1 =? o3) || (o2 =? o3)
  else false.

(** ** The object store

    [Vertex] objects are mutable and shared: the boundary list, the convex list
    and the concave list of the optimized driver all link the same objects
    through the same [next]/[prev] fields.  A reference is an index into the
    store; [None] stands for [null] and [undefined]. *)

Abbreviation ref := nat.

Record Vertex : Type := mkVertex {
  v_point : Point;
  v_next : option ref;
  v_prev : option ref;
  v_isConvex : bool;
  v_isEar : bool
}.

Abbreviation heap := (list Vertex).

Record CircularList : Type := mkCircularList {
  head : option ref;
  size : Z
}.

(** Store-passing computations that may throw. *)
Definition M (A : Type) : Type := heap -> outcome (A * heap).

Definition ret {A} (a : A) : M A := fun h => Ret (a, h).
Definition throw {A} (e : error) : M A := fun _ => Throw e.
Definition outOfFuel {A} : M A := fun _ => OutOfFuel.
Definition bind {A B} (m : M A) (k : A -> M B) : M B :=
  fun h => match m h with
           | Ret (a, h') => k a h'
           | Throw e => Throw e
           | OutOfFuel => OutOfFuel
           end.
Definition lift {A} (o : outcome A) : M A :=
  fun h => match o with
           | Ret a => Ret (a, h)
           | Throw e => Throw e
           | OutOfFuel => OutOfFuel
           end.

Notation "'let*' x ':=' m 'in' k" := (bind m (fun x => k))
  (at level 10, x name, m at level 100, k at level 200).
Notation "'let*' ' pat ':=' m 'in' k" := (bind m (fun x => match x with pat => k end))
  (at level 10, pat pattern, m at level 100, k at level 200).

(** Run a computation that owns its store and keep the value. *)
Definition run {A} (m : M A) : outcome A :=
  match m [] with
  | Ret (a, _) => Ret a
  | Throw e => Throw e
  | OutOfFuel => OutOfFuel
  end.

(** [r.f]: reading a property of [null] or [undefined] is a [TypeError]. *)
Definition read {A} (f : Vertex -> A) (r : option ref) : M A :=
  fun h => match r with
           | None => Throw TypeError
           | Some n => match h !! n with
                       | Some v => Ret (f v, h)
                       | None => Throw TypeError
                       end
           end.

(** [r.f = x]: so is writing one. *)
Definition write (upd : Vertex -> Vertex) (r : option ref) : M unit :=
  fun h => match r with
           | None => Throw TypeError
           | Some n => match h !! n with
                       | Some v => Ret (tt, <[n := upd v]> h)
                       | None => Throw TypeError
                       end
           end.

Definition with_next (x : option ref) (v : Vertex) : Vertex :=
  mkVertex (v_point v) x (v_prev v) (v_isConvex v) (v_isEar v).
Definition with_prev (x : option ref) (v : Vertex) : Vertex :=
  mkVertex (v_point v) (v_next v) x (v_isConvex v) (v_isEar v).
Definition with_isConvex (x : bool) (v : Vertex) : Vertex :=
  mkVertex (v_point v) (v_next v) (v_prev v) x (v_isEar v).
Definition with_isEar (x : bool) (v : Vertex) : Vertex :=
  mkVertex (v_point v) (v_next v) (v_prev v) (v_isConvex v) x.

Definition set_next (r x : option ref) : M unit := write (with_next x) r.
Definition set_prev (r x : option ref) : M unit := write (with_prev x) r.
Definition set_isConvex (r : option ref) (x : bool) : M unit := write (with_isConvex x) r.
Definition set_isEar (r : option ref) (x : bool) : M unit := write (with_isEar x) r.

(** [new Vertex(point)] *)
Definition new_Vertex (point : Point) : M (option ref) :=
  fun h => Ret (Some (length h), h ++ [mkVertex point None None false false]).

(** [x === y] on references. *)
Definition ref_eqb (x y : option ref) : bool :=
  match x, y with
  | Some m, Some n => Nat.eqb m n
  | None, None => true
  | _, _ => false
  end.

(** ** class CircularList *)

Definition new_CircularList : CircularList := mkCircularList None 0.

(** [insert(newNode, previous)] *)
Definition insert (this : CircularList) (newNode previous : option ref) : M CircularList :=
  match head this with
  | None =>
      let* _ := set_next newNode newNode in
      let* _ := set_prev newNode newNode in
      ret (mkCircularList newNode (size this + 1))
  | Some _ =>
      let* next := read v_next previous in
      let* _ := set_next previous newNode in
      let* _ := set_prev newNode previous in
      let* _ := set_next newNode next in
      let* _ := set_prev next newNode in
      ret (mkCircularList (head this) (size this + 1))
  end.

(** [delete(node)] *)
Definition delete (this : CircularList) (node : option ref) : M CircularList :=
  match node with
  | None => throw NullNodeError
  | Some _ =>
      if (size this =? 1) && ref_eqb node (head this)
      then ret (mkCircularList None 0)
      else
        let* hd := (if ref_eqb node (head this)
                    then read v_next (head this)
                    else ret (head this)) in
        let* prev := read v_prev node in
        let* next := read v_next node in
        let* _ := set_next prev next in
        let* _ := set_prev next prev in
        ret (mkCircularList hd (size this - 1))
  end.

(** [createDoublyLinkedList(points)]: every vertex is inserted by
    [vertices.insert(newVertex)], with no [previous] argument. *)
Fixpoint insertAll (vertices : CircularList) (points : list Point) : M CircularList :=
  match points with
  | [] => ret vertices
  | p :: rest =>
      let* newVertex := new_Vertex p in
      let* vertices' := insert vertices newVertex None in
      insertAll vertices' rest
  end.

Definition createDoublyLinkedList (points : list Point) : M CircularList :=
  if Z.of_nat (length points) <? 3 then throw InvalidInputError
  else insertAll new_CircularList points.

(** ** The ear test *)

(** The [for] loop of [isEar]: [n] iterations remain, [curr] is the node
    under test. *)
Fixpoint isEar_scan (a b c : Point) (n : nat) (curr : option ref) : M bool :=
  match n with
  | O => ret true
  | S n' =>
      let* point := read v_point curr in
      if same_object point a || same_object point b || same_object point c
      then
        let* curr' := read v_next curr in
        isEar_scan a b c n' curr'
      else
        let* within := lift (isWithinTriangle point a b c) in
        if within then ret false
        else
          let* curr' := read v_next curr in
          isEar_scan a b c n' curr'
  end.

(** [isEar(a, b, c, otherPoints)]; [otherPoints] is [None] when the caller
    passes three arguments only. *)
Definition isEar (a b c : Point) (otherPoints : option CircularList) : M bool :=
  if negb (isConvex a b c) then ret false
  else
    match otherPoints with
    | None => throw TypeError
    | Some l => isEar_scan a b c (Z.to_nat (size l)) (head l)
    end.

(** ** The naive driver *)

(** The three remaining points, [vertices.head], [.next] and [.next.next]. *)
Definition lastTriangle (vertices : CircularList) : M Triangle :=
  let* a := read v_point (head vertices) in
  let* n1 := read v_next (head vertices) in
  let* b := read v_point n1 in
  let* n2 := read v_next n1 in
  let* c := read v_point n2 in
  ret (slice a, slice b, slice c).

(** One iteration of [while (vertices.size > 3)] in [naiveEarCutting]: the
    ear test is called as [isEar(prev, curr, next)]. *)
Definition naiveIteration (vertices : CircularList) (triangles : list Triangle)
  : M (CircularList * list Triangle) :=
  let vertex := head vertices in
  let* curr := read v_point vertex in
  let* vp := read v_prev vertex in
  let* prev := read v_point vp in
  let* vn := read v_next vertex in
  let* next := read v_point vn in
  let* ear := isEar prev curr next None in
  if ear then
    let* vertices' := delete vertices vertex in
    ret (vertices', triangles ++ [(slice prev, slice curr, slice next)])
  else ret (vertices, triangles).

Fixpoint naiveLoop (fuel : nat) (vertices : CircularList) (triangles : list Triangle)
  : M (CircularList * list Triangle) :=
  match fuel with
  | O => outOfFuel
  | S fuel' =>
      if size vertices >? 3 then
        let* '(vertices', triangles') := naiveIteration vertices triangles in
        naiveLoop fuel' vertices' triangles'
      else ret (vertices, triangles)
  end.

(** The part of [naiveEarCutting] that follows the construction of the list. *)
Definition naiveClipping (fuel : nat) (vertices : CircularList) : M (list Triangle) :=
  let* '(vertices', triangles) := naiveLoop fuel vertices [] in
  let* t := lastTriangle vertices' in
  ret (triangles ++ [t]).

Definition naiveEarCutting (fuel : nat) (points : list Point) : outcome (list Triangle) :=
  run (if Z.of_nat (length points) <? 3 then throw InvalidInputError
       else
         let* vertices := createDoublyLinkedList points in
         naiveClipping fuel vertices).

(** ** The optimized driver *)

(** "Fill the concave and convex lists": [n] iterations remain. *)
Fixpoint classify (n : nat) (curr : option ref)
    (convexVertices concaveVertices : CircularList)
  : M (CircularList * CircularList) :=
  match n with
  | O => ret (convexVertices, concaveVertices)
  | S n' =>
      let* cp := read v_prev curr in
      let* a := read v_point cp in
      let* b := read v_point curr in
      let* cn := read v_next curr in
      let* c := read v_point cn in
      let* '(convexVertices', concaveVertices') :=
        (if isConvex a b c then
           let* _ := set_isConvex curr true in
           let* l := insert convexVertices curr None in
           ret (l, concaveVertices)
         else
           let* _ := set_isConvex curr false in
           let* l := insert concaveVertices curr None in
           ret (convexVertices, l)) in
      let* curr' := read v_next curr in
      classify n' curr' convexVertices' concaveVertices'
  end.

(** "Mark initial ears". *)
Fixpoint markEars (n : nat) (curr : option ref) (concaveVertices : CircularList) : M unit :=
  match n with
  | O => ret tt
  | S n' =>
      let* cp := read v_prev curr in
      let* a := read v_point cp in
      let* b := read v_point curr in
      let* cn := read v_next curr in
      let* c := read v_point cn in
      let* ear := isEar a b c (Some concaveVertices) in
      let* _ := set_isEar curr ear in
      let* curr' := read v_next curr in
      markEars n' curr' concaveVertices
  end.

(** The state of the main loop of [optimizedEarCutting]. *)
Record OptState : Type := mkOptState {
  vertices_of : CircularList;
  convex_of : CircularList;
  concave_of : CircularList;
  triangles_of : list Triangle
}.

(** "Update the convex/concave status" of one neighbour [nb] of the clipped
    vertex. *)
Definition reclassify (nb : option ref) (convexVertices concaveVertices : CircularList)
  : M (CircularList * CircularList) :=
  let* np := read v_prev nb in
  let* a := read v_point np in
  let* b := read v_point nb in
  let* nn := read v_next nb in
  let* c := read v_point nn in
  if isConvex a b c then
    let* _ := set_isConvex nb true in
    let* doInsert :=
      (match head convexVertices with
       | None => ret true
       | Some _ =>
           let* x := read v_prev nb in
           let* y := read v_prev (head convexVertices) in
           ret (ref_eqb x y)
       end) in
    if (doInsert : bool) then
      let* l := insert convexVertices nb None in
      ret (l, concaveVertices)
    else ret (convexVertices, concaveVertices)
  else
    let* _ := set_isConvex nb false in
    let* l := insert concaveVertices nb None in
    ret (convexVertices, l).

(** "Update ear status" of one neighbour, against the boundary list. *)
Definition updateEar (nb : option ref) (vertices : CircularList) : M unit :=
  let* np := read v_prev nb in
  let* a := read v_point np in
  let* b := read v_point nb in
  let* nn := read v_next nb in
  let* c := read v_point nn in
  let* ear := isEar a b c (Some vertices) in
  set_isEar nb ear.

(** The body of [if (curr.isEar)]. *)
Definition clip (curr : option ref) (st : OptState) : M OptState :=
  let* cp := read v_prev curr in
  let* a := read v_point cp in
  let* b := read v_point curr in
  let* cn := read v_next curr in
  let* c := read v_point cn in
  let triangles := triangles_of st ++ [(slice a, slice b, slice c)] in
  let* vertices := delete (vertices_of st) curr in
  let* convexVertices := delete (convex_of st) curr in
  let* prev := read v_prev curr in
  let* next := read v_next curr in
  let* '(convexVertices1, concaveVertices1) :=
    reclassify prev convexVertices (concave_of st) in
  let* '(convexVertices2, concaveVertices2) :=
    reclassify next convexVertices1 concaveVertices1 in
  let* _ := updateEar prev vertices in
  let* _ := updateEar next vertices in
  ret (mkOptState vertices convexVertices2 concaveVertices2 triangles).

(** The inner [for] loop over the convex list: it stops at the first flagged
    ear, and leaves the state as it is when there is none. *)
Fixpoint scanConvex (n : nat) (curr : option ref) (st : OptState) : M OptState :=
  match n with
  | O => ret st
  | S n' =>
      let* flagged := read v_isEar curr in
      if (flagged : bool) then clip curr st
      else
        let* curr' := read v_next curr in
        scanConvex n' curr' st
  end.

Fixpoint optimizedLoop (fuel : nat) (st : OptState) : M OptState :=
  match fuel with
  | O => outOfFuel
  | S fuel' =>
      if size (vertices_of st) >? 3 then
        let* st' := scanConvex (Z.to_nat (size (convex_of st))) (head (convex_of st)) st in
        optimizedLoop fuel' st'
      else ret st
  end.

(** The part of [optimizedEarCutting] that follows the construction of the
    boundary list. *)
Definition optimizedClipping (fuel : nat) (vertices : CircularList) : M (list Triangle) :=
  let* '(convexVertices, concaveVertices) :=
    classify (Z.to_nat (size vertices)) (head vertices)
             new_CircularList new_CircularList in
  let* _ := markEars (Z.to_nat (size convexVertices)) (head convexVertices)
                     concaveVertices in
  let* st := optimizedLoop fuel
               (mkOptState vertices convexVertices concaveVertices []) in
  let* t := lastTriangle (vertices_of st) in
  ret (triangles_of st ++ [t]).

Definition optimizedEarCutting (fuel : nat) (points : list Point) : outcome (list Triangle) :=
  run (if Z.of_nat (length points) <? 3 then throw InvalidInputError
       else
         let* vertices := createDoublyLinkedList points in
         optimizedClipping fuel vertices).

(** [triangulate(polygon, triangulationMethod = naiveEarCutting)] *)
Definition triangulate (polygon : list Point)
    (triangulationMethod : list Point -> outcome (list Triangle))
  : outcome (list Triangle) :=
  triangulationMethod polygon.

(** The nodes of a list: the references met when [next] is followed [size]
    times from [head], as the loops of the sources do. *)
Fixpoint walk (h : heap) (n : nat) (curr : option ref) : list ref :=
  match n, curr with
  | S n', Some r =>
      r :: walk h n' (match h !! r with Some v => v_next v | None => None end)
  | _, _ => []
  end.

Definition members (h : heap) (l : CircularList) : list ref :=
  walk h (Z.to_nat (size l)) (head l).

(** [r.next. ... .next], [k] times. *)
Fixpoint follow (h : heap) (k : nat) (r : ref) : option ref :=
  match k with
  | O => Some r
  | S k' =>
      match h !! r with
      | Some v => v_next v ≫= follow h k'
      | None => None
      end
  end.

(** ** The array draft of the boundary list

    The earlier drafts build the boundary as an array of [Vertex] objects and
    link [vertices[i]] to its neighbours by index arithmetic. *)
Module Draft.

(** [points.map((point) => new Vertex(point))] *)
Fixpoint mapNew (points : list Point) : M (list (option ref)) :=
  match points with
  | [] => ret []
  | p :: rest =>
      let* v := new_Vertex p in
      let* vs := mapNew rest in
      ret (v :: vs)
  end.

(** [vertices[k]], [undefined] out of range. *)
Definition at_index (vertices : list (option ref)) (k : Z) : option ref :=
  if k <? 0 then None else mjoin (vertices !! Z.to_nat k).

Fixpoint linkFrom (vertices : list (option ref)) (i : Z) (n : nat) : M unit :=
  match n with
  | O => ret tt
  | S n' =>
      let len := Z.of_nat (length vertices) in
      let* _ := set_next (at_index vertices i) (at_index vertices (Z.rem (i + 1) len)) in
      let* _ := set_prev (at_index vertices i) (at_index vertices (Z.rem (i - 1 + len) len)) in
      linkFrom vertices (i + 1) n'
  end.

Definition createDoublyLinkedList (points : list Point) : M (list (option ref)) :=
  if Z.of_nat (length points) <? 3 then throw InvalidInputError
  else
    let* vertices := mapNew points in
    let* _ := linkFrom vertices 0 (length vertices) in
    ret vertices.

(** The boundary list that holds the nodes of the draft's array: its head
    is the first vertex and its size the length of the array. *)
Definition boundary (points : list Point) : M CircularList :=
  let* vertices := createDoublyLinkedList points in
  ret (mkCircularList (at_index vertices 0) (Z.of_nat (length vertices))).

End Draft.

(** ** The draft of the ear test

    The drafts that precede the linked-list implementation read the
    candidates through the free name [array], which no source declares, and
    end without a [return]: the result is then [undefined], here [None].
    The binding of [array] is a parameter: [None] when the name is not
    declared, as in the sources, and the array it holds otherwise. *)
Module Sketch.

(** [isWithinTriangle(point, a, b, c)] for a [point] that may be
    [undefined]: the test of the triangle does not read it, the tests
    [point == a] fail and [getOrientation] reads [point[0]]. *)
Definition isWithinTriangle (point : option Point) (a b c : Point) : outcome bool :=
  match point with
  | Some p => isWithinTriangle p a b c
  | None =>
      if getOrientation a b c =? 0 then Throw DegenerateGeometryError
      else Throw TypeError
  end.

(** The [for] loop: iteration [i], [k] iterations left. *)
Fixpoint scan (array : option (list Point)) (a b c : Point) (i k : nat)
  : outcome (option bool) :=
  match k with
  | O => Ret None
  | S k' =>
      match array with
      | None => Throw ReferenceError
      | Some elements =>
          obind (isWithinTriangle (elements !! i) a b c)
            (fun inside => if (inside : bool) then Ret (Some false)
                           else scan array a b c (S i) k')
      end
  end.

Definition isEar (array : option (list Point)) (a b c : Point)
    (otherPoints : option (list Point)) : outcome (option bool) :=
  if negb (isConvex a b c) then Ret (Some false)
  else
    match otherPoints with
    | None => Throw TypeError
    | Some l => scan array a b c 0 (length l)
    end.

End Sketch.

(** ** class PolygonTriangulation

    The class works on indices into [this.points]; a point is an object with
    fields [x] and [y], and [None] is [undefined]. *)
Module PolygonTriangulation.

Definition PTriangle : Type := (option coords * option coords * option coords)%type.

(** [a[k]] for a number [k]. *)
Definition at_index {A} (a : list A) (k : Z) : option A :=
  if k <? 0 then None else a !! Z.to_nat k.

(** [this.points[v]] where [v] may be [undefined]. *)
Definition point_at (points : list coords) (v : option nat) : option coords :=
  v ≫= fun k => points !! k.

Definition isTriangleOrientedCCW (p1 p2 p3 : option coords) : outcome bool :=
  match p1, p2, p3 with
  | Some (x1, y1), Some (x2, y2), Some (x3, y3) =>
      Ret (ngtb (nsub (nmul (nsub (Fin x2) (Fin x1)) (nsub (Fin y3) (Fin y1)))
                      (nmul (nsub (Fin y2) (Fin y1)) (nsub (Fin x3) (Fin x1))))
                (Fin 0))
  | _, _, _ => Throw TypeError
  end.

Definition sign (p1 p2 p3 : coords) : number :=
  nsub (nmul (nsub (Fin (fst p1)) (Fin (fst p3))) (nsub (Fin (snd p2)) (Fin (snd p3))))
       (nmul (nsub (Fin (fst p2)) (Fin (fst p3))) (nsub (Fin (snd p1)) (Fin (snd p3)))).

Definition pointInTriangle (p a b c : option coords) : outcome bool :=
  match p, a, b, c with
  | Some p, Some a, Some b, Some c =>
      let d1 := sign p a b in
      let d2 := sign p b c in
      let d3 := sign p c a in
      let hasNeg := nltb d1 (Fin 0) || nltb d2 (Fin 0) || nltb d3 (Fin 0) in
      let hasPos := ngtb d1 (Fin 0) || ngtb d2 (Fin 0) || ngtb d3 (Fin 0) in
      Ret (negb (hasNeg && hasPos))
  | _, _, _, _ => Throw TypeError
  end.

(** [vertices.indexOf(i)], [-1] when absent. *)
Fixpoint indexOf (vertices : list nat) (i : nat) : Z :=
  match vertices with
  | [] => -1
  | v :: rest =>
      if Nat.eqb v i then 0
      else let k := indexOf rest i in if k <? 0 then -1 else k + 1
  end.

(** [j !== v] for a number [j] and a possibly undefined [v]. *)
Definition differs (j : nat) (v : option nat) : bool :=
  match v with
  | Some k => negb (Nat.eqb j k)
  | None => true
  end.

(** The loop [for (const j of vertices)] of [isEar]. *)
Fixpoint noneInside (points : list coords) (i : nat) (prev next : option nat)
    (js : list nat) : outcome bool :=
  match js with
  | [] => Ret true
  | j :: rest =>
      if negb (Nat.eqb j i) && differs j prev && differs j next then
        obind (pointInTriangle (points !! j) (point_at points prev)
                               (points !! i) (point_at points next))
              (fun inside => if inside then Ret false
                             else noneInside points i prev next rest)
      else noneInside points i prev next rest
  end.

Definition isEar (points : list coords) (i : nat)
    (remainingVertices : option (list nat)) : outcome bool :=
  let vertices := match remainingVertices with
                  | Some r => r
                  | None => seq 0 (length points)
                  end in
  let idx := match remainingVertices with
             | Some _ => indexOf vertices i
             | None => Z.of_nat i
             end in
  let len := Z.of_nat (length vertices) in
  let prev := at_index vertices (Z.rem (idx - 1 + len) len) in
  let next := at_index vertices (Z.rem (idx + 1) len) in
  obind (isTriangleOrientedCCW (point_at points prev) (points !! i) (point_at points next))
        (fun ccw => if negb ccw then Ret false
                    else noneInside points i prev next vertices).

(** The result of one [for] scan over [remainingVertices]. *)
Inductive scan : Type :=
  | Clipped (remainingVertices : list nat) (t : PTriangle)
  | NoEar.

(** What the body of [if (this.isEar(vertex, remainingVertices))] leaves:
    the triangle of index [i] and the list after [splice(i, 1)]. *)
Definition clipAt (points : list coords) (remainingVertices : list nat)
    (i vertex : nat) : scan :=
  let len := Z.of_nat (length remainingVertices) in
  let prev := at_index remainingVertices (Z.rem (Z.of_nat i - 1 + len) len) in
  let next := at_index remainingVertices (Z.rem (Z.of_nat i + 1) len) in
  Clipped (base.delete i remainingVertices)
          (point_at points prev, points !! vertex, point_at points next).

(** The scan of [naiveTriangulation]: [i] is the loop index and [todo]
    holds [remainingVertices[i]], [remainingVertices[i+1]], ... *)
Fixpoint naiveScan (points : list coords) (remainingVertices : list nat)
    (i : nat) (todo : list nat) : outcome scan :=
  match todo with
  | [] => Ret NoEar
  | vertex :: todo' =>
      obind (isEar points vertex (Some remainingVertices))
        (fun ear =>
           if (ear : bool) then Ret (clipAt points remainingVertices i vertex)
           else naiveScan points remainingVertices (S i) todo')
  end.

Fixpoint naiveLoop (fuel : nat) (points : list coords)
    (remainingVertices : list nat) (triangles : list PTriangle)
  : outcome (list nat * list PTriangle) :=
  match fuel with
  | O => OutOfFuel
  | S fuel' =>
      if (3 <? length remainingVertices)%nat then
        obind (naiveScan points remainingVertices 0 remainingVertices)
          (fun r => match r with
                    | Clipped remainingVertices' t =>
                        naiveLoop fuel' points remainingVertices' (triangles ++ [t])
                    | NoEar => Throw NoEarFoundError
                    end)
      else Ret (remainingVertices, triangles)
  end.

Definition finalTriangle (points : list coords) (remainingVertices : list nat) : PTriangle :=
  (point_at points (remainingVertices !! 0%nat),
   point_at points (remainingVertices !! 1%nat),
   point_at points (remainingVertices !! 2%nat)).

(** [naiveTriangulation()]; the loop removes one index per iteration, so
    [n] iterations are enough. *)
Definition naiveTriangulation (points : list coords) : outcome (list PTriangle) :=
  let n := length points in
  if (n <? 3)%nat then Ret []
  else
    obind (naiveLoop n points (seq 0 n) [])
      (fun '(remainingVertices, triangles) =>
         Ret (triangles ++ [finalTriangle points remainingVertices])).

(** *** improvedTriangulation *)

(** [a[k] = v]: JavaScript grows the array when [k] is past its end; a hole
    reads as [undefined], which the class only uses as a condition. *)
Definition array_set (k : option nat) (v : bool) (a : list bool) : list bool :=
  match k with
  | None => a
  | Some k =>
      if (k <? length a)%nat then <[k := v]> a
      else a ++ replicate (k - length a) false ++ [v]
  end.

(** "Pre-compute convex/concave vertices" *)
Fixpoint initConvex (points : list coords) (indices : list nat) : outcome (list bool) :=
  match indices with
  | [] => Ret []
  | i :: rest =>
      let n := Z.of_nat (length points) in
      let prev := Z.rem (Z.of_nat i - 1 + n) n in
      let next := Z.rem (Z.of_nat i + 1) n in
      obind (isTriangleOrientedCCW (at_index points prev) (points !! i) (at_index points next))
        (fun b => obind (initConvex points rest) (fun bs => Ret (b :: bs)))
  end.

Inductive iscan : Type :=
  | IClipped (remainingVertices : list nat) (t : PTriangle) (isConvex : list bool)
  | INoEar.

(** "Update convexity of adjacent vertices", then [splice(i, 1)]. *)
Definition clipConvex (points : list coords) (isConvex : list bool)
    (remainingVertices : list nat) (i vertex : nat) : outcome iscan :=
  let len := Z.of_nat (length remainingVertices) in
  let prevIdx := Z.rem (Z.of_nat i - 1 + len) len in
  let nextIdx := Z.rem (Z.of_nat i + 1) len in
  let prev := at_index remainingVertices prevIdx in
  let next := at_index remainingVertices nextIdx in
  let t := (point_at points prev, points !! vertex, point_at points next) in
  obind (if prevIdx >? 0 then
           let prevPrev := at_index remainingVertices (prevIdx - 1) in
           obind (isTriangleOrientedCCW (point_at points prevPrev)
                    (point_at points prev) (point_at points next))
                 (fun b => Ret (array_set prev b isConvex))
         else Ret isConvex)
    (fun isConvex1 =>
       obind (if nextIdx <? len - 1 then
                let nextNext := at_index remainingVertices (nextIdx + 1) in
                obind (isTriangleOrientedCCW (point_at points prev)
                         (point_at points next) (point_at points nextNext))
                      (fun b => Ret (array_set next b isConvex1))
              else Ret isConvex1)
         (fun isConvex2 =>
            Ret (IClipped (base.delete i remainingVertices) t isConvex2))).

(** "First try convex vertices" *)
Fixpoint convexScan (points : list coords) (isConvex : list bool)
    (remainingVertices : list nat) (i : nat) (todo : list nat) : outcome iscan :=
  match todo with
  | [] => Ret INoEar
  | vertex :: todo' =>
      obind (if default false (isConvex !! vertex)
             then isEar points vertex (Some remainingVertices)
             else Ret false)
        (fun ear =>
           if (ear : bool) then clipConvex points isConvex remainingVertices i vertex
           else convexScan points isConvex remainingVertices (S i) todo')
  end.

(** "If no convex ear found, try concave vertices" *)
Fixpoint concaveScan (points : list coords) (isConvex : list bool)
    (remainingVertices : list nat) (i : nat) (todo : list nat) : outcome scan :=
  match todo with
  | [] => Ret NoEar
  | vertex :: todo' =>
      obind (if negb (default false (isConvex !! vertex))
             then isEar points vertex (Some remainingVertices)
             else Ret false)
        (fun ear =>
           if (ear : bool) then Ret (clipAt points remainingVertices i vertex)
           else concaveScan points isConvex remainingVertices (S i) todo')
  end.

Fixpoint improvedLoop (fuel : nat) (points : list coords) (isConvex : list bool)
    (remainingVertices : list nat) (triangles : list PTriangle)
  : outcome (list nat * list PTriangle) :=
  match fuel with
  | O => OutOfFuel
  | S fuel' =>
      if (3 <? length remainingVertices)%nat then
        obind (convexScan points isConvex remainingVertices 0 remainingVertices)
          (fun r =>
             match r with
             | IClipped remainingVertices' t isConvex' =>
                 improvedLoop fuel' points isConvex' remainingVertices' (triangles ++ [t])
             | INoEar =>
                 obind (concaveScan points isConvex remainingVertices 0 remainingVertices)
                   (fun r' =>
                      match r' with
                      | Clipped remainingVertices' t =>
                          improvedLoop fuel' points isConvex remainingVertices'
                                       (triangles ++ [t])
                      | NoEar => Throw NoEarFoundError
                      end)
             end)
      else Ret (remainingVertices, triangles)
  end.

Definition improvedTriangulation (points : list coords) : outcome (list PTriangle) :=
  let n := length points in
  if (n <? 3)%nat then Ret []
  else
    obind (initConvex points (seq 0 n))
      (fun isConvex =>
         obind (improvedLoop n points isConvex (seq 0 n) [])
           (fun '(remainingVertices, triangles) =>
              Ret (triangles ++ [finalTriangle points remainingVertices]))).

(** The two classes of [improvedTriangulation]: the remaining vertices
    whose flag is set, and those whose flag is not. *)
Definition convexSet (isConvex : list bool) (remainingVertices : list nat) : list nat :=
  List.filter (fun v => default false (isConvex !! v)) remainingVertices.
Definition reflexSet (isConvex : list bool) (remainingVertices : list nat) : list nat :=
  List.filter (fun v => negb (default false (isConvex !! v))) remainingVertices.

(** Twice the absolute area of a triangle, in exact arithmetic. *)
Definition area2 (t : PTriangle) : option Z :=
  match t with
  | (Some a, Some b, Some c) =>
      Some (Z.abs ((fst a - fst c) * (snd b - snd c) - (fst b - fst c) * (snd a - snd c)))
  | _ => None
  end.

End PolygonTriangulation.

(** ** Reading the candidates of an ear test

    The points of the [n] nodes met from [curr] along [next]; [None] when the
    chain breaks before [n] nodes are met. *)
Fixpoint candidatePoints (h : heap) (n : nat) (curr : option ref) : option (list Point) :=
  match n with
  | O => Some []
  | S n' =>
      match curr with
      | None => None
      | Some r =>
          match h !! r with
          | None => None
          | Some v => cons (v_point v) <$> candidatePoints h n' (v_next v)
          end
      end
  end.

(** A candidate that spoils the ear [(a, b, c)]: a point other than the three
    corners (in the sense of [===]) that [isWithinTriangle] accepts. *)
Definition spoils (a b c p : Point) : Prop :=
  same_object p a = false /\ same_object p b = false /\ same_object p c = false /\
  isWithinTriangle p a b c = Ret true.

(** The same test as a boolean. *)
Definition spoilsb (a b c p : Point) : bool :=
  negb (same_object p a || same_object p b || same_object p c) &&
  match isWithinTriangle p a b c with
  | Ret true => true
  | _ => false
  end.

(** ** A correctly linked boundary

    The store and the list obtained from the array draft, which links the
    vertices of [points] in a circle. *)
Definition boundary_heap (points : list Point) : heap :=
  match Draft.boundary points [] with
  | Ret (_, h) => h
  | _ => []
  end.

Definition boundary_list (points : list Point) : CircularList :=
  match Draft.boundary points [] with
  | Ret (l, _) => l
  | _ => new_CircularList
  end.

(** ** Fixtures *)

(** The square of the specification, [(0,0),(4,0),(4,4),(0,4)]. *)
Definition square : list Point :=
  [mkPoint 0 0 0; mkPoint 1 4 0; mkPoint 2 4 4; mkPoint 3 0 4].

(** The same square in the opposite order: its corners are the convex ones
    for [isConvex]. *)
Definition square_rev : list Point :=
  [mkPoint 0 0 0; mkPoint 1 0 4; mkPoint 2 4 4; mkPoint 3 4 0].

(** Three collinear points. *)
Definition collinear3 : list Point :=
  [mkPoint 0 0 0; mkPoint 1 1 0; mkPoint 2 2 0].

(** Two points. *)
Definition segment : list Point := [mkPoint 0 0 0; mkPoint 1 1 0].

(** A triangle. *)
Definition triangle3 : list Point :=
  [mkPoint 0 0 0; mkPoint 1 0 4; mkPoint 2 4 4].

(** Twice the absolute area of a triangle of [triangulate]. *)
Definition area2 (t : Triangle) : Z :=
  let '(a, b, c) := t in
  Z.abs ((fst b - fst a) * (snd c - snd a) - (snd b - snd a) * (fst c - fst a)).

(** ** class DCEL (DCEL.js)

    Half-edges and faces are only ever created by the methods of the class,
    which push them on [this.halfEdges] and [this.faces] in the order of
    their creation: such an object is its index in that array.
    [this.vertices] is replaced by [createPolygon], so vertex objects live
    in a store of their own. *)
Module DCEL.

Record Vertex : Type := mkVertex {
  x : Z;
  y : Z;
  incidentEdge : option nat
}.

Record HalfEdge : Type := mkHalfEdge {
  origin : option nat;
  twin : option nat;
  face : option nat;
  next : option nat;
  prev : option nat
}.

Record Face : Type := mkFace {
  outerComponent : option nat;
  innerComponents : list nat
}.

Record t : Type := mkDCEL {
  vstore : list Vertex;
  vertices : list nat;
  halfEdges : list HalfEdge;
  faces : list Face
}.

(** [new DCEL()] *)
Definition new_DCEL : t := mkDCEL [] [] [] [].

(** [this.halfEdges[k]], [undefined] out of range. *)
Definition edgeRef (d : t) (k : nat) : option nat :=
  if (k <? length (halfEdges d))%nat then Some k else None.

(** [e.f = v] on a half-edge; [e] undefined is a [TypeError]. *)
Definition setEdge (upd : HalfEdge -> HalfEdge) (e : option nat) (d : t) : outcome t :=
  match e with
  | None => Throw TypeError
  | Some k =>
      match halfEdges d !! k with
      | None => Throw TypeError
      | Some he =>
          Ret (mkDCEL (vstore d) (vertices d) (<[k := upd he]> (halfEdges d)) (faces d))
      end
  end.

Definition with_next (v : option nat) (he : HalfEdge) : HalfEdge :=
  mkHalfEdge (origin he) (twin he) (face he) v (prev he).
Definition with_prev (v : option nat) (he : HalfEdge) : HalfEdge :=
  mkHalfEdge (origin he) (twin he) (face he) (next he) v.
Definition with_face (v : option nat) (he : HalfEdge) : HalfEdge :=
  mkHalfEdge (origin he) (twin he) v (next he) (prev he).

(** "Create half-edges": iteration [i], [k] iterations left, [n] points. *)
Fixpoint createEdges (n : nat) (d : t) (i k : nat) : outcome t :=
  match k with
  | O => Ret d
  | S k' =>
      let he1 := length (halfEdges d) in
      let he2 := S he1 in
      let o1 := vertices d !! i in
      let o2 := vertices d !! ((i + 1) mod n)%nat in
      match o1 with
      | None => Throw TypeError
      | Some v =>
          match vstore d !! v with
          | None => Throw TypeError
          | Some vert =>
              createEdges n
                (mkDCEL (<[v := mkVertex (x vert) (y vert) (Some he1)]> (vstore d))
                        (vertices d)
                        (halfEdges d ++ [mkHalfEdge o1 (Some he2) None None None;
                                         mkHalfEdge o2 (Some he1) None None None])
                        (faces d))
                (S i) k'
          end
      end
  end.

(** "Connect half-edges in sequence" *)
Fixpoint connectEdges (n : nat) (d : t) (i k : nat) : outcome t :=
  match k with
  | O => Ret d
  | S k' =>
      let succ := ((i + 1) mod n)%nat in
      let pred := ((i + n - 1) mod n)%nat in
      obind (setEdge (with_next (edgeRef d (2 * succ))) (edgeRef d (2 * i)) d) (fun d1 =>
      obind (setEdge (with_prev (edgeRef d1 (2 * pred))) (edgeRef d1 (2 * i)) d1) (fun d2 =>
      obind (setEdge (with_next (edgeRef d2 (2 * pred + 1))) (edgeRef d2 (2 * i + 1)) d2) (fun d3 =>
      obind (setEdge (with_prev (edgeRef d3 (2 * succ + 1))) (edgeRef d3 (2 * i + 1)) d3) (fun d4 =>
      connectEdges n d4 (S i) k'))))
  end.

(** "Set face for each half-edge" *)
Fixpoint setFaces (innerFace outerFace : option nat) (d : t) (i k : nat) : outcome t :=
  match k with
  | O => Ret d
  | S k' =>
      obind (setEdge (with_face innerFace) (edgeRef d (2 * i)) d) (fun d1 =>
      obind (setEdge (with_face outerFace) (edgeRef d1 (2 * i + 1)) d1) (fun d2 =>
      setFaces innerFace outerFace d2 (S i) k'))
  end.

(** [createPolygon(points)]; the two new faces are pushed last, the outer
    one first. *)
Definition createPolygon (d : t) (points : list (Z * Z)) : outcome t :=
  let n := length points in
  let d0 := mkDCEL (vstore d ++ ((fun p => mkVertex (fst p) (snd p) None) <$> points))
                   (seq (length (vstore d)) n) (halfEdges d) (faces d) in
  obind (createEdges n d0 0 n) (fun d1 =>
  obind (connectEdges n d1 0 n) (fun d2 =>
  let outerFace := length (faces d2) in
  let innerFace := S outerFace in
  let outerComponent := edgeRef d2 1 in
  let innerComponent := edgeRef d2 0 in
  obind (setFaces (Some innerFace) (Some outerFace) d2 0 n) (fun d3 =>
  Ret (mkDCEL (vstore d3) (vertices d3) (halfEdges d3)
              (faces d3 ++ [mkFace outerComponent []; mkFace innerComponent []])))))%nat.

(** The [do ... while] loop of [getVerticesAroundFace]. *)
Fixpoint aroundFace (d : t) (startEdge : option nat) (fuel : nat)
    (currentEdge : option nat) (found : list (option nat)) : outcome (list (option nat)) :=
  match fuel with
  | O => OutOfFuel
  | S fuel' =>
      match currentEdge ≫= fun e => halfEdges d !! e with
      | None => Throw TypeError
      | Some he =>
          let found' := found ++ [origin he] in
          if ref_eqb (next he) startEdge then Ret found'
          else aroundFace d startEdge fuel' (next he) found'
      end
  end.

(** [getVerticesAroundFace(face)] *)
Definition getVerticesAroundFace (d : t) (fuel : nat) (f : option nat)
  : outcome (list (option nat)) :=
  match f ≫= fun k => faces d !! k with
  | None => Throw TypeError
  | Some fc => aroundFace d (outerComponent fc) fuel (outerComponent fc) []
  end.

(** [addDiagonal(vertex1, vertex2)]: the structure and the two new
    half-edges. *)
Definition addDiagonal (d : t) (vertex1 vertex2 : option nat) : t * (nat * nat) :=
  let diagonal1 := length (halfEdges d) in
  let diagonal2 := S diagonal1 in
  (mkDCEL (vstore d) (vertices d)
          (halfEdges d ++ [mkHalfEdge vertex1 (Some diagonal2) None None None;
                           mkHalfEdge vertex2 (Some diagonal1) None None None])
          (faces d),
   (diagonal1, diagonal2)).

(** The half-edges that the first loop of [createPolygon] pushes from
    iteration [i] on, [k] iterations left, when the new vertices are the
    objects [V], [V + 1], ... and [L] half-edges exist. *)
Fixpoint newEdges (n V L i k : nat) : list HalfEdge :=
  match k with
  | O => []
  | S k' =>
      mkHalfEdge (Some (V + i)%nat) (Some (S L)) None None None ::
      mkHalfEdge (Some (V + (i + 1) mod n)%nat) (Some L) None None None ::
      newEdges n V (S (S L)) (S i) k'
  end.

(** [e.f] for a field [f] of a half-edge, [undefined] propagated (as
    [e?.f]). *)
Definition field (f : HalfEdge -> option nat) (d : t) (e : option nat) : option nat :=
  e ≫= fun k => halfEdges d !! k ≫= f.

(** The vertex object [this.vertices[i]]. *)
Definition vertexAt (d : t) (i : nat) : option Vertex :=
  vertices d !! i ≫= fun v => vstore d !! v.

(** A triangle in a fresh structure. *)
Definition triangle : t :=
  match createPolygon new_DCEL [(0, 0); (4, 0); (0, 4)] with
  | Ret d => d
  | _ => new_DCEL
  end.

End DCEL.

(** ** The canvas demo (part_003): line table and bottom point

    A [Map] keeps its entries in insertion order; [set] on a present key
    replaces the value in place. *)
Module Hull.

Definition JSMap (V : Type) : Type := list (number * V).

Fixpoint map_has {V : Type} (k : number) (m : JSMap V) : bool :=
  match m with
  | [] => false
  | (k', _) :: m' => number_eqb k' k || map_has k m'
  end.

Fixpoint map_get {V : Type} (k : number) (m : JSMap V) : option V :=
  match m with
  | [] => None
  | (k', v) :: m' => if number_eqb k' k then Some v else map_get k m'
  end.

Fixpoint map_replace {V : Type} (k : number) (v : V) (m : JSMap V) : JSMap V :=
  match m with
  | [] => []
  | (k', v') :: m' =>
      if number_eqb k' k then (k', v) :: m' else (k', v') :: map_replace k v m'
  end.

Definition map_set {V : Type} (k : number) (v : V) (m : JSMap V) : JSMap V :=
  if map_has k m then map_replace k v m else m ++ [(k, v)].

Fixpoint map_delete {V : Type} (k : number) (m : JSMap V) : JSMap V :=
  match m with
  | [] => []
  | (k', v') :: m' => if number_eqb k' k then m' else (k', v') :: map_delete k m'
  end.

Definition hashPoint (point : (Z * Z)) : number :=
  nadd (nmul (Fin (fst point)) (Fin 31)) (Fin (snd point)).

Definition hashPoints (p1 p2 : (Z * Z)) : number :=
  nadd (nadd (nmul (nadd (nmul (Fin (fst p1)) (Fin 31)) (Fin (snd p1))) (Fin 31))
             (nmul (Fin (fst p2)) (Fin 31)))
       (Fin (snd p2)).

Definition addLine (lines : JSMap ((Z * Z) * (Z * Z))) (p1 p2 : (Z * Z))
  : JSMap ((Z * Z) * (Z * Z)) :=
  map_set (hashPoints p1 p2) (p1, p2) lines.

Definition removeLine (lines : JSMap ((Z * Z) * (Z * Z))) (p1 p2 : (Z * Z))
  : JSMap ((Z * Z) * (Z * Z)) :=
  map_delete (hashPoints p1 p2) lines.

(** The search for the bottom point in [grahamScan]: iteration [i], [k]
    iterations left. *)
Fixpoint bottomFrom (pointsCopy : list (Z * Z)) (i k bottomIdx : nat) : outcome nat :=
  match k with
  | O => Ret bottomIdx
  | S k' =>
      match pointsCopy !! i, pointsCopy !! bottomIdx with
      | Some p, Some q =>
          bottomFrom pointsCopy (S i) k' (if snd q <? snd p then i else bottomIdx)
      | _, _ => Throw TypeError
      end
  end.

Definition bottomIdx (points : list (Z * Z)) : outcome nat :=
  bottomFrom points 0 (length points) 0.

End Hull.

(** ** The simple-polygon check *)

(** [doIntersect(p1, q1, p2, q2)] *)
Definition doIntersect (p1 q1 p2 q2 : Point) : bool :=
  let o1 := getOrientation p1 q1 p2 in
  let o2 := getOrientation p1 q1 q2 in
  let o3 := getOrientation p2 q2 p1 in
  let o4 := getOrientation p2 q2 q1 in
  negb (o1 =? o2) && negb (o3 =? o4).

(** The call [doIntersect(polygon[i], polygon[(i + 1) % n], polygon[j],
    polygon[(j + 1) % n])]; an undefined entry makes [getOrientation] read a
    coordinate of [undefined]. *)
Definition edgesIntersect (polygon : list Point) (i j : nat) : outcome bool :=
  let n := length polygon in
  match polygon !! i, polygon !! ((i + 1) mod n)%nat,
        polygon !! j, polygon !! ((j + 1) mod n)%nat with
  | Some p1, Some q1, Some p2, Some q2 => Ret (doIntersect p1 q1 p2 q2)
  | _, _, _, _ => Throw TypeError
  end.

(** The inner loop [for (let j = ...; j < n; j++)] of [isSimplePolygon], [k]
    iterations left; [Ret false] is the [return false] of the function. *)
Fixpoint simpleInner (polygon : list Point) (i j k : nat) : outcome bool :=
  match k with
  | O => Ret true
  | S k' =>
      if Nat.eqb i 0 && Nat.eqb j (length polygon - 1)
      then simpleInner polygon i (S j) k'
      else
        obind (edgesIntersect polygon i j)
          (fun crossing => if (crossing : bool) then Ret false
                           else simpleInner polygon i (S j) k')
  end.

(** The outer loop [for (let i = 0; i < n; i++)], [k] iterations left. *)
Fixpoint simpleOuter (polygon : list Point) (i k : nat) : outcome bool :=
  match k with
  | O => Ret true
  | S k' =>
      obind (simpleInner polygon i (i + 2) (length polygon - (i + 2)))
        (fun clear => if (clear : bool) then simpleOuter polygon (S i) k'
                      else Ret false)
  end.

(** [isSimplePolygon(polygon)] *)
Definition isSimplePolygon (polygon : list Point) : outcome bool :=
  simpleOuter polygon 0 (length polygon).

(** The pairs of edges that [isSimplePolygon] tests: [i + 2 <= j < n], the
    pair of the first and the last edge left out. *)
Definition testedPair (n i j : nat) : Prop :=
  (i + 2 <= j)%nat /\ (j < n)%nat /\ ~ (i = 0%nat /\ j = (n - 1)%nat).

(** A point moved by [(dx, dy)]; it is another array. *)
Definition translate (dx dy : Z) (p : Point) : Point :=
  mkPoint (pid p) (px p + dx) (py p + dy).

(** Coordinates in the range of exact arithmetic. *)
Definition safe_coords (p : coords) : Prop := small (fst p) /\ small (snd p).

(** [sign(p1, p2, p3)] of the class in exact arithmetic. *)
Definition exactSign (p1 p2 p3 : coords) : Z :=
  (fst p1 - fst p3) * (snd p2 - snd p3) - (fst p2 - fst p3) * (snd p1 - snd p3).

(** ** Areas

    Twice the signed area of the triangle [(a, b, c)]; it is the expression
    that [isTriangleOrientedCCW] compares with zero. *)
Definition triArea2 (a b c : coords) : Z :=
  (fst b - fst a) * (snd c - snd a) - (snd b - snd a) * (fst c - fst a).

Definition cross2 (p q : coords) : Z := fst p * snd q - snd p * fst q.

(** The sum of [cross2] over the consecutive pairs of a path. *)
Fixpoint openSum (l : list coords) : Z :=
  match l with
  | p :: (q :: _) as rest => cross2 p q + openSum rest
  | _ => 0
  end.

(** The shoelace formula: twice the signed area of the closed polygon. *)
Definition shoelace2 (l : list coords) : Z :=
  match l with
  | [] => 0
  | p :: _ => openSum (l ++ [p])
  end.

(** Twice the signed area of a triangle of the class; [None] when a corner
    is undefined. *)
Definition triangleArea2 (t : PolygonTriangulation.PTriangle) : option Z :=
  match t with
  | (Some a, Some b, Some c) => Some (triArea2 a b c)
  | _ => None
  end.

Fixpoint sumArea2 (ts : list PolygonTriangulation.PTriangle) : option Z :=
  match ts with
  | [] => Some 0
  | t :: rest =>
      match triangleArea2 t, sumArea2 rest with
      | Some x, Some y => Some (x + y)
      | _, _ => None
      end
  end.

(** The polygon of the remaining vertices: their coordinates in order. *)
Definition polygonOf (points : list coords) (remainingVertices : list nat) : list coords :=
  (fun v => default (0, 0) (points !! v)) <$> remainingVertices.

(** A triangle with defined corners and a strictly positive signed area. *)
Definition positiveTriangle (t : PolygonTriangulation.PTriangle) : Prop :=
  exists x : Z, triangleArea2 t = Some x /\ 0 < x.

(** Overlapping collinear segments. *)
Definition overlap_p1 : Point := mkPoint 0 0 0.
Definition overlap_q1 : Point := mkPoint 1 4 0.
Definition overlap_p2 : Point := mkPoint 2 2 0.
Definition overlap_q2 : Point := mkPoint 3 6 0.

(** ** Facts about numbers *)

Lemma round53_exact (z : Z) :
  - 9007199254740992 < z < 9007199254740992 -> round53 z = z.
Proof.
  intros Hz. unfold round53. cbv zeta.
  destruct (Z.leb_spec (Z.log2 (Z.abs z) - 52) 0) as [_ | He]; [reflexivity|].
  exfalso. destruct (Z.eq_dec (Z.abs z) 0) as [E | E].
  - rewrite E in He. cbn in He. lia.
  - assert (Hlog : Z.log2 (Z.abs z) < 53).
    { apply Z.log2_lt_pow2; [lia|]. change (2 ^ 53) with 9007199254740992. lia. }
    lia.
Qed.

Lemma to_number_exact (z : Z) :
  - 9007199254740992 < z < 9007199254740992 -> to_number z = Fin z.
Proof.
  intros Hz. unfold to_number. cbv zeta. rewrite (round53_exact z Hz).
  assert (Ho : 9007199254740992 < overflow).
  { unfold overflow. change 9007199254740992 with (2 ^ 53).
    apply Z.pow_lt_mono_r; lia. }
  destruct (Z.leb_spec overflow z); [lia|].
  destruct (Z.leb_spec z (- overflow)); [lia|]. reflexivity.
Qed.

Lemma mul_bound (a b A B : Z) :
  - A < a < A -> - B < b < B -> - (A * B) < a * b < A * B.
Proof. intros Ha Hb. nia. Qed.

Lemma nsub_small (x y : Z) :
  small x -> small y ->
  nsub (Fin x) (Fin y) = Fin (x - y) /\ - 67108864 < x - y < 67108864.
Proof.
  unfold small. intros Hx Hy. split; [|lia].
  cbn [nsub]. apply to_number_exact. lia.
Qed.

Lemma cross_exact (a b c d : Z) :
  - 67108864 < a < 67108864 -> - 67108864 < b < 67108864 ->
  - 67108864 < c < 67108864 -> - 67108864 < d < 67108864 ->
  nsub (nmul (Fin a) (Fin b)) (nmul (Fin c) (Fin d)) = Fin (a * b - c * d).
Proof.
  intros Ha Hb Hc Hd.
  pose proof (mul_bound a b 67108864 67108864 Ha Hb) as Hab.
  pose proof (mul_bound c d 67108864 67108864 Hc Hd) as Hcd.
  cbn [nmul]. rewrite !to_number_exact by lia.
  cbn [nsub]. apply to_number_exact. lia.
Qed.

Lemma ngtb_Fin (x : Z) : ngtb (Fin x) (Fin 0) = (0 <? x).
Proof. reflexivity. Qed.

Lemma nltb_Fin (x : Z) : nltb (Fin x) (Fin 0) = (x <? 0).
Proof. reflexivity. Qed.

Lemma ltb_0_sgn x : (x <? 0) = (Z.sgn x =? -1).
Proof. destruct x; reflexivity. Qed.

Lemma gtb_0_sgn x : (0 <? x) = (Z.sgn x =? 1).
Proof. destruct x; reflexivity. Qed.

(** ** Facts about the predicates *)


(** On safe points [getOrientation] is the orientation of exact
    arithmetic. *)
Lemma getOrientation_exact p1 p2 p3 :
  safe p1 -> safe p2 -> safe p3 ->
  getOrientation p1 p2 p3 = orientation p1 p2 p3.
Proof.
  intros [H1x H1y] [H2x H2y] [H3x H3y].
  unfold getOrientation, orientation, cross. cbv zeta. cbn [fst snd].
  destruct (nsub_small _ _ H1x H2x) as [-> ?].
  destruct (nsub_small _ _ H1y H2y) as [-> ?].
  destruct (nsub_small _ _ H3x H2x) as [-> ?].
  destruct (nsub_small _ _ H3y H2y) as [-> ?].
  rewrite cross_exact by assumption. rewrite ngtb_Fin, nltb_Fin.
  set (r := _ - _). destruct r; reflexivity.
Qed.

Lemma orientation_zero p1 p2 p3 :
  orientation p1 p2 p3 = 0 <->
  (px p1 - px p2) * (py p3 - py p2) - (py p1 - py p2) * (px p3 - px p2) = 0.
Proof. unfold orientation. apply Z.sgn_null_iff. Qed.





Lemma orientation_same_12 p1 p2 p3 :
  px p1 = px p2 -> py p1 = py p2 -> orientation p1 p2 p3 = 0.
Proof. intros Hx Hy. apply orientation_zero. rewrite Hx, Hy. ring. Qed.

Lemma orientation_same_13 p1 p2 p3 :
  px p1 = px p3 -> py p1 = py p3 -> orientation p1 p2 p3 = 0.
Proof. intros Hx Hy. apply orientation_zero. rewrite Hx, Hy. ring. Qed.

Lemma orientation_cases p1 p2 p3 :
  orientation p1 p2 p3 = 1 \/ orientation p1 p2 p3 = -1 \/ orientation p1 p2 p3 = 0.
Proof. unfold orientation. destruct (_ - _); cbn; auto. Qed.



Lemma isWithinTriangle_unfold point a b c :
  isWithinTriangle point a b c =
  if getOrientation a b c =? 0 then Throw DegenerateGeometryError
  else if same_object point a || same_object point b || same_object point c
  then Ret true
  else Ret (verdict (getOrientation point a b) (getOrientation point b c)
                    (getOrientation point c a)).
Proof.
  unfold isWithinTriangle, verdict. cbv zeta.
  destruct (_ =? 0); [reflexivity|].
  destruct (_ || _); [reflexivity|].
  destruct (_ && _); [reflexivity|].
  destruct (_ =? 0); reflexivity.
Qed.

Lemma verdict_two_zero_l o2 : verdict 0 o2 0 = true.
Proof.
  unfold verdict. destruct (Z.eqb_spec 0 o2) as [<- | ]; [reflexivity|].
  cbn. replace (0 * o2 * 0) with 0 by ring. reflexivity.
Qed.

Lemma verdict_two_zero_m o3 : verdict 0 0 o3 = true.
Proof.
  unfold verdict. destruct (Z.eqb_spec 0 o3) as [<- | ]; [reflexivity|].
  cbn. reflexivity.
Qed.

Lemma verdict_two_zero_r o1 : verdict o1 0 0 = true.
Proof.
  unfold verdict. destruct (Z.eqb_spec o1 0) as [-> | ]; [reflexivity|].
  cbn. replace (o1 * 0 * 0) with 0 by ring. reflexivity.
Qed.






(** *** The ear test *)

Lemma spoilsb_spec a b c p : spoilsb a b c p = true <-> spoils a b c p.
Proof.
  unfold spoilsb, spoils. rewrite andb_true_iff, negb_true_iff.
  rewrite !orb_false_iff. split.
  - intros [[[Ha Hb] Hc] Hw]. repeat split; try assumption.
    destruct (isWithinTriangle p a b c) as [[|]| |]; congruence.
  - intros (Ha & Hb & Hc & Hw). rewrite Hw. tauto.
Qed.

Lemma isEar_scan_spec a b c :
  getOrientation a b c <> 0 ->
  forall n curr h cands,
    candidatePoints h n curr = Some cands ->
    isEar_scan a b c n curr h = Ret (negb (existsb (spoilsb a b c) cands), h).
Proof.
  intros D. induction n as [|n IH]; intros curr h cands Hc; cbn in Hc.
  - injection Hc as <-. reflexivity.
  - destruct curr as [r|]; [|discriminate].
    destruct (h !! r) as [v|] eqn:Hr; [|discriminate].
    destruct (candidatePoints h n (v_next v)) as [cs|] eqn:Hcs; [|discriminate].
    injection Hc as <-. specialize (IH _ _ _ Hcs).
    cbn [isEar_scan existsb]. unfold bind at 1, read at 1. rewrite Hr.
    unfold spoilsb at 1. rewrite isWithinTriangle_unfold.
    destruct (Z.eqb_spec (getOrientation a b c) 0) as [E|_]; [contradiction|].
    destruct (same_object (v_point v) a || same_object (v_point v) b
              || same_object (v_point v) c) eqn:Hs.
    + cbn [negb andb orb]. unfold bind at 1, read at 1. rewrite Hr. exact IH.
    + cbn [negb andb orb]. unfold bind at 1, lift.
      destruct (verdict _ _ _).
      * reflexivity.
      * cbn [orb]. unfold bind at 1, read at 1. rewrite Hr. exact IH.
Qed.

Lemma existsb_spoils a b c cands :
  existsb (spoilsb a b c) cands = true <-> exists p, In p cands /\ spoils a b c p.
Proof.
  rewrite existsb_exists. split; intros (p & Hin & Hp); exists p;
    (split; [assumption | now apply spoilsb_spec]).
Qed.

(** C4. [isEar(prev, vertex, next, candidates)] returns false when
    [isConvex(prev, vertex, next)] is false; when the angle is convex it
    returns false if some candidate that is not [prev], [vertex] or [next]
    (for [===]) lies in the triangle according to [isWithinTriangle], and
    true otherwise.  The candidates are the points of the nodes of the
    collection, read along [next] from its head. *)
Theorem isEar_spec (prev vertex next : Point) (candidates : option CircularList) (h : heap) :
  (isConvex prev vertex next = false ->
   isEar prev vertex next candidates h = Ret (false, h)) /\
  (forall l cands,
     candidates = Some l ->
     candidatePoints h (Z.to_nat (size l)) (head l) = Some cands ->
     isConvex prev vertex next = true ->
     ((exists p, In p cands /\ spoils prev vertex next p) ->
      isEar prev vertex next candidates h = Ret (false, h)) /\
     (~ (exists p, In p cands /\ spoils prev vertex next p) ->
      isEar prev vertex next candidates h = Ret (true, h))).
Proof.
  split.
  - intros Hc. unfold isEar. rewrite Hc. reflexivity.
  - intros l cands -> Hcands Hc.
    assert (D : getOrientation prev vertex next <> 0).
    { unfold isConvex in Hc. apply Z.eqb_eq in Hc. rewrite Hc. discriminate. }
    unfold isEar. rewrite Hc. cbn [negb].
    rewrite (isEar_scan_spec _ _ _ D _ _ _ _ Hcands).
    split; intros Hex.
    + apply existsb_spoils in Hex. rewrite Hex. reflexivity.
    + destruct (existsb (spoilsb prev vertex next) cands) eqn:E; [|reflexivity].
      apply existsb_spoils in E. contradiction.
Qed.

Lemma isEar_spec_witness :
  isEar (mkPoint 3 4 0) (mkPoint 0 0 0) (mkPoint 1 0 4)
        (Some (boundary_list square_rev)) (boundary_heap square_rev)
  = Ret (true, boundary_heap square_rev).
Proof.
  apply (proj2 (isEar_spec (mkPoint 3 4 0) (mkPoint 0 0 0) (mkPoint 1 0 4)
                  (Some (boundary_list square_rev)) (boundary_heap square_rev))
           (boundary_list square_rev) square_rev);
    [reflexivity | reflexivity | reflexivity |].
  intros (p & Hin & Hs). unfold spoils in Hs. cbn in Hin.
  destruct Hin as [<-|[<-|[<-|[<-|[]]]]]; cbn in Hs;
    destruct Hs as (H1 & H2 & H3 & H4); discriminate.
Defined.

(** The draft of the ear test never answers true, whatever the points
    and the candidates: it answers false, answers [undefined] or throws.  The
    linked-list implementation above replaces it. *)
Lemma Sketch_scan_never_true (array : option (list Point)) (a b c : Point) :
  forall k i, Sketch.scan array a b c i k <> Ret (Some true).
Proof.
  induction k as [|k IH]; intros i; cbn [Sketch.scan]; [discriminate|].
  destruct array as [elements|]; [|discriminate].
  destruct (Sketch.isWithinTriangle (elements !! i) a b c) as [[|]| |];
    cbn [obind]; try discriminate.
  apply IH.
Qed.

Lemma Sketch_isEar_never_true (array : option (list Point)) (a b c : Point)
    (otherPoints : option (list Point)) :
  Sketch.isEar array a b c otherPoints <> Ret (Some true).
Proof.
  unfold Sketch.isEar. destruct (negb _); [discriminate|].
  destruct otherPoints as [l|]; [discriminate || apply Sketch_scan_never_true | discriminate].
Qed.

(** *** The store *)

Lemma read_Some {A} (f : Vertex -> A) (r : ref) (v : Vertex) (h : heap) :
  h !! r = Some v -> read f (Some r) h = Ret (f v, h).
Proof. intros E. unfold read. rewrite E. reflexivity. Qed.

Lemma write_Some (upd : Vertex -> Vertex) (r : ref) (v : Vertex) (h : heap) :
  h !! r = Some v -> write upd (Some r) h = Ret (tt, <[r := upd v]> h).
Proof. intros E. unfold write. rewrite E. reflexivity. Qed.

Lemma ref_eqb_eq x y : ref_eqb x y = true <-> x = y.
Proof.
  destruct x as [m|], y as [n|]; cbn; try (split; congruence).
  rewrite Nat.eqb_eq. split; congruence.
Qed.

(** *** CircularList.delete *)

(** C10. On a list of size at least 2, [delete(node)] leaves the deleted
    node as it was, [next] and [prev] included: they still point at the former
    neighbours.  Only [prev.next], [next.prev], the head and the size change;
    a read of [node.prev] or [node.next] after the deletion, as the optimized
    driver does, therefore yields the former neighbours. *)
Theorem delete_keeps_own_links (this : CircularList) (n p q : ref) (v : Vertex) (h : heap) :
  2 <= size this ->
  h !! n = Some v -> v_prev v = Some p -> v_next v = Some q ->
  is_Some (h !! p) -> is_Some (h !! q) ->
  exists h' : heap,
    delete this (Some n) h
    = Ret (mkCircularList (if ref_eqb (Some n) (head this) then Some q else head this)
                          (size this - 1), h') /\
    h' !! n = Some v /\
    read v_prev (Some n) h' = Ret (Some p, h') /\
    read v_next (Some n) h' = Ret (Some q, h') /\
    length h' = length h /\
    (forall m w, h !! m = Some w ->
       exists w', h' !! m = Some w' /\
         v_point w' = v_point w /\
         v_isConvex w' = v_isConvex w /\
         v_isEar w' = v_isEar w /\
         v_next w' = (if decide (m = p) then Some q else v_next w) /\
         v_prev w' = (if decide (m = q) then Some p else v_prev w)).
Proof.
  intros Hsz Hn Hp Hq [wp Hwp] [wq Hwq].
  set (h1 := <[p := with_next (Some q) wp]> h).
  assert (Hlen1 : length h1 = length h) by apply length_insert.
  assert (Hq1 : exists wq1, h1 !! q = Some wq1 /\
            wq1 = (if decide (p = q) then with_next (Some q) wp else wq)).
  { unfold h1. rewrite list_lookup_insert. destruct (decide (p = q)) as [->|Hne].
    - rewrite decide_True; [eauto|]. split; [reflexivity|].
      apply lookup_lt_is_Some. eauto.
    - rewrite decide_False by tauto. eauto. }
  destruct Hq1 as (wq1 & Hwq1 & Ewq1).
  set (h' := <[q := with_prev (Some p) wq1]> h1).
  assert (Hframe : forall m w, h !! m = Some w ->
       exists w', h' !! m = Some w' /\
         v_point w' = v_point w /\
         v_isConvex w' = v_isConvex w /\
         v_isEar w' = v_isEar w /\
         v_next w' = (if decide (m = p) then Some q else v_next w) /\
         v_prev w' = (if decide (m = q) then Some p else v_prev w)).
  { intros m w Hm. unfold h'.
    destruct (decide (m = q)) as [->|Hmq].
    - rewrite list_lookup_insert_eq
        by (rewrite Hlen1; apply lookup_lt_is_Some; eauto).
      eexists. split; [reflexivity|]. subst wq1.
      assert (w = wq) by congruence. subst w.
      destruct (decide (p = q)) as [->|Hpq].
      + assert (wp = wq) by congruence. subst wp.
        rewrite decide_True by reflexivity. cbn. tauto.
      + rewrite decide_False by congruence. cbn. tauto.
    - rewrite list_lookup_insert_ne by congruence. unfold h1.
      destruct (decide (m = p)) as [->|Hmp].
      + rewrite list_lookup_insert_eq by (apply lookup_lt_is_Some; eauto).
        eexists. split; [reflexivity|].
        assert (w = wp) by congruence. subst w. cbn. tauto.
      + rewrite list_lookup_insert_ne by congruence.
        exists w. tauto. }
  assert (Hn' : h' !! n = Some v).
  { destruct (Hframe n v Hn) as (w' & Hw' & Hpt & Hcv & Hear & Hnx & Hpv).
    rewrite Hw'. f_equal. destruct w', v; cbn in *. subst.
    repeat case_decide; reflexivity. }
  exists h'. split; [|split; [exact Hn'|split; [|split; [|split]]]].
  - unfold delete.
    replace (size this =? 1) with false by (symmetry; apply Z.eqb_neq; lia).
    cbn [andb]. unfold bind at 1.
    assert (Hhd : (if ref_eqb (Some n) (head this)
                   then read v_next (head this) else ret (head this)) h
                  = Ret (if ref_eqb (Some n) (head this) then Some q else head this, h)).
    { destruct (ref_eqb (Some n) (head this)) eqn:E; [|reflexivity].
      apply ref_eqb_eq in E. rewrite <- E, (read_Some _ _ _ _ Hn), Hq. reflexivity. }
    rewrite Hhd.
    unfold bind at 1. rewrite (read_Some _ _ _ _ Hn), Hp.
    unfold bind at 1. rewrite (read_Some _ _ _ _ Hn), Hq.
    unfold bind at 1, set_next. rewrite (write_Some _ _ _ _ Hwp).
    unfold bind at 1, set_prev. fold h1. rewrite (write_Some _ _ _ _ Hwq1).
    reflexivity.
  - rewrite (read_Some _ _ _ _ Hn'), Hp. reflexivity.
  - rewrite (read_Some _ _ _ _ Hn'), Hq. reflexivity.
  - unfold h'. rewrite length_insert. exact Hlen1.
  - exact Hframe.
Qed.

Lemma delete_keeps_own_links_witness :
  exists h' : heap,
    delete (boundary_list square_rev) (Some 0%nat) (boundary_heap square_rev)
    = Ret (mkCircularList (Some 1%nat) 3, h') /\
    read v_prev (Some 0%nat) h' = Ret (Some 3%nat, h') /\
    read v_next (Some 0%nat) h' = Ret (Some 1%nat, h').
Proof.
  destruct (delete_keeps_own_links (boundary_list square_rev) 0%nat 3%nat 1%nat
              (mkVertex (mkPoint 0 0 0) (Some 1%nat) (Some 3%nat) false false)
              (boundary_heap square_rev))
    as (h' & Hd & _ & Hp & Hn & _).
  - vm_compute. discriminate.
  - reflexivity.
  - reflexivity.
  - reflexivity.
  - eexists. reflexivity.
  - eexists. reflexivity.
  - exists h'. split; [exact Hd | split; [exact Hp | exact Hn]].
Defined.

(** *** CircularList.insert and createDoublyLinkedList *)

(** Without a [previous] node, [insert] can only fill an empty list. *)
Lemma insert_undefined_previous (this : CircularList) (newNode : option ref) (h : heap) :
  head this <> None -> insert this newNode None h = Throw TypeError.
Proof.
  intros Hh. unfold insert. destruct (head this); [reflexivity | contradiction].
Qed.

Lemma insert_first (this : CircularList) (r : ref) (v : Vertex) (h : heap) :
  head this = None -> h !! r = Some v ->
  insert this (Some r) None h
  = Ret (mkCircularList (Some r) (size this + 1),
         <[r := with_prev (Some r) (with_next (Some r) v)]> h).
Proof.
  intros Hh Hr. unfold insert. rewrite Hh.
  unfold bind at 1, set_next. rewrite (write_Some _ _ _ _ Hr).
  unfold bind at 1, set_prev.
  assert (Hr' : <[r := with_next (Some r) v]> h !! r = Some (with_next (Some r) v)).
  { apply list_lookup_insert_eq. apply lookup_lt_is_Some. eauto. }
  rewrite (write_Some _ _ _ _ Hr'). rewrite list_insert_insert_eq. reflexivity.
Qed.

Lemma insertAll_cons (this : CircularList) (p : Point) (rest : list Point) (h : heap) :
  insertAll this (p :: rest) h
  = (let* newVertex := new_Vertex p in
     let* vertices' := insert this newVertex None in
     insertAll vertices' rest) h.
Proof. reflexivity. Qed.

Lemma insertAll_second (this : CircularList) (points : list Point) (h : heap) :
  head this <> None -> points <> [] -> insertAll this points h = Throw TypeError.
Proof.
  intros Hh Hp. destruct points as [|p rest]; [contradiction|].
  rewrite insertAll_cons. unfold bind at 1, new_Vertex. unfold bind at 1.
  rewrite insert_undefined_previous by assumption. reflexivity.
Qed.

Lemma insertAll_two (p1 p2 : Point) (rest : list Point) (h : heap) :
  insertAll new_CircularList (p1 :: p2 :: rest) h = Throw TypeError.
Proof.
  rewrite insertAll_cons. unfold bind at 1, new_Vertex. unfold bind at 1.
  erewrite insert_first; [|reflexivity|apply list_lookup_middle; reflexivity].
  apply insertAll_second; [discriminate|discriminate].
Qed.

Lemma createDoublyLinkedList_short (points : list Point) (h : heap) :
  (length points < 3)%nat -> createDoublyLinkedList points h = Throw InvalidInputError.
Proof.
  intros Hlen. unfold createDoublyLinkedList.
  replace (Z.of_nat (length points) <? 3) with true
    by (symmetry; apply Z.ltb_lt; lia).
  reflexivity.
Qed.

Lemma createDoublyLinkedList_throws (points : list Point) (h : heap) :
  (3 <= length points)%nat -> createDoublyLinkedList points h = Throw TypeError.
Proof.
  intros Hlen. unfold createDoublyLinkedList.
  replace (Z.of_nat (length points) <? 3) with false
    by (symmetry; apply Z.ltb_ge; lia).
  destruct points as [|p1 [|p2 rest]]; cbn in Hlen; try lia.
  apply insertAll_two.
Qed.

(** C6. [createDoublyLinkedList(points)] rejects fewer than three points with
    the "Needs at Least 3 Vertices" error, and for three points or more it
    does not return a list: the second [vertices.insert(newVertex)] reads
    [previous.next] of an undefined [previous] and throws [TypeError]. *)
Theorem createDoublyLinkedList_never_returns (points : list Point) (h : heap) :
  ((length points < 3)%nat -> createDoublyLinkedList points h = Throw InvalidInputError) /\
  ((3 <= length points)%nat -> createDoublyLinkedList points h = Throw TypeError).
Proof.
  split; [apply createDoublyLinkedList_short | apply createDoublyLinkedList_throws].
Qed.

Lemma createDoublyLinkedList_never_returns_witness :
  createDoublyLinkedList segment [] = Throw InvalidInputError /\
  createDoublyLinkedList triangle3 [] = Throw TypeError.
Proof.
  split.
  - apply (createDoublyLinkedList_never_returns segment []). cbn. lia.
  - apply (createDoublyLinkedList_never_returns triangle3 []). cbn. lia.
Defined.

(** *** triangulate *)

(** C9. For every input of fewer than three points, [triangulate] throws the
    "Needs at Least 3 Vertices" error, with the naive and with the optimized
    method; no list of triangles is returned. *)
Theorem triangulate_rejects_short_input (fuel : nat) (points : list Point) :
  (length points < 3)%nat ->
  triangulate points (naiveEarCutting fuel) = Throw InvalidInputError /\
  triangulate points (optimizedEarCutting fuel) = Throw InvalidInputError.
Proof.
  intros Hlen. unfold triangulate, naiveEarCutting, optimizedEarCutting.
  replace (Z.of_nat (length points) <? 3) with true
    by (symmetry; apply Z.ltb_lt; lia).
  split; reflexivity.
Qed.

Lemma triangulate_rejects_short_input_witness :
  triangulate segment (naiveEarCutting 5) = Throw InvalidInputError /\
  triangulate segment (optimizedEarCutting 5) = Throw InvalidInputError.
Proof.
  apply (triangulate_rejects_short_input 5 segment). cbn. lia.
Defined.

(** C1. [triangulate] returns no list of triangles for any input of three
    points or more, whatever the method: both drivers build the boundary with
    [createDoublyLinkedList], which throws [TypeError].  The count [n - 2]
    of the specification is therefore never delivered. *)
Theorem triangulate_never_returns (fuel : nat) (points : list Point) :
  (3 <= length points)%nat ->
  triangulate points (naiveEarCutting fuel) = Throw TypeError /\
  triangulate points (optimizedEarCutting fuel) = Throw TypeError.
Proof.
  intros Hlen. unfold triangulate, naiveEarCutting, optimizedEarCutting.
  replace (Z.of_nat (length points) <? 3) with false
    by (symmetry; apply Z.ltb_ge; lia).
  unfold run, bind.
  rewrite (createDoublyLinkedList_throws points [] Hlen). split; reflexivity.
Qed.

Lemma triangulate_never_returns_witness :
  triangulate square_rev (naiveEarCutting 5) = Throw TypeError /\
  triangulate square_rev (optimizedEarCutting 5) = Throw TypeError.
Proof.
  apply (triangulate_never_returns 5 square_rev). cbn. lia.
Defined.

(** *** The loop of the naive driver *)

Lemma read_cases {A} (f : Vertex -> A) (r : option ref) (h : heap) :
  read f r h = Throw TypeError \/ exists x, read f r h = Ret (x, h).
Proof.
  unfold read. destruct r as [n|]; [|now left].
  destruct (h !! n); [right; eauto | now left].
Qed.

(** A property of the outcome of [let* x := r.f in k x] follows from the
    same property of [TypeError] and of every continuation. *)
Lemma bind_read_elim {A B} (P : outcome (B * heap) -> Prop)
    (f : Vertex -> A) (r : option ref) (k : A -> M B) (h : heap) :
  P (Throw TypeError) -> (forall x, P (k x h)) -> P (bind (read f r) k h).
Proof.
  intros HT Hk. unfold bind.
  destruct (read_cases f r h) as [E|[x E]]; rewrite E; auto.
Qed.

(** Called with three arguments, [isEar] never answers true. *)
Lemma isEar_three_arguments (a b c : Point) (h : heap) :
  isEar a b c None h = Throw TypeError \/ isEar a b c None h = Ret (false, h).
Proof.
  unfold isEar. destruct (isConvex a b c); cbn; [now left | now right].
Qed.

Lemma naiveIteration_stutters (vertices : CircularList) (triangles : list Triangle) (h : heap) :
  naiveIteration vertices triangles h = Throw TypeError \/
  naiveIteration vertices triangles h = Ret ((vertices, triangles), h).
Proof.
  unfold naiveIteration. cbv zeta.
  match goal with |- ?X = _ \/ ?X = _ => pattern X end.
  do 5 (apply bind_read_elim; [now left | intros ?]).
  cbv beta. unfold bind.
  match goal with
  | |- context [isEar ?a ?b ?c None ?h] =>
      destruct (isEar_three_arguments a b c h) as [E'|E']; rewrite E'
  end; [now left | now right].
Qed.

(** C2. In [naiveEarCutting], an iteration of [while (vertices.size > 3)] that
    completes leaves the list, the store and the triangles as they were: it
    neither clips [vertices.head] nor moves to another node.  Hence, with more
    than three vertices, the loop never ends normally and never reports a
    missing ear: it throws [TypeError] or runs for ever. *)
Theorem naiveLoop_never_advances (fuel : nat) (vertices : CircularList)
    (triangles : list Triangle) (h : heap) :
  3 < size vertices ->
  (naiveIteration vertices triangles h = Throw TypeError \/
   naiveIteration vertices triangles h = Ret ((vertices, triangles), h)) /\
  (naiveLoop fuel vertices triangles h = Throw TypeError \/
   naiveLoop fuel vertices triangles h = OutOfFuel).
Proof.
  intros Hsz. split; [apply naiveIteration_stutters|].
  induction fuel as [|fuel IH]; [now right|].
  assert (Hstep : naiveLoop (S fuel) vertices triangles h = Throw TypeError \/
                  naiveLoop (S fuel) vertices triangles h
                  = naiveLoop fuel vertices triangles h).
  { cbn [naiveLoop].
    replace (size vertices >? 3) with true by (symmetry; apply Z.gtb_lt; lia).
    unfold bind.
    destruct (naiveIteration_stutters vertices triangles h) as [E|E]; rewrite E;
      [now left | now right]. }
  destruct Hstep as [-> | ->]; [now left | exact IH].
Qed.

Lemma naiveLoop_never_advances_witness :
  naiveIteration (boundary_list square) [] (boundary_heap square)
  = Ret ((boundary_list square, []), boundary_heap square) /\
  naiveLoop 6 (boundary_list square) [] (boundary_heap square) = OutOfFuel.
Proof.
  assert (Hsz : 3 < size (boundary_list square)) by (vm_compute; reflexivity).
  destruct (naiveLoop_never_advances 6 (boundary_list square) [] (boundary_heap square) Hsz)
    as [[E1|E1] [E2|E2]]; try (vm_compute in E1; discriminate E1);
    try (vm_compute in E2; discriminate E2).
  split; [exact E1 | exact E2].
Defined.

(** *** The two lists of the optimized driver *)

Lemma bind_Ret_inv {A B} (m : M A) (k : A -> M B) (h h' : heap) (b : B) :
  bind m k h = Ret (b, h') ->
  exists a h1, m h = Ret (a, h1) /\ k a h1 = Ret (b, h').
Proof.
  unfold bind. destruct (m h) as [[a h1]| |]; try discriminate. eauto.
Qed.

(** Split a successful sequence into its successful steps. *)
Ltac inv_bind H :=
  repeat match type of H with
         | bind _ _ _ = Ret _ =>
             let a := fresh "a" in
             let h1 := fresh "h" in
             let H1 := fresh "H" in
             apply bind_Ret_inv in H as (a & h1 & H1 & H)
         end.

Lemma insert_size (this : CircularList) (newNode previous : option ref)
    (h h' : heap) (l : CircularList) :
  insert this newNode previous h = Ret (l, h') -> size l = size this + 1.
Proof.
  unfold insert. intros H.
  destruct (head this); inv_bind H; injection H as <- _; reflexivity.
Qed.

(** X19. Reclassifying a neighbour only ever inserts: whenever it returns,
    neither the convex nor the concave list is smaller than it was. *)
Lemma reclassify_never_removes (nb : option ref) (convexVertices concaveVertices : CircularList)
    (h h' : heap) (convexVertices' concaveVertices' : CircularList) :
  reclassify nb convexVertices concaveVertices h
  = Ret ((convexVertices', concaveVertices'), h') ->
  size convexVertices <= size convexVertices' /\
  size concaveVertices <= size concaveVertices'.
Proof.
  unfold reclassify. intros H.
  do 5 (apply bind_Ret_inv in H as (? & ? & _ & H)).
  destruct (isConvex _ _ _).
  - apply bind_Ret_inv in H as (? & ? & _ & H).
    apply bind_Ret_inv in H as ([|] & ? & _ & H).
    + apply bind_Ret_inv in H as (l & ? & Hi & H).
      apply insert_size in Hi. injection H as <- <- _. lia.
    + injection H as <- <- _. lia.
  - apply bind_Ret_inv in H as (? & ? & _ & H).
    apply bind_Ret_inv in H as (l & ? & Hi & H).
    apply insert_size in Hi. injection H as <- <- _. lia.
Qed.

(** C5. The convex and the concave list of [optimizedEarCutting] do not
    partition the boundary.  On the correctly linked boundary of a square with
    four convex corners, two iterations of the classification loop leave the
    first vertex at the head of both lists, as their only member: inserting it
    into the convex list links it to itself, so the loop never reaches the
    other vertices.  The third iteration throws [TypeError], and so does the
    driver itself on this input. *)
Theorem classify_breaks_partition :
  exists (convexVertices concaveVertices : CircularList) (h : heap),
    classify 2 (head (boundary_list square_rev)) new_CircularList new_CircularList
             (boundary_heap square_rev)
    = Ret ((convexVertices, concaveVertices), h) /\
    members h convexVertices = [0%nat] /\
    members h concaveVertices = [0%nat] /\
    members (boundary_heap square_rev) (boundary_list square_rev) = [0; 1; 2; 3]%nat /\
    members h (boundary_list square_rev) = [0; 0; 0; 0]%nat /\
    (forall fuel, optimizedClipping fuel (boundary_list square_rev) (boundary_heap square_rev)
                  = Throw TypeError) /\
    (forall fuel, optimizedEarCutting fuel square_rev = Throw TypeError).
Proof.
  eexists _, _, _. split; [vm_compute; reflexivity|].
  repeat split; try reflexivity.
Qed.

(** C7. On the square [(0,0),(4,0),(4,4),(0,4)], [triangulate] throws
    [TypeError] with either method, where the specification expects two
    triangles of total area 16.  The index-based class does deliver them:
    [naiveTriangulation] returns two triangles, each of doubled area 16. *)
Theorem square_fixture :
  (forall fuel, triangulate square (naiveEarCutting fuel) = Throw TypeError) /\
  (forall fuel, triangulate square (optimizedEarCutting fuel) = Throw TypeError) /\
  PolygonTriangulation.naiveTriangulation (map slice square)
  = Ret [(Some (0, 4), Some (0, 0), Some (4, 0));
         (Some (4, 0), Some (4, 4), Some (0, 4))] /\
  map PolygonTriangulation.area2
      [(Some (0, 4), Some (0, 0), Some (4, 0));
       (Some (4, 0), Some (4, 4), Some (0, 4))]
  = [Some 16; Some 16].
Proof.
  repeat split; try reflexivity.
Qed.

(** C8. On the three collinear points [(0,0),(1,0),(2,0)], [triangulate]
    throws [TypeError] with either method, where the specification expects
    the collinearity error (or the size error): the call fails in
    [createDoublyLinkedList], before any triangle is formed. *)
Theorem triangulate_collinear3 :
  (forall fuel, triangulate collinear3 (naiveEarCutting fuel) = Throw TypeError) /\
  (forall fuel, triangulate collinear3 (optimizedEarCutting fuel) = Throw TypeError).
Proof.
  split; intros fuel; reflexivity.
Qed.

(** Behind the construction of the list, nothing tests the last three
    points for collinearity: with three vertices the clipping loop is
    skipped and the three points are emitted as the only triangle, of area
    zero.  So does the code of [naiveEarCutting] that follows the
    construction, on the circular list of the three points, and so do both
    methods of the class [PolygonTriangulation]. *)
Lemma collinear3_is_emitted :
  (forall fuel,
     naiveClipping (S fuel) (boundary_list collinear3) (boundary_heap collinear3)
     = Ret ([((0, 0), (1, 0), (2, 0))], boundary_heap collinear3)) /\
  PolygonTriangulation.naiveTriangulation (map slice collinear3)
  = Ret [(Some (0, 0), Some (1, 0), Some (2, 0))] /\
  PolygonTriangulation.improvedTriangulation (map slice collinear3)
  = Ret [(Some (0, 0), Some (1, 0), Some (2, 0))] /\
  area2 ((0, 0), (1, 0), (2, 0)) = 0.
Proof.
  repeat split; reflexivity.
Qed.

(** *** The array draft links the vertices in a circle *)

Lemma mapNew_spec (points : list Point) (h : heap) :
  Draft.mapNew points h
  = Ret (Some <$> seq (length h) (length points),
         h ++ ((fun p => mkVertex p None None false false) <$> points)).
Proof.
  revert h. induction points as [|p rest IH]; intros h.
  - cbn. rewrite app_nil_r. reflexivity.
  - cbn [Draft.mapNew]. unfold bind at 1, new_Vertex. unfold bind at 1.
    rewrite IH. unfold ret. rewrite length_app. cbn [length fmap list_fmap seq].
    rewrite Nat.add_1_r, <- app_assoc. reflexivity.
Qed.

Lemma at_index_seq (n : nat) (k : Z) :
  0 <= k < Z.of_nat n ->
  Draft.at_index (Some <$> seq 0 n) k = Some (Z.to_nat k).
Proof.
  intros Hk. unfold Draft.at_index.
  replace (k <? 0) with false by (symmetry; apply Z.ltb_ge; lia).
  rewrite list_lookup_fmap, lookup_seq_lt by lia. reflexivity.
Qed.

(** The links that the draft gives to [vertices[j]], out of [n] vertices. *)
Lemma linkFrom_spec (n : nat) :
  forall (m i : nat) (h : heap),
    length h = n -> (i + m = n)%nat ->
    exists h' : heap,
      Draft.linkFrom (Some <$> seq 0 n) (Z.of_nat i) m h = Ret (tt, h') /\
      length h' = n /\
      forall j : nat,
        h' !! j =
        if decide (i <= j)%nat
        then (fun v => with_prev (Some ((j + n - 1) mod n)%nat)
                         (with_next (Some ((j + 1) mod n)%nat) v)) <$> h !! j
        else h !! j.
Proof.
  induction m as [|m IH]; intros i h Hlen Him.
  - exists h. split; [reflexivity|]. split; [assumption|].
    intros j. case_decide; [|reflexivity].
    rewrite (lookup_ge_None_2 h j) by lia. reflexivity.
  - assert (Hi : (i < n)%nat) by lia.
    destruct (lookup_lt_is_Some_2 h i) as [v Hv]; [lia|].
    cbn [Draft.linkFrom]. rewrite length_fmap, length_seq.
    rewrite at_index_seq by lia.
    rewrite Z.rem_mod_nonneg by lia. rewrite at_index_seq by (apply Z.mod_pos_bound; lia).
    rewrite Z.rem_mod_nonneg by lia. rewrite at_index_seq by (apply Z.mod_pos_bound; lia).
    rewrite Nat2Z.id.
    replace (Z.to_nat ((Z.of_nat i + 1) mod Z.of_nat n)) with ((i + 1) mod n)%nat
      by (rewrite <- (Nat2Z.id ((i + 1) mod n)), Nat2Z.inj_mod; f_equal; f_equal; lia).
    replace (Z.to_nat ((Z.of_nat i - 1 + Z.of_nat n) mod Z.of_nat n))
      with ((i + n - 1) mod n)%nat
      by (rewrite <- (Nat2Z.id ((i + n - 1) mod n)), Nat2Z.inj_mod; f_equal; f_equal; lia).
    unfold bind at 1, set_next. rewrite (write_Some _ _ _ _ Hv).
    unfold bind at 1, set_prev.
    erewrite write_Some by (apply list_lookup_insert_eq; lia).
    rewrite list_insert_insert_eq.
    set (h1 := <[i := _]> h).
    destruct (IH (S i) h1) as (h' & Hrun & Hlen' & Hlook).
    { unfold h1. rewrite length_insert. assumption. }
    { lia. }
    exists h'. split; [|split; [assumption|]].
    + replace (Z.of_nat i + 1) with (Z.of_nat (S i)) by lia. exact Hrun.
    + intros j. rewrite Hlook. unfold h1.
      destruct (decide (j = i)) as [->|Hne].
      * rewrite decide_False by lia. rewrite decide_True by lia.
        rewrite list_lookup_insert_eq by lia. rewrite Hv. reflexivity.
      * rewrite list_lookup_insert_ne by congruence.
        repeat case_decide; try reflexivity; lia.
Qed.

(** The array draft of [createDoublyLinkedList] returns, for [k >= 3] points,
    one vertex per point in input order, [vertices[j]] being linked to
    [vertices[(j + 1) % k]] and [vertices[(j - 1 + k) % k]]. *)
Lemma Draft_createDoublyLinkedList_spec (points : list Point) :
  (3 <= length points)%nat ->
  exists h : heap,
    Draft.createDoublyLinkedList points []
    = Ret (Some <$> seq 0 (length points), h) /\
    length h = length points /\
    forall (j : nat) (p : Point),
      points !! j = Some p ->
      h !! j = Some (mkVertex p (Some ((j + 1) mod length points)%nat)
                              (Some ((j + length points - 1) mod length points)%nat)
                              false false).
Proof.
  intros Hlen. unfold Draft.createDoublyLinkedList.
  replace (Z.of_nat (length points) <? 3) with false by (symmetry; apply Z.ltb_ge; lia).
  unfold bind at 1. rewrite mapNew_spec. cbn [length app].
  set (h0 := (fun p => mkVertex p None None false false) <$> points).
  assert (Hlen0 : length h0 = length points) by apply length_fmap.
  rewrite length_fmap, length_seq.
  destruct (linkFrom_spec (length points) (length points) 0 h0 Hlen0 eq_refl)
    as (h' & Hrun & Hlen' & Hlook).
  unfold bind at 1. change (Z.of_nat 0) with 0 in Hrun. rewrite Hrun.
  exists h'. split; [reflexivity|]. split; [assumption|].
  intros j p Hj. rewrite Hlook, decide_True by lia.
  unfold h0. rewrite list_lookup_fmap, Hj. reflexivity.
Qed.

Lemma follow_circular (n : nat) (h : heap) :
  (forall j : nat, (j < n)%nat ->
     exists v, h !! j = Some v /\ v_next v = Some ((j + 1) mod n)%nat) ->
  forall (k j : nat), (j < n)%nat -> follow h k j = Some ((j + k) mod n)%nat.
Proof.
  intros Hnext. induction k as [|k IH]; intros j Hj.
  - cbn. rewrite Nat.add_0_r, Nat.mod_small by lia. reflexivity.
  - cbn [follow]. destruct (Hnext j Hj) as (v & -> & ->). cbn.
    rewrite IH by (apply Nat.mod_upper_bound; lia).
    f_equal. rewrite Nat.Div0.add_mod_idemp_l. f_equal. lia.
Qed.

(** X20. What C6 asks of the boundary list holds of the array draft: one
    node per point in input order, as many nodes as points, [next] followed as
    many times as there are nodes leads back to the start, and [prev] undoes
    [next]. *)
Lemma Draft_createDoublyLinkedList_circular (points : list Point) :
  (3 <= length points)%nat ->
  exists (l : CircularList) (h : heap),
    Draft.boundary points [] = Ret (l, h) /\
    head l = Some 0%nat /\
    size l = Z.of_nat (length points) /\
    length h = length points /\
    (forall (j : nat) (p : Point), points !! j = Some p ->
       exists v, h !! j = Some v /\ v_point v = p) /\
    (forall j : nat, (j < length points)%nat ->
       follow h (length points) j = Some j) /\
    (forall j : nat, (j < length points)%nat ->
       exists v w x, h !! j = Some v /\ v_next v = Some x /\
                     h !! x = Some w /\ v_prev w = Some j).
Proof.
  intros Hlen.
  destruct (Draft_createDoublyLinkedList_spec points Hlen) as (h & Hrun & Hlenh & Hlook).
  set (n := length points) in *.
  exists (mkCircularList (Some 0%nat) (Z.of_nat n)), h.
  assert (Hnode : forall j, (j < n)%nat ->
            exists p, h !! j = Some (mkVertex p (Some ((j + 1) mod n)%nat)
                                      (Some ((j + n - 1) mod n)%nat) false false)).
  { intros j Hj. destruct (lookup_lt_is_Some_2 points j Hj) as [p Hp].
    exists p. apply Hlook. exact Hp. }
  split; [|split; [reflexivity|split; [reflexivity|split; [assumption|split; [|split]]]]].
  - unfold Draft.boundary. unfold bind at 1. rewrite Hrun. unfold ret.
    rewrite length_fmap, length_seq. rewrite at_index_seq by lia. reflexivity.
  - intros j p Hp. eexists. split; [apply Hlook; exact Hp | reflexivity].
  - intros j Hj. rewrite (follow_circular n h); [| |assumption].
    + f_equal. rewrite <- Nat.Div0.add_mod_idemp_r, Nat.Div0.mod_same, Nat.add_0_r.
      apply Nat.mod_small. assumption.
    + intros i Hi. destruct (Hnode i Hi) as [p Hp]. eexists. split; [exact Hp|reflexivity].
  - intros j Hj. destruct (Hnode j Hj) as [p Hp].
    assert (Hx : ((j + 1) mod n < n)%nat) by (apply Nat.mod_upper_bound; lia).
    destruct (Hnode _ Hx) as [p' Hp'].
    eexists _, _, _. split; [exact Hp|]. split; [reflexivity|]. split; [exact Hp'|].
    cbn. f_equal.
    destruct (decide (j + 1 = n)%nat) as [E|E].
    + rewrite E, Nat.Div0.mod_same. cbn. rewrite Nat.mod_small by lia. lia.
    + rewrite (Nat.mod_small (j + 1)) by lia.
      replace (j + 1 + n - 1)%nat with (j + 1 * n)%nat by lia.
      rewrite Nat.Div0.mod_add. apply Nat.mod_small. assumption.
Qed.

(** *** The index-based class *)

(** X21. With fewer than three points both methods of the class return the
    empty list; they do not throw. *)
Lemma PT_short_input_returns_empty (points : list coords) :
  (length points < 3)%nat ->
  PolygonTriangulation.naiveTriangulation points = Ret [] /\
  PolygonTriangulation.improvedTriangulation points = Ret [].
Proof.
  intros Hlen.
  unfold PolygonTriangulation.naiveTriangulation, PolygonTriangulation.improvedTriangulation.
  replace (length points <? 3)%nat with true by (symmetry; apply Nat.ltb_lt; lia).
  split; reflexivity.
Qed.

Lemma PT_indexOf_bounds (vertices : list nat) (i : nat) :
  In i vertices ->
  0 <= PolygonTriangulation.indexOf vertices i < Z.of_nat (length vertices).
Proof.
  induction vertices as [|v rest IH]; intros Hin; [destruct Hin|].
  cbn [PolygonTriangulation.indexOf length].
  destruct (Nat.eqb_spec v i) as [E|E]; [lia|].
  destruct Hin as [Hin|Hin]; [contradiction|]. specialize (IH Hin).
  replace (PolygonTriangulation.indexOf rest i <? 0) with false
    by (symmetry; apply Z.ltb_ge; lia).
  lia.
Qed.

Lemma PT_at_index_Some {A} (a : list A) (k : Z) :
  0 <= k < Z.of_nat (length a) ->
  exists x, PolygonTriangulation.at_index a k = Some x /\ In x a.
Proof.
  intros Hk. unfold PolygonTriangulation.at_index.
  replace (k <? 0) with false by (symmetry; apply Z.ltb_ge; lia).
  destruct (lookup_lt_is_Some_2 a (Z.to_nat k)) as [x Hx]; [lia|].
  exists x. split; [assumption|]. apply list_elem_of_In. eapply list_elem_of_lookup_2. eassumption.
Qed.

Lemma PT_noneInside_returns (points : list coords) (i : nat) (prev next : option nat) (js : list nat) :
  is_Some (PolygonTriangulation.point_at points prev) ->
  is_Some (points !! i) ->
  is_Some (PolygonTriangulation.point_at points next) ->
  List.Forall (fun v => (v < length points)%nat) js ->
  exists b : bool, PolygonTriangulation.noneInside points i prev next js = Ret b.
Proof.
  intros [a Ha] [b Hb] [c Hc] Hjs.
  induction Hjs as [|j rest Hj _ IH]; [exists true; reflexivity|].
  cbn [PolygonTriangulation.noneInside].
  destruct (negb (j =? i)%nat && PolygonTriangulation.differs j prev
            && PolygonTriangulation.differs j next); [|exact IH].
  destruct (lookup_lt_is_Some_2 points j Hj) as [p Hp].
  rewrite Hp, Ha, Hb, Hc. cbn.
  destruct (negb _); [exists false; reflexivity | exact IH].
Qed.

(** On valid indices the ear test of the class returns a boolean. *)
Lemma PT_isEar_returns (points : list coords) (remainingVertices : list nat) (i : nat) :
  List.Forall (fun v => (v < length points)%nat) remainingVertices ->
  In i remainingVertices ->
  exists b : bool, PolygonTriangulation.isEar points i (Some remainingVertices) = Ret b.
Proof.
  intros Hall Hin. unfold PolygonTriangulation.isEar. cbv zeta.
  pose proof (PT_indexOf_bounds _ _ Hin) as Hidx.
  set (len := Z.of_nat (length remainingVertices)) in *.
  set (idx := PolygonTriangulation.indexOf remainingVertices i) in *.
  assert (Hvalid : forall x, In x remainingVertices -> is_Some (points !! x)).
  { intros x Hx. apply lookup_lt_is_Some_2. rewrite List.Forall_forall in Hall. auto. }
  destruct (PT_at_index_Some remainingVertices (Z.rem (idx - 1 + len) len))
    as (pv & Hpv & Hpvin).
  { rewrite Z.rem_mod_nonneg by lia. apply Z.mod_pos_bound. lia. }
  destruct (PT_at_index_Some remainingVertices (Z.rem (idx + 1) len))
    as (nx & Hnx & Hnxin).
  { rewrite Z.rem_mod_nonneg by lia. apply Z.mod_pos_bound. lia. }
  rewrite Hpv, Hnx.
  destruct (Hvalid _ Hpvin) as [a Ha], (Hvalid _ Hin) as [b Hb], (Hvalid _ Hnxin) as [c Hc].
  cbn [PolygonTriangulation.point_at mbind option_bind]. rewrite Ha, Hb, Hc.
  destruct a as [x1 y1], b as [x2 y2], c as [x3 y3].
  cbn [PolygonTriangulation.isTriangleOrientedCCW obind].
  destruct (negb _); [exists false; reflexivity|].
  apply PT_noneInside_returns; cbn; rewrite ?Ha, ?Hb, ?Hc; eauto.
Qed.

(** A scan of [naiveTriangulation] ends without ear or removes exactly one
    of the indices it visited. *)
Lemma PT_naiveScan_returns (points : list coords) (remainingVertices : list nat) :
  List.Forall (fun v => (v < length points)%nat) remainingVertices ->
  forall (todo : list nat) (i : nat),
    (forall v, In v todo -> In v remainingVertices) ->
    PolygonTriangulation.naiveScan points remainingVertices i todo
    = Ret PolygonTriangulation.NoEar \/
    exists (j : nat) (t : PolygonTriangulation.PTriangle),
      PolygonTriangulation.naiveScan points remainingVertices i todo
      = Ret (PolygonTriangulation.Clipped (base.delete j remainingVertices) t) /\
      (i <= j < i + length todo)%nat.
Proof.
  intros Hall. induction todo as [|vertex todo IH]; intros i Hsub; [now left|].
  cbn [PolygonTriangulation.naiveScan].
  destruct (PT_isEar_returns points remainingVertices vertex Hall) as [[|] ->];
    [apply Hsub; now left| |]; cbn [obind].
  - right. eexists i, _. split; [reflexivity|]. cbn [length]. lia.
  - destruct (IH (S i)) as [E|(j & t & E & Hj)].
    + intros v Hv. apply Hsub. now right.
    + now left.
    + right. exists j, t. split; [exact E|]. cbn [length]. lia.
Qed.

Lemma PT_naiveLoop_returns (points : list coords) :
  forall (fuel : nat) (remainingVertices : list nat) (triangles : list PolygonTriangulation.PTriangle),
    List.Forall (fun v => (v < length points)%nat) remainingVertices ->
    (0 < fuel)%nat -> (length remainingVertices < fuel + 3)%nat ->
    PolygonTriangulation.naiveLoop fuel points remainingVertices triangles
    = Throw NoEarFoundError \/
    exists remainingVertices' triangles',
      PolygonTriangulation.naiveLoop fuel points remainingVertices triangles
      = Ret (remainingVertices', triangles') /\
      (length remainingVertices' + length triangles'
       = length remainingVertices + length triangles)%nat /\
      ((3 <= length remainingVertices)%nat -> length remainingVertices' = 3%nat).
Proof.
  induction fuel as [|fuel IH]; intros rem tris Hall Hpos Hfuel; [lia|].
  cbn [PolygonTriangulation.naiveLoop].
  destruct (Nat.ltb_spec 3 (length rem)) as [Hlen|Hlen].
  - destruct (PT_naiveScan_returns points rem Hall rem 0 (fun v H => H))
      as [->|(j & t & -> & Hj)]; cbn [obind]; [now left|].
    assert (Hdel : length (base.delete j rem) = (length rem - 1)%nat).
    { apply length_delete. apply lookup_lt_is_Some_2. lia. }
    destruct (IH (base.delete j rem) (tris ++ [t])) as [E|(rem' & tris' & E & Hcount & Hthree)].
    + apply Forall_delete. exact Hall.
    + lia.
    + lia.
    + now left.
    + right. exists rem', tris'. split; [exact E|].
      rewrite Hdel, length_app in Hcount. cbn [length] in Hcount.
      split; [lia|]. intros _. apply Hthree. lia.
  - right. exists rem, tris. split; [reflexivity|]. split; [reflexivity|]. lia.
Qed.

(** X22. The naive method of the class does what the specification asks of
    a naive driver: it always terminates, and it either reports that a full
    pass found no ear, or returns [n - 2] triangles for [n >= 3] points. *)
Lemma PT_naiveTriangulation_total (points : list coords) :
  PolygonTriangulation.naiveTriangulation points = Throw NoEarFoundError \/
  exists triangles,
    PolygonTriangulation.naiveTriangulation points = Ret triangles /\
    ((3 <= length points)%nat -> length triangles = (length points - 2)%nat).
Proof.
  unfold PolygonTriangulation.naiveTriangulation. cbv zeta.
  destruct (Nat.ltb_spec (length points) 3) as [Hlen|Hlen].
  - right. exists []. split; [reflexivity|lia].
  - destruct (PT_naiveLoop_returns points (length points) (seq 0 (length points)) [])
      as [->|(rem' & tris' & -> & Hcount & Hthree)].
    + apply List.Forall_forall. intros x Hx. apply in_seq in Hx. lia.
    + lia.
    + rewrite length_seq. lia.
    + now left.
    + right. cbn [obind]. eexists. split; [reflexivity|]. intros _.
      rewrite length_seq in Hcount, Hthree. rewrite length_app. cbn [length] in *.
      specialize (Hthree Hlen). lia.
Qed.

(** The two classes of [improvedTriangulation] are read off one flag per
    index: a remaining vertex is in exactly one of them, a removed vertex in
    neither. *)
Lemma PT_classes_partition (isConvex : list bool) (remainingVertices : list nat) (v : nat) :
  (In v remainingVertices <->
   In v (PolygonTriangulation.convexSet isConvex remainingVertices) \/
   In v (PolygonTriangulation.reflexSet isConvex remainingVertices)) /\
  ~ (In v (PolygonTriangulation.convexSet isConvex remainingVertices) /\
     In v (PolygonTriangulation.reflexSet isConvex remainingVertices)).
Proof.
  unfold PolygonTriangulation.convexSet, PolygonTriangulation.reflexSet.
  rewrite !filter_In. destruct (default false (isConvex !! v)); cbn; intuition congruence.
Qed.

(** ** Further properties of the sources *)

(** *** Orientation *)

Ltac solve_safe := unfold safe, safe_coords, small; cbn; lia.

Lemma orientation_rotate (p1 p2 p3 : Point) :
  orientation p2 p3 p1 = orientation p1 p2 p3.
Proof. unfold orientation. f_equal. ring. Qed.

Lemma orientation_reverse (p1 p2 p3 : Point) :
  orientation p3 p2 p1 = - orientation p1 p2 p3.
Proof. unfold orientation. rewrite <- Z.sgn_opp. f_equal. ring. Qed.

(** Exchanging the last two points also reverses the turn. *)
Lemma orientation_swap_23 (p1 p2 p3 : Point) :
  orientation p1 p3 p2 = - orientation p1 p2 p3.
Proof. unfold orientation. rewrite <- Z.sgn_opp. f_equal. ring. Qed.

Lemma orientation_swap_12 (p1 p2 p3 : Point) :
  orientation p2 p1 p3 = - orientation p1 p2 p3.
Proof. unfold orientation. rewrite <- Z.sgn_opp. f_equal. ring. Qed.

(** X1. On points in the range of exact arithmetic [getOrientation] depends
    on the cyclic order of its three points only, and changes sign when the
    order is reversed; so a corner that [isConvex] accepts is refused when
    the boundary is walked the other way round. *)
Theorem getOrientation_cyclic_reverse (p1 p2 p3 : Point) :
  safe p1 -> safe p2 -> safe p3 ->
  getOrientation p2 p3 p1 = getOrientation p1 p2 p3 /\
  getOrientation p3 p2 p1 = - getOrientation p1 p2 p3 /\
  (isConvex p1 p2 p3 = true -> isConvex p3 p2 p1 = false).
Proof.
  intros S1 S2 S3. unfold isConvex.
  rewrite (getOrientation_exact p2 p3 p1), (getOrientation_exact p1 p2 p3),
    (getOrientation_exact p3 p2 p1) by assumption.
  split; [apply orientation_rotate|]. split; [apply orientation_reverse|].
  rewrite (orientation_reverse p1 p2 p3).
  intros H. apply Z.eqb_eq in H. rewrite H. reflexivity.
Qed.

Lemma getOrientation_cyclic_reverse_witness :
  isConvex (mkPoint 1 0 4) (mkPoint 0 0 0) (mkPoint 3 4 0) = false.
Proof.
  apply (getOrientation_cyclic_reverse (mkPoint 3 4 0) (mkPoint 0 0 0) (mkPoint 1 0 4));
    [solve_safe | solve_safe | solve_safe | reflexivity].
Defined.

Lemma getOrientation_translate (dx dy : Z) (p1 p2 p3 : Point) :
  getOrientation (translate dx dy p1) (translate dx dy p2) (translate dx dy p3)
  = getOrientation p1 p2 p3.
Proof.
  unfold getOrientation. cbn [translate px py nsub].
  replace (px p1 + dx - (px p2 + dx)) with (px p1 - px p2) by ring.
  replace (py p1 + dy - (py p2 + dy)) with (py p1 - py p2) by ring.
  replace (px p3 + dx - (px p2 + dx)) with (px p3 - px p2) by ring.
  replace (py p3 + dy - (py p2 + dy)) with (py p3 - py p2) by ring.
  reflexivity.
Qed.

Lemma same_object_translate (dx dy : Z) (p q : Point) :
  same_object (translate dx dy p) (translate dx dy q) = same_object p q.
Proof. reflexivity. Qed.

(** X2. The geometric predicates see differences of coordinates only: moving
    all the points by the same vector changes neither [getOrientation], nor
    [isConvex], nor the answer (or the error) of [isWithinTriangle], nor
    [doIntersect]. *)
Theorem predicates_translation_invariant (dx dy : Z) (p a b c : Point) :
  getOrientation (translate dx dy a) (translate dx dy b) (translate dx dy c)
  = getOrientation a b c /\
  isConvex (translate dx dy a) (translate dx dy b) (translate dx dy c)
  = isConvex a b c /\
  isWithinTriangle (translate dx dy p) (translate dx dy a) (translate dx dy b)
                   (translate dx dy c)
  = isWithinTriangle p a b c /\
  doIntersect (translate dx dy p) (translate dx dy a) (translate dx dy b)
              (translate dx dy c)
  = doIntersect p a b c.
Proof.
  split; [apply getOrientation_translate|].
  split; [unfold isConvex; rewrite getOrientation_translate; reflexivity|].
  split.
  - rewrite !isWithinTriangle_unfold, !getOrientation_translate,
      !same_object_translate. reflexivity.
  - unfold doIntersect. rewrite !getOrientation_translate. reflexivity.
Qed.

(** *** Point in triangle *)

Lemma verdict_rotate (o1 o2 o3 : Z) :
  (o1 = 1 \/ o1 = -1 \/ o1 = 0) ->
  (o2 = 1 \/ o2 = -1 \/ o2 = 0) ->
  (o3 = 1 \/ o3 = -1 \/ o3 = 0) ->
  verdict o2 o3 o1 = verdict o1 o2 o3.
Proof. intros [-> | [-> | ->]] [-> | [-> | ->]] [-> | [-> | ->]]; reflexivity. Qed.

Lemma verdict_mirror (o1 o2 o3 : Z) :
  (o1 = 1 \/ o1 = -1 \/ o1 = 0) ->
  (o2 = 1 \/ o2 = -1 \/ o2 = 0) ->
  (o3 = 1 \/ o3 = -1 \/ o3 = 0) ->
  verdict (- o3) (- o2) (- o1) = verdict o1 o2 o3.
Proof. intros [-> | [-> | ->]] [-> | [-> | ->]] [-> | [-> | ->]]; reflexivity. Qed.

(** On safe points [isWithinTriangle] is its reading in exact arithmetic. *)
Lemma isWithinTriangle_exact (point a b c : Point) :
  safe point -> safe a -> safe b -> safe c ->
  isWithinTriangle point a b c =
  if orientation a b c =? 0 then Throw DegenerateGeometryError
  else if same_object point a || same_object point b || same_object point c
  then Ret true
  else Ret (verdict (orientation point a b) (orientation point b c)
                    (orientation point c a)).
Proof.
  intros Sp Sa Sb Sc. rewrite isWithinTriangle_unfold.
  rewrite (getOrientation_exact a b c), (getOrientation_exact point a b),
    (getOrientation_exact point b c), (getOrientation_exact point c a) by assumption.
  reflexivity.
Qed.

(** X3. On points in the range of exact arithmetic
    [isWithinTriangle(point, a, b, c)] does not depend on the order in which
    the three corners are given: rotating them or exchanging two of them
    gives the same answer, and the same error for a collinear triple. *)
Theorem isWithinTriangle_corner_order (point a b c : Point) :
  safe point -> safe a -> safe b -> safe c ->
  isWithinTriangle point b c a = isWithinTriangle point a b c /\
  isWithinTriangle point a c b = isWithinTriangle point a b c.
Proof.
  intros Sp Sa Sb Sc.
  rewrite (isWithinTriangle_exact point b c a), (isWithinTriangle_exact point a c b),
    (isWithinTriangle_exact point a b c) by assumption.
  split.
  - rewrite (orientation_rotate a b c).
    replace (same_object point b || same_object point c || same_object point a)
      with (same_object point a || same_object point b || same_object point c)
      by (destruct (same_object point a), (same_object point b),
            (same_object point c); reflexivity).
    rewrite (verdict_rotate (orientation point a b)) by apply orientation_cases.
    reflexivity.
  - replace (orientation a c b =? 0) with (orientation a b c =? 0)
      by (rewrite (orientation_swap_23 a b c);
          destruct (orientation_cases a b c) as [-> | [-> | ->]]; reflexivity).
    replace (same_object point a || same_object point c || same_object point b)
      with (same_object point a || same_object point b || same_object point c)
      by (destruct (same_object point a), (same_object point b),
            (same_object point c); reflexivity).
    rewrite (orientation_swap_23 point c a), (orientation_swap_23 point b c),
      (orientation_swap_23 point a b).
    rewrite (verdict_mirror (orientation point a b)) by apply orientation_cases.
    reflexivity.
Qed.

Lemma isWithinTriangle_corner_order_witness :
  isWithinTriangle (mkPoint 3 1 2) (mkPoint 1 0 4) (mkPoint 2 4 4) (mkPoint 0 0 0)
  = isWithinTriangle (mkPoint 3 1 2) (mkPoint 0 0 0) (mkPoint 1 0 4) (mkPoint 2 4 4) /\
  isWithinTriangle (mkPoint 3 1 2) (mkPoint 0 0 0) (mkPoint 2 4 4) (mkPoint 1 0 4)
  = isWithinTriangle (mkPoint 3 1 2) (mkPoint 0 0 0) (mkPoint 1 0 4) (mkPoint 2 4 4).
Proof.
  apply (isWithinTriangle_corner_order (mkPoint 3 1 2) (mkPoint 0 0 0) (mkPoint 1 0 4)
           (mkPoint 2 4 4)); solve_safe.
Defined.

(** *** The two implementations side by side *)

(** On safe coordinates [isTriangleOrientedCCW] tests the sign of the
    doubled area. *)
Lemma PT_ccw_exact (a b c : coords) :
  safe_coords a -> safe_coords b -> safe_coords c ->
  PolygonTriangulation.isTriangleOrientedCCW (Some a) (Some b) (Some c)
  = Ret (0 <? triArea2 a b c).
Proof.
  destruct a as [x1 y1], b as [x2 y2], c as [x3 y3].
  intros [H1x H1y] [H2x H2y] [H3x H3y]. cbn [fst snd] in *.
  unfold PolygonTriangulation.isTriangleOrientedCCW, triArea2. cbn [fst snd].
  destruct (nsub_small _ _ H2x H1x) as [-> ?].
  destruct (nsub_small _ _ H3y H1y) as [-> ?].
  destruct (nsub_small _ _ H2y H1y) as [-> ?].
  destruct (nsub_small _ _ H3x H1x) as [-> ?].
  rewrite cross_exact by assumption. rewrite ngtb_Fin. reflexivity.
Qed.

(** On safe coordinates [sign] is exact. *)
Lemma PT_sign_exact (p1 p2 p3 : coords) :
  safe_coords p1 -> safe_coords p2 -> safe_coords p3 ->
  PolygonTriangulation.sign p1 p2 p3 = Fin (exactSign p1 p2 p3).
Proof.
  intros [H1x H1y] [H2x H2y] [H3x H3y].
  unfold PolygonTriangulation.sign, exactSign.
  destruct (nsub_small _ _ H1x H3x) as [-> ?].
  destruct (nsub_small _ _ H2y H3y) as [-> ?].
  destruct (nsub_small _ _ H2x H3x) as [-> ?].
  destruct (nsub_small _ _ H1y H3y) as [-> ?].
  apply cross_exact; assumption.
Qed.

Lemma safe_slice (p : Point) : safe p -> safe_coords (slice p).
Proof. intros H. exact H. Qed.

(** X4. On points in the range of exact arithmetic the class and the
    linked-list implementation use opposite conventions for a convex
    corner: [isTriangleOrientedCCW(a, b, c)] holds exactly when
    [getOrientation(a, b, c)] is CW ([-1]), so no corner is convex for both
    [isTriangleOrientedCCW] and [isConvex]. *)
Theorem orientation_conventions_opposite (a b c : Point) :
  safe a -> safe b -> safe c ->
  PolygonTriangulation.isTriangleOrientedCCW
    (Some (slice a)) (Some (slice b)) (Some (slice c))
  = Ret (getOrientation a b c =? CW) /\
  ~ (isConvex a b c = true /\
     PolygonTriangulation.isTriangleOrientedCCW
       (Some (slice a)) (Some (slice b)) (Some (slice c)) = Ret true).
Proof.
  intros Sa Sb Sc.
  assert (E : PolygonTriangulation.isTriangleOrientedCCW
                (Some (slice a)) (Some (slice b)) (Some (slice c))
              = Ret (getOrientation a b c =? CW)).
  { rewrite PT_ccw_exact by (apply safe_slice; assumption).
    rewrite getOrientation_exact by assumption.
    unfold triArea2, slice, orientation, CW. cbn [fst snd]. f_equal.
    set (r := (px a - px b) * (py c - py b) - (py a - py b) * (px c - px b)).
    replace ((px b - px a) * (py c - py a) - (py b - py a) * (px c - px a))
      with (- r) by (unfold r; ring).
    destruct r; reflexivity. }
  split; [exact E|].
  rewrite E. unfold isConvex, CW. intros [H1 H2].
  apply Z.eqb_eq in H1. rewrite H1 in H2. discriminate.
Qed.

Lemma orientation_conventions_opposite_witness :
  PolygonTriangulation.isTriangleOrientedCCW (Some (0, 0)) (Some (0, 4)) (Some (4, 4))
  = Ret (getOrientation (mkPoint 0 0 0) (mkPoint 1 0 4) (mkPoint 2 4 4) =? CW).
Proof.
  apply (orientation_conventions_opposite (mkPoint 0 0 0) (mkPoint 1 0 4) (mkPoint 2 4 4));
    solve_safe.
Defined.

(** The test of [pointInTriangle] on three signs. *)
Lemma mixed_signs_verdict (o1 o2 o3 : Z) :
  (o1 = 1 \/ o1 = -1 \/ o1 = 0) ->
  (o2 = 1 \/ o2 = -1 \/ o2 = 0) ->
  (o3 = 1 \/ o3 = -1 \/ o3 = 0) ->
  negb (((- o1 =? -1) || (- o2 =? -1) || (- o3 =? -1))
        && ((- o1 =? 1) || (- o2 =? 1) || (- o3 =? 1)))
  = verdict o1 o2 o3.
Proof. intros [-> | [-> | ->]] [-> | [-> | ->]] [-> | [-> | ->]]; reflexivity. Qed.

Lemma exactSign_opp_orientation (p a b : Point) :
  Z.sgn (exactSign (slice p) (slice a) (slice b)) = - orientation p a b.
Proof.
  unfold orientation. rewrite <- Z.sgn_opp.
  unfold exactSign, slice. cbn [fst snd]. f_equal. ring.
Qed.

(** On safe coordinates [pointInTriangle] tests the exact signs. *)
Lemma pointInTriangle_exact (p a b c : coords) :
  safe_coords p -> safe_coords a -> safe_coords b -> safe_coords c ->
  PolygonTriangulation.pointInTriangle (Some p) (Some a) (Some b) (Some c)
  = Ret (negb (((exactSign p a b <? 0) || (exactSign p b c <? 0) || (exactSign p c a <? 0))
               && ((0 <? exactSign p a b) || (0 <? exactSign p b c)
                   || (0 <? exactSign p c a)))).
Proof.
  intros Sp Sa Sb Sc. unfold PolygonTriangulation.pointInTriangle. cbv zeta.
  rewrite (PT_sign_exact p a b), (PT_sign_exact p b c), (PT_sign_exact p c a)
    by assumption.
  rewrite !ngtb_Fin, !nltb_Fin. reflexivity.
Qed.

(** On the same safe coordinates, [pointInTriangle] of the class computes
    the verdict of [isWithinTriangle]. *)
Lemma pointInTriangle_verdict (point a b c : Point) :
  safe point -> safe a -> safe b -> safe c ->
  PolygonTriangulation.pointInTriangle
    (Some (slice point)) (Some (slice a)) (Some (slice b)) (Some (slice c))
  = Ret (verdict (orientation point a b) (orientation point b c)
                 (orientation point c a)).
Proof.
  intros Sp Sa Sb Sc.
  rewrite pointInTriangle_exact by (apply safe_slice; assumption). f_equal.
  rewrite <- mixed_signs_verdict by apply orientation_cases.
  rewrite !ltb_0_sgn, !gtb_0_sgn. rewrite !exactSign_opp_orientation. reflexivity.
Qed.

(** X5. For a proper triangle and points in the range of exact arithmetic,
    [pointInTriangle] of the class and [isWithinTriangle] of the linked-list
    implementation give the same answer on the same coordinates, provided a
    point that is the same array as a corner has that corner's
    coordinates. *)
Theorem point_in_triangle_tests_agree (point a b c : Point) :
  safe point -> safe a -> safe b -> safe c ->
  getOrientation a b c <> COLLINEAR ->
  (forall v, In v [a; b; c] -> same_object point v = true -> slice point = slice v) ->
  PolygonTriangulation.pointInTriangle
    (Some (slice point)) (Some (slice a)) (Some (slice b)) (Some (slice c))
  = isWithinTriangle point a b c.
Proof.
  unfold COLLINEAR. intros Sp Sa Sb Sc D Hobj.
  rewrite pointInTriangle_verdict, isWithinTriangle_exact by assumption.
  rewrite (getOrientation_exact a b c) in D by assumption.
  destruct (Z.eqb_spec (orientation a b c) 0) as [E|_]; [contradiction|].
  destruct (same_object point a) eqn:Ha; cbn [orb].
  { assert (Hs : slice point = slice a) by (apply Hobj; [cbn; tauto | assumption]).
    injection Hs as Hx Hy.
    rewrite (orientation_same_12 point a b Hx Hy),
      (orientation_same_13 point c a Hx Hy), verdict_two_zero_l. reflexivity. }
  destruct (same_object point b) eqn:Hb; cbn [orb].
  { assert (Hs : slice point = slice b) by (apply Hobj; [cbn; tauto | assumption]).
    injection Hs as Hx Hy.
    rewrite (orientation_same_13 point a b Hx Hy),
      (orientation_same_12 point b c Hx Hy), verdict_two_zero_m. reflexivity. }
  destruct (same_object point c) eqn:Hc; cbn [orb]; [|reflexivity].
  assert (Hs : slice point = slice c) by (apply Hobj; [cbn; tauto | assumption]).
  injection Hs as Hx Hy.
  rewrite (orientation_same_13 point b c Hx Hy),
    (orientation_same_12 point c a Hx Hy), verdict_two_zero_r. reflexivity.
Qed.

Lemma point_in_triangle_tests_agree_witness :
  PolygonTriangulation.pointInTriangle (Some (1, 2)) (Some (0, 0)) (Some (0, 4)) (Some (4, 4))
  = isWithinTriangle (mkPoint 3 1 2) (mkPoint 0 0 0) (mkPoint 1 0 4) (mkPoint 2 4 4).
Proof.
  apply (point_in_triangle_tests_agree (mkPoint 3 1 2) (mkPoint 0 0 0) (mkPoint 1 0 4)
           (mkPoint 2 4 4)); try solve_safe.
  - vm_compute. discriminate.
  - intros v [<-|[<-|[<-|[]]]]; cbn; discriminate.
Defined.

(** The three doubled areas seen from [p] add up to the doubled area of the
    triangle. *)
Lemma exactSign_sum (p a b c : coords) :
  exactSign p a b + exactSign p b c + exactSign p c a = exactSign a b c.
Proof. unfold exactSign. ring. Qed.

(** [pointInTriangle] never throws on defined points. *)
Lemma pointInTriangle_returns (p a b c : coords) :
  exists r : bool,
    PolygonTriangulation.pointInTriangle (Some p) (Some a) (Some b) (Some c) = Ret r.
Proof. eexists. reflexivity. Qed.

(** X6. For a proper triangle with coordinates in the range of exact
    arithmetic, [pointInTriangle(p, a, b, c)] of the class is the test of
    the closed triangle, whatever its orientation: it is true exactly when
    each of the three doubled areas [sign(p, a, b)], [sign(p, b, c)],
    [sign(p, c, a)] is zero or has the sign of the doubled area
    [sign(a, b, c)] of the triangle.  It never throws on defined points,
    and when the three corners coincide it accepts every point. *)
Theorem pointInTriangle_closed_triangle (p a b c : coords) :
  safe_coords p -> safe_coords a -> safe_coords b -> safe_coords c ->
  (exactSign a b c <> 0 ->
   (PolygonTriangulation.pointInTriangle (Some p) (Some a) (Some b) (Some c) = Ret true <->
    0 <= exactSign a b c * exactSign p a b /\
    0 <= exactSign a b c * exactSign p b c /\
    0 <= exactSign a b c * exactSign p c a)) /\
  (exists r : bool,
     PolygonTriangulation.pointInTriangle (Some p) (Some a) (Some b) (Some c) = Ret r) /\
  PolygonTriangulation.pointInTriangle (Some p) (Some a) (Some a) (Some a) = Ret true.
Proof.
  intros Sp Sa Sb Sc. split; [|split].
  - intros D. pose proof (exactSign_sum p a b c) as Hsum.
    rewrite pointInTriangle_exact by assumption.
    set (d1 := exactSign p a b) in *.
    set (d2 := exactSign p b c) in *.
    set (d3 := exactSign p c a) in *.
    set (d := exactSign a b c) in *.
    destruct (Z.ltb_spec d1 0), (Z.ltb_spec d2 0), (Z.ltb_spec d3 0),
      (Z.ltb_spec 0 d1), (Z.ltb_spec 0 d2), (Z.ltb_spec 0 d3);
      cbn; (split; [intros E; try discriminate E; nia | intros E; try reflexivity; exfalso; nia]).
  - apply pointInTriangle_returns.
  - rewrite pointInTriangle_exact by assumption. f_equal.
    replace (exactSign p a a) with 0 by (unfold exactSign; ring).
    reflexivity.
Qed.

Lemma pointInTriangle_closed_triangle_witness :
  PolygonTriangulation.pointInTriangle (Some (1, 2)) (Some (0, 0)) (Some (0, 4)) (Some (4, 4))
  = Ret true.
Proof.
  apply (proj1 (pointInTriangle_closed_triangle (1, 2) (0, 0) (0, 4) (4, 4)
                  ltac:(solve_safe) ltac:(solve_safe) ltac:(solve_safe) ltac:(solve_safe))).
  - vm_compute. discriminate.
  - vm_compute. repeat split; discriminate.
Defined.

(** *** Outside the range of exact arithmetic

    The hypotheses on the coordinates cannot be dropped: with products above
    [2 ^ 53] the rounding shows. *)

(** [getOrientation] is not invariant under a cyclic shift. *)
Lemma getOrientation_rounded :
  getOrientation (mkPoint 0 134217729 134217728) (mkPoint 1 0 0)
                 (mkPoint 2 134217730 134217729) = 0 /\
  getOrientation (mkPoint 1 0 0) (mkPoint 2 134217730 134217729)
                 (mkPoint 0 134217729 134217728) = 1.
Proof. split; vm_compute; reflexivity. Qed.

(** [isTriangleOrientedCCW] accepts a triangle of negative area, and a
    triple that [getOrientation] finds collinear. *)
Lemma isTriangleOrientedCCW_rounded :
  PolygonTriangulation.isTriangleOrientedCCW
    (Some (-36028797018964264, -18014398509482060)) (Some (-9007199254741058, 4))
    (Some (-9007199254741070, -4)) = Ret true /\
  triArea2 (-36028797018964264, -18014398509482060) (-9007199254741058, 4)
           (-9007199254741070, -4) = -880 /\
  PolygonTriangulation.isTriangleOrientedCCW
    (Some (134217730, 134217729)) (Some (0, 0)) (Some (134217729, 134217728)) = Ret true /\
  getOrientation (mkPoint 0 134217730 134217729) (mkPoint 1 0 0)
                 (mkPoint 2 134217729 134217728) = 0.
Proof. repeat split; vm_compute; reflexivity. Qed.

(** [pointInTriangle] and [isWithinTriangle] disagree. *)
Lemma pointInTriangle_rounded :
  PolygonTriangulation.pointInTriangle
    (Some (-1, -1)) (Some (134217730, 134217729)) (Some (0, 134217730))
    (Some (-134217729, -134217728)) = Ret false /\
  isWithinTriangle (mkPoint 3 (-1) (-1)) (mkPoint 0 134217730 134217729)
    (mkPoint 1 0 134217730) (mkPoint 2 (-134217729) (-134217728)) = Ret true.
Proof. split; vm_compute; reflexivity. Qed.

(** [doIntersect] depends on the direction of the first segment. *)
Lemma doIntersect_rounded :
  doIntersect (mkPoint 0 0 (-1)) (mkPoint 1 134217728 134217728)
              (mkPoint 2 134217727 134217727) (mkPoint 3 2 134217728) = false /\
  doIntersect (mkPoint 1 134217728 134217728) (mkPoint 0 0 (-1))
              (mkPoint 2 134217727 134217727) (mkPoint 3 2 134217728) = true.
Proof. split; vm_compute; reflexivity. Qed.

(** *** The simple-polygon check *)

Lemma eqb_opp (x y : Z) : (- x =? - y) = (x =? y).
Proof.
  destruct (Z.eqb_spec x y) as [->|H]; [apply Z.eqb_refl|].
  apply Z.eqb_neq. lia.
Qed.

(** X7. [doIntersect] treats its two segments alike: exchanging the
    segments leaves the answer unchanged.  On points in the range of exact
    arithmetic it does not depend on the direction of a segment either:
    exchanging the two endpoints of the first one leaves the answer
    unchanged. *)
Theorem doIntersect_symmetric (p1 q1 p2 q2 : Point) :
  doIntersect p2 q2 p1 q1 = doIntersect p1 q1 p2 q2 /\
  (safe p1 -> safe q1 -> safe p2 -> safe q2 ->
   doIntersect q1 p1 p2 q2 = doIntersect p1 q1 p2 q2).
Proof.
  unfold doIntersect. cbv zeta. split.
  - apply andb_comm.
  - intros S1 S2 S3 S4.
    rewrite (getOrientation_exact q1 p1 p2), (getOrientation_exact q1 p1 q2),
      (getOrientation_exact p1 q1 p2), (getOrientation_exact p1 q1 q2),
      (getOrientation_exact p2 q2 q1), (getOrientation_exact p2 q2 p1) by assumption.
    rewrite (orientation_swap_12 p1 q1 p2), (orientation_swap_12 p1 q1 q2), eqb_opp.
    f_equal. f_equal. apply Z.eqb_sym.
Qed.

Lemma doIntersect_symmetric_witness :
  doIntersect (mkPoint 1 4 4) (mkPoint 0 0 0) (mkPoint 2 0 4) (mkPoint 3 4 0)
  = doIntersect (mkPoint 0 0 0) (mkPoint 1 4 4) (mkPoint 2 0 4) (mkPoint 3 4 0).
Proof.
  apply (proj2 (doIntersect_symmetric (mkPoint 0 0 0) (mkPoint 1 4 4) (mkPoint 2 0 4)
                  (mkPoint 3 4 0))); solve_safe.
Defined.

Lemma edgesIntersect_returns (polygon : list Point) (i j : nat) :
  (i < length polygon)%nat -> (j < length polygon)%nat ->
  exists p1 q1 p2 q2,
    In p1 polygon /\ In q1 polygon /\ In p2 polygon /\ In q2 polygon /\
    edgesIntersect polygon i j = Ret (doIntersect p1 q1 p2 q2).
Proof.
  intros Hi Hj. unfold edgesIntersect. cbv zeta.
  assert (Hin : forall k, (k < length polygon)%nat ->
            exists x, polygon !! k = Some x /\ In x polygon).
  { intros k Hk. destruct (lookup_lt_is_Some_2 polygon k Hk) as [x Hx].
    exists x. split; [assumption|]. apply list_elem_of_In.
    eapply list_elem_of_lookup_2. eassumption. }
  destruct (Hin i Hi) as (p1 & -> & ?).
  destruct (Hin ((i + 1) mod length polygon)%nat) as (q1 & -> & ?);
    [apply Nat.mod_upper_bound; lia|].
  destruct (Hin j Hj) as (p2 & -> & ?).
  destruct (Hin ((j + 1) mod length polygon)%nat) as (q2 & -> & ?);
    [apply Nat.mod_upper_bound; lia|].
  exists p1, q1, p2, q2. tauto.
Qed.

Lemma simpleInner_spec (polygon : list Point) (i : nat) :
  (i < length polygon)%nat ->
  forall (k j : nat),
    k = (length polygon - j)%nat ->
    exists b : bool,
      simpleInner polygon i j k = Ret b /\
      (b = true <->
       forall j', (j <= j')%nat -> (j' < length polygon)%nat ->
                  ~ (i = 0%nat /\ j' = (length polygon - 1)%nat) ->
                  edgesIntersect polygon i j' = Ret false).
Proof.
  intros Hi. induction k as [|k IH]; intros j Hk.
  - exists true. split; [reflexivity|]. split; [|reflexivity].
    intros _ j' H1 H2. lia.
  - assert (Hj : (j < length polygon)%nat) by lia.
    destruct (IH (S j)) as (b & Hb & Hiff); [lia|].
    cbn [simpleInner].
    destruct (Nat.eqb_spec i 0) as [Ei|Ei];
      [destruct (Nat.eqb_spec j (length polygon - 1)) as [Ej|Ej]|]; cbn [andb].
    + exists b. split; [exact Hb|]. rewrite Hiff. split; intros H j' H1 H2 H3.
      * apply H; [|assumption..]. destruct (Nat.eq_dec j j') as [<-|]; [tauto|lia].
      * apply H; [lia|assumption..].
    + destruct (edgesIntersect_returns polygon i j Hi Hj) as (p1 & q1 & p2 & q2 & _ & _ & _ & _ & E).
      rewrite E. cbn [obind]. destruct (doIntersect p1 q1 p2 q2) eqn:Ed.
      * exists false. split; [reflexivity|]. split; [discriminate|].
        intros H. specialize (H j (Nat.le_refl j) Hj). rewrite E in H.
        assert (Hf : Ret (A:=bool) true = Ret false) by (apply H; tauto). discriminate.
      * exists b. split; [exact Hb|]. rewrite Hiff. split; intros H j' H1 H2 H3.
        -- destruct (Nat.eq_dec j j') as [<-|]; [exact E|]. apply H; [lia|assumption..].
        -- apply H; [lia|assumption..].
    + destruct (edgesIntersect_returns polygon i j Hi Hj) as (p1 & q1 & p2 & q2 & _ & _ & _ & _ & E).
      rewrite E. cbn [obind]. destruct (doIntersect p1 q1 p2 q2) eqn:Ed.
      * exists false. split; [reflexivity|]. split; [discriminate|].
        intros H. specialize (H j (Nat.le_refl j) Hj). rewrite E in H.
        assert (Hf : Ret (A:=bool) true = Ret false) by (apply H; tauto). discriminate.
      * exists b. split; [exact Hb|]. rewrite Hiff. split; intros H j' H1 H2 H3.
        -- destruct (Nat.eq_dec j j') as [<-|]; [exact E|]. apply H; [lia|assumption..].
        -- apply H; [lia|assumption..].
Qed.

Lemma simpleOuter_spec (polygon : list Point) :
  forall (k i : nat),
    (i + k = length polygon)%nat ->
    exists b : bool,
      simpleOuter polygon i k = Ret b /\
      (b = true <->
       forall i' j', (i <= i')%nat -> testedPair (length polygon) i' j' ->
                     edgesIntersect polygon i' j' = Ret false).
Proof.
  induction k as [|k IH]; intros i Hik.
  - exists true. split; [reflexivity|]. split; [|reflexivity].
    intros _ i' j' H1 (H2 & H3 & _). lia.
  - destruct (simpleInner_spec polygon i ltac:(lia) (length polygon - (i + 2)) (i + 2) eq_refl)
      as (b1 & Hb1 & Hiff1).
    destruct (IH (S i)) as (b2 & Hb2 & Hiff2); [lia|].
    cbn [simpleOuter]. rewrite Hb1. cbn [obind]. destruct b1.
    + exists b2. split; [exact Hb2|]. rewrite Hiff2.
      destruct Hiff1 as [Hin _]. specialize (Hin eq_refl).
      split; intros H i' j' H1 Ht.
      * destruct (Nat.eq_dec i i') as [<-|]; [|apply H; [lia|assumption]].
        destruct Ht as (H2 & H3 & H4). apply Hin; assumption.
      * apply H; [lia|assumption].
    + exists false. split; [reflexivity|]. split; [discriminate|].
      intros H. apply Hiff1. intros j' H1 H2 H3. apply H; [lia|].
      unfold testedPair. tauto.
Qed.

Lemma isSimplePolygon_spec (polygon : list Point) :
  exists b : bool,
    isSimplePolygon polygon = Ret b /\
    (b = true <->
     forall i j, testedPair (length polygon) i j ->
                 edgesIntersect polygon i j = Ret false).
Proof.
  destruct (simpleOuter_spec polygon (length polygon) 0 eq_refl) as (b & Hb & Hiff).
  exists b. split; [exact Hb|]. rewrite Hiff. split; intros H i j Ht.
  - apply H; [lia|assumption].
  - intros Ht'. apply H. assumption.
Qed.

(** X8. [isSimplePolygon] never throws.  It returns true exactly when no
    tested pair of edges intersects for [doIntersect], the tested pairs being
    the edges [i] and [j] with [i + 2 <= j < n], except the first and the last
    edge; it returns false otherwise. *)
Theorem isSimplePolygon_decides (polygon : list Point) :
  exists b : bool,
    isSimplePolygon polygon = Ret b /\
    (b = true <->
     forall i j, testedPair (length polygon) i j ->
                 edgesIntersect polygon i j = Ret false).
Proof. apply isSimplePolygon_spec. Qed.

(** X9. Every polygon of at most three points passes [isSimplePolygon]: no
    pair of edges is ever tested, so three collinear or even equal points are
    reported simple. *)
Theorem isSimplePolygon_at_most_three (polygon : list Point) :
  (length polygon <= 3)%nat -> isSimplePolygon polygon = Ret true.
Proof.
  intros Hlen. destruct (isSimplePolygon_spec polygon) as (b & -> & Hiff).
  f_equal. apply Hiff. intros i j (H1 & H2 & H3). exfalso. apply H3. lia.
Qed.

Lemma isSimplePolygon_at_most_three_witness :
  isSimplePolygon collinear3 = Ret true.
Proof. apply (isSimplePolygon_at_most_three collinear3). cbn. lia. Defined.

(** X10. A polygon whose points all lie on one line passes
    [isSimplePolygon], however many points it has and however its edges
    overlap: [doIntersect] needs two distinct orientations and collinear
    points only give COLLINEAR. *)
Theorem isSimplePolygon_accepts_collinear (polygon : list Point) :
  (forall a b c, In a polygon -> In b polygon -> In c polygon ->
                 getOrientation a b c = COLLINEAR) ->
  isSimplePolygon polygon = Ret true.
Proof.
  intros Hcol. destruct (isSimplePolygon_spec polygon) as (b & -> & Hiff).
  f_equal. apply Hiff. intros i j (H1 & H2 & H3).
  destruct (edgesIntersect_returns polygon i j) as (p1 & q1 & p2 & q2 & I1 & I2 & I3 & I4 & ->);
    [lia | lia |].
  f_equal. unfold doIntersect. cbv zeta.
  rewrite (Hcol p1 q1 p2), (Hcol p1 q1 q2) by assumption. reflexivity.
Qed.

Lemma isSimplePolygon_accepts_collinear_witness :
  isSimplePolygon [overlap_p1; overlap_q1; overlap_p2; overlap_q2] = Ret true.
Proof.
  apply (isSimplePolygon_accepts_collinear [overlap_p1; overlap_q1; overlap_p2; overlap_q2]).
  intros a b c Ha Hb Hc. cbn in Ha, Hb, Hc.
  destruct Ha as [<-|[<-|[<-|[<-|[]]]]];
    destruct Hb as [<-|[<-|[<-|[<-|[]]]]];
    destruct Hc as [<-|[<-|[<-|[<-|[]]]]]; reflexivity.
Defined.

(** *** Insertion and deletion in a CircularList *)

Lemma write_alter (upd : Vertex -> Vertex) (r : ref) (h : heap) :
  is_Some (h !! r) -> write upd (Some r) h = Ret (tt, alter upd r h).
Proof.
  intros [v Hv]. unfold write. rewrite Hv. f_equal. f_equal.
  apply list_eq. intros i. destruct (decide (i = r)) as [->|Hne].
  - rewrite list_lookup_insert_eq by (apply lookup_lt_is_Some; eauto).
    rewrite list_lookup_alter_eq, Hv. reflexivity.
  - rewrite list_lookup_insert_ne, list_lookup_alter_ne by congruence. reflexivity.
Qed.

Lemma is_Some_alter (f : Vertex -> Vertex) (i r : ref) (h : heap) :
  is_Some (h !! r) -> is_Some (alter f i h !! r).
Proof.
  intros H. apply lookup_lt_is_Some. rewrite length_alter.
  apply lookup_lt_is_Some. exact H.
Qed.

(** Discharge the side conditions of [write_alter] and simplify lookups in
    altered stores. *)
Ltac alter_simpl :=
  repeat first
    [ rewrite list_lookup_alter_eq
    | rewrite list_lookup_alter_ne by congruence ].

Ltac step_write :=
  unfold bind at 1;
  rewrite write_alter by (repeat apply is_Some_alter; eauto).

(** X11. Inserting a node after [previous] and deleting it again is a round
    trip: the list gets its head and size back, every other node of the
    store is as before, and the node itself is left pointing at [previous]
    and at the former successor of [previous].  The node must not be the
    head, nor [previous], nor its successor, and the successor must point
    back at [previous]. *)
Theorem insert_delete_round_trip (this : CircularList) (hd n p q : ref)
    (vn vp vq : Vertex) (h : heap) :
  head this = Some hd -> n <> hd -> n <> p -> n <> q ->
  h !! n = Some vn -> h !! p = Some vp -> h !! q = Some vq ->
  v_next vp = Some q -> v_prev vq = Some p ->
  exists h' : heap,
    (let* l := insert this (Some n) (Some p) in delete l (Some n)) h = Ret (this, h') /\
    (forall m, m <> n -> h' !! m = h !! m) /\
    h' !! n = Some (with_next (Some q) (with_prev (Some p) vn)).
Proof.
  intros Hhd Hnhd Hnp Hnq Hn Hp Hq Hpq Hqp.
  set (h4 := alter (with_prev (Some n)) q
               (alter (with_next (Some q)) n
                  (alter (with_prev (Some p)) n
                     (alter (with_next (Some n)) p h)))).
  set (h' := alter (with_prev (Some p)) q (alter (with_next (Some q)) p h4)).
  assert (Hn4 : h4 !! n = Some (with_next (Some q) (with_prev (Some p) vn))).
  { unfold h4. alter_simpl. rewrite Hn. reflexivity. }
  assert (Hins : insert this (Some n) (Some p) h
                 = Ret (mkCircularList (Some hd) (size this + 1), h4)).
  { unfold insert, set_next, set_prev. rewrite Hhd.
    unfold bind at 1. rewrite (read_Some _ _ _ _ Hp), Hpq.
    do 4 step_write. reflexivity. }
  assert (Hdel : delete (mkCircularList (Some hd) (size this + 1)) (Some n) h4
                 = Ret (mkCircularList (Some hd) (size this + 1 - 1), h')).
  { unfold delete, set_next, set_prev. cbn [head size ref_eqb].
    replace (n =? hd)%nat with false by (symmetry; apply Nat.eqb_neq; assumption).
    rewrite andb_false_r.
    unfold bind at 1, ret at 1.
    unfold bind at 1. rewrite (read_Some _ _ _ _ Hn4). cbn [v_prev with_next with_prev].
    unfold bind at 1. rewrite (read_Some _ _ _ _ Hn4). cbn [v_next with_next with_prev].
    unfold h4. do 2 step_write. reflexivity. }
  exists h'. split; [|split].
  - unfold bind. rewrite Hins, Hdel. f_equal. f_equal.
    destruct this as [hd0 sz]. cbn in *. subst hd0. f_equal. lia.
  - intros m Hm. unfold h', h4.
    destruct (decide (m = q)) as [->|Hmq]; [destruct (decide (p = q)) as [->|Hpq']|].
    + alter_simpl. rewrite Hp. cbn. f_equal.
      assert (vp = vq) by congruence. subst vq.
      destruct vp. cbn in *. subst. reflexivity.
    + alter_simpl. rewrite Hq. cbn. f_equal.
      destruct vq. cbn in *. subst. reflexivity.
    + destruct (decide (m = p)) as [->|Hmp].
      * alter_simpl. rewrite Hp. cbn. f_equal.
        destruct vp. cbn in *. subst. reflexivity.
      * alter_simpl. reflexivity.
  - unfold h'. destruct (decide (p = q)) as [->|Hpq'].
    + alter_simpl. exact Hn4.
    + alter_simpl. exact Hn4.
Qed.

Lemma insert_delete_round_trip_witness :
  exists h' : heap,
    (let* l := insert (boundary_list square_rev) (Some 4%nat) (Some 0%nat) in
     delete l (Some 4%nat))
      (boundary_heap square_rev ++ [mkVertex (mkPoint 9 1 1) None None false false])
    = Ret (boundary_list square_rev, h').
Proof.
  destruct (insert_delete_round_trip (boundary_list square_rev) 0%nat 4%nat 0%nat 1%nat
              (mkVertex (mkPoint 9 1 1) None None false false)
              (mkVertex (mkPoint 0 0 0) (Some 1%nat) (Some 3%nat) false false)
              (mkVertex (mkPoint 1 0 4) (Some 2%nat) (Some 0%nat) false false)
              (boundary_heap square_rev ++ [mkVertex (mkPoint 9 1 1) None None false false]))
    as (h' & Hrun & _); try reflexivity; try lia.
  exists h'. exact Hrun.
Defined.

(** X12. Inserting a node into an empty list and deleting it again gives the
    empty list back, whatever [previous] was passed: the list is empty again
    (no head, size 0), the other nodes of the store are untouched and the
    node is left linked to itself. *)
Theorem insert_delete_empty (n : ref) (vn : Vertex) (previous : option ref) (h : heap) :
  h !! n = Some vn ->
  exists h' : heap,
    (let* l := insert new_CircularList (Some n) previous in delete l (Some n)) h
    = Ret (new_CircularList, h') /\
    (forall m, m <> n -> h' !! m = h !! m) /\
    h' !! n = Some (with_prev (Some n) (with_next (Some n) vn)).
Proof.
  intros Hn.
  exists (alter (with_prev (Some n)) n (alter (with_next (Some n)) n h)).
  split; [|split].
  - unfold insert, set_next, set_prev. cbn [head new_CircularList].
    unfold bind at 1. do 2 step_write. unfold ret at 1.
    unfold delete. cbn [head size ref_eqb]. rewrite Nat.eqb_refl. reflexivity.
  - intros m Hm. alter_simpl. reflexivity.
  - alter_simpl. rewrite Hn. reflexivity.
Qed.

Lemma insert_delete_empty_witness :
  exists h' : heap,
    (let* l := insert new_CircularList (Some 2%nat) None in delete l (Some 2%nat))
      (boundary_heap square_rev)
    = Ret (new_CircularList, h').
Proof.
  destruct (insert_delete_empty 2%nat
              (mkVertex (mkPoint 2 4 4) (Some 3%nat) (Some 1%nat) false false) None
              (boundary_heap square_rev)) as (h' & Hrun & _); [reflexivity|].
  exists h'. exact Hrun.
Defined.

(** *** The classification loop of the optimized driver *)

Lemma getOrientation_same_point (p : Point) : getOrientation p p p = 0.
Proof.
  unfold getOrientation, cross. cbn [fst snd nsub]. rewrite !Z.sub_diag.
  reflexivity.
Qed.

(** An iteration on a node linked to itself classifies it as concave; it
    throws when the concave list already has a head. *)
Lemma classify_self_linked (n : nat) (r : ref) (v : Vertex) (h : heap)
    (convexVertices concaveVertices : CircularList) :
  h !! r = Some v -> v_next v = Some r -> v_prev v = Some r ->
  head concaveVertices <> None ->
  classify (S n) (Some r) convexVertices concaveVertices h = Throw TypeError.
Proof.
  intros Hr Hnext Hprev Hcc. cbn [classify].
  unfold bind at 1. rewrite (read_Some _ _ _ _ Hr), Hprev.
  unfold bind at 1. rewrite (read_Some _ _ _ _ Hr).
  unfold bind at 1. rewrite (read_Some _ _ _ _ Hr).
  unfold bind at 1. rewrite (read_Some _ _ _ _ Hr), Hnext.
  unfold bind at 1. rewrite (read_Some _ _ _ _ Hr).
  unfold isConvex. rewrite getOrientation_same_point. cbn [Z.eqb].
  unfold bind at 1. unfold bind at 1. unfold set_isConvex.
  rewrite (write_Some _ _ _ _ Hr).
  unfold bind at 1. rewrite insert_undefined_previous by assumption. reflexivity.
Qed.

(** Two iterations on a node linked to itself always throw. *)
Lemma classify_self_linked_twice (n : nat) (r : ref) (v : Vertex) (h : heap)
    (convexVertices concaveVertices : CircularList) :
  h !! r = Some v -> v_next v = Some r -> v_prev v = Some r ->
  classify (S (S n)) (Some r) convexVertices concaveVertices h = Throw TypeError.
Proof.
  intros Hr Hnext Hprev.
  destruct (head concaveVertices) eqn:Hcc;
    [apply (classify_self_linked _ _ v); congruence|].
  change (classify (S (S n)) (Some r) convexVertices concaveVertices h)
    with ((let* cp := read v_prev (Some r) in
           let* a := read v_point cp in
           let* b := read v_point (Some r) in
           let* cn := read v_next (Some r) in
           let* c := read v_point cn in
           let* '(convexVertices', concaveVertices') :=
             (if isConvex a b c then
                let* _ := set_isConvex (Some r) true in
                let* l := insert convexVertices (Some r) None in
                ret (l, concaveVertices)
              else
                let* _ := set_isConvex (Some r) false in
                let* l := insert concaveVertices (Some r) None in
                ret (convexVertices, l)) in
           let* curr' := read v_next (Some r) in
           classify (S n) curr' convexVertices' concaveVertices') h).
  unfold bind at 1. rewrite (read_Some _ _ _ _ Hr), Hprev.
  unfold bind at 1. rewrite (read_Some _ _ _ _ Hr).
  unfold bind at 1. rewrite (read_Some _ _ _ _ Hr).
  unfold bind at 1. rewrite (read_Some _ _ _ _ Hr), Hnext.
  unfold bind at 1. rewrite (read_Some _ _ _ _ Hr).
  unfold isConvex. rewrite getOrientation_same_point. cbn [Z.eqb].
  unfold bind at 1. unfold bind at 1. unfold set_isConvex.
  rewrite (write_Some _ _ _ _ Hr).
  unfold bind at 1.
  erewrite insert_first;
    [|exact Hcc|apply list_lookup_insert_eq; apply lookup_lt_is_Some; eauto].
  unfold ret at 1. rewrite list_insert_insert_eq.
  unfold bind at 1.
  erewrite read_Some
    by (apply list_lookup_insert_eq; apply lookup_lt_is_Some; eauto).
  cbn [v_next with_prev with_next].
  eapply classify_self_linked.
  - apply list_lookup_insert_eq. apply lookup_lt_is_Some. eauto.
  - reflexivity.
  - reflexivity.
  - discriminate.
Qed.

Lemma classify_three (n : nat) (curr : option ref) (h : heap) :
  classify (S (S (S n))) curr new_CircularList new_CircularList h = Throw TypeError.
Proof.
  destruct curr as [r|]; [|reflexivity].
  destruct (h !! r) as [v|] eqn:Hr; [|cbn [classify]; unfold bind, read; rewrite Hr; reflexivity].
  change (classify (S (S (S n))) (Some r) new_CircularList new_CircularList h)
    with ((let* cp := read v_prev (Some r) in
           let* a := read v_point cp in
           let* b := read v_point (Some r) in
           let* cn := read v_next (Some r) in
           let* c := read v_point cn in
           let* '(convexVertices', concaveVertices') :=
             (if isConvex a b c then
                let* _ := set_isConvex (Some r) true in
                let* l := insert new_CircularList (Some r) None in
                ret (l, new_CircularList)
              else
                let* _ := set_isConvex (Some r) false in
                let* l := insert new_CircularList (Some r) None in
                ret (new_CircularList, l)) in
           let* curr' := read v_next (Some r) in
           classify (S (S n)) curr' convexVertices' concaveVertices') h).
  match goal with |- ?X = _ => pattern X end.
  do 5 (apply bind_read_elim; [reflexivity | intros ?]).
  cbv beta.
  assert (Hlen : (r < length h)%nat) by (apply lookup_lt_is_Some; eauto).
  destruct (isConvex _ _ _).
  - unfold bind at 1. unfold bind at 1. unfold set_isConvex.
    rewrite (write_Some _ _ _ _ Hr).
    unfold bind at 1.
    erewrite insert_first; [|reflexivity|apply list_lookup_insert_eq; exact Hlen].
    unfold ret at 1. rewrite list_insert_insert_eq.
    unfold bind at 1.
    erewrite read_Some by (apply list_lookup_insert_eq; exact Hlen).
    cbn [v_next with_prev with_next].
    eapply classify_self_linked_twice;
      [apply list_lookup_insert_eq; exact Hlen | reflexivity | reflexivity].
  - unfold bind at 1. unfold bind at 1. unfold set_isConvex.
    rewrite (write_Some _ _ _ _ Hr).
    unfold bind at 1.
    erewrite insert_first; [|reflexivity|apply list_lookup_insert_eq; exact Hlen].
    unfold ret at 1. rewrite list_insert_insert_eq.
    unfold bind at 1.
    erewrite read_Some by (apply list_lookup_insert_eq; exact Hlen).
    cbn [v_next with_prev with_next].
    eapply classify_self_linked;
      [apply list_lookup_insert_eq; exact Hlen | reflexivity | reflexivity | discriminate].
Qed.

(** X13. The part of [optimizedEarCutting] that follows the construction of
    the boundary cannot complete on any boundary list of three nodes or
    more, whatever the store: the first [insert] into the convex or concave
    list links the head to itself, the loop then stays on that node, and by
    the third iteration at the latest an [insert] without [previous] throws
    [TypeError]. *)
Theorem optimizedClipping_always_throws (fuel : nat) (vertices : CircularList) (h : heap) :
  3 <= size vertices ->
  optimizedClipping fuel vertices h = Throw TypeError.
Proof.
  intros Hsz. unfold optimizedClipping.
  destruct (Z.to_nat (size vertices)) as [|[|[|n]]] eqn:E; try lia.
  unfold bind at 1. rewrite classify_three. reflexivity.
Qed.

Lemma optimizedClipping_always_throws_witness :
  optimizedClipping 7 (boundary_list square) (boundary_heap square) = Throw TypeError.
Proof.
  apply (optimizedClipping_always_throws 7 (boundary_list square) (boundary_heap square)).
  vm_compute. discriminate.
Defined.

(** *** Areas of polygons and triangles *)

Lemma triArea2_cross2 (a v b : coords) :
  triArea2 a v b = cross2 a v + cross2 v b - cross2 a b.
Proof. unfold triArea2, cross2. ring. Qed.

Lemma openSum_cons2 (p q : coords) (l : list coords) :
  openSum (p :: q :: l) = cross2 p q + openSum (q :: l).
Proof. reflexivity. Qed.

(** Appending a point to a path adds the product of the last point with it. *)
Lemma openSum_snoc (l : list coords) (a x : coords) :
  l !! (length l - 1)%nat = Some a ->
  openSum (l ++ [x]) = openSum l + cross2 a x.
Proof.
  induction l as [|c l IH]; [discriminate|].
  destruct l as [|d l].
  - cbn. intros [= ->]. lia.
  - intros Hlast. cbn [app]. rewrite !openSum_cons2.
    change (d :: l ++ [x]) with ((d :: l) ++ [x]). rewrite IH; [lia|].
    cbn [length] in *. replace (S (S (length l)) - 1)%nat with (S (length l)) in Hlast by lia.
    replace (S (length l) - 1)%nat with (length l) by lia. exact Hlast.
Qed.

(** Removing an inner point of a path replaces two products by one. *)
Lemma openSum_delete_inner (l : list coords) :
  forall (i : nat) (a v b : coords),
    l !! i = Some a -> l !! S i = Some v -> l !! S (S i) = Some b ->
    openSum l = openSum (base.delete (S i) l) + triArea2 a v b.
Proof.
  induction l as [|x l IH]; intros i a v b Ha Hv Hb; [discriminate|].
  destruct i as [|i].
  - destruct l as [|y [|z l]]; try discriminate.
    cbn in Ha, Hv, Hb. injection Ha as ->. injection Hv as ->. injection Hb as ->.
    cbn [base.delete list_delete]. rewrite !openSum_cons2, triArea2_cross2. lia.
  - destruct l as [|y l]; [discriminate|].
    change (base.delete (S (S i)) (x :: y :: l)) with (x :: base.delete (S i) (y :: l)).
    change (base.delete (S i) (y :: l)) with (y :: base.delete i l).
    rewrite !openSum_cons2.
    change (y :: base.delete i l) with (base.delete (S i) (y :: l)).
    rewrite (IH i a v b); [lia|exact Ha|exact Hv|exact Hb].
Qed.

Lemma delete_app_left {A} (l1 l2 : list A) (i : nat) :
  (i < length l1)%nat -> base.delete i (l1 ++ l2) = base.delete i l1 ++ l2.
Proof.
  revert i. induction l1 as [|x l1 IH]; intros i Hi; [cbn in Hi; lia|].
  destruct i as [|i]; [reflexivity|].
  cbn [app]. change (base.delete (S i) (x :: l1 ++ l2)) with (x :: base.delete i (l1 ++ l2)).
  rewrite IH by (cbn in Hi; lia). reflexivity.
Qed.

(** Clipping the corner [i] of a closed polygon takes the doubled area of
    the triangle of that corner and its two neighbours off the doubled area
    of the polygon. *)
Lemma shoelace2_delete (P : list coords) (i : nat) (a v b : coords) :
  (2 <= length P)%nat ->
  P !! ((i + length P - 1) mod length P)%nat = Some a ->
  P !! i = Some v ->
  P !! ((i + 1) mod length P)%nat = Some b ->
  shoelace2 P = shoelace2 (base.delete i P) + triArea2 a v b.
Proof.
  intros Hlen Ha Hv Hb.
  assert (Hi : (i < length P)%nat) by (apply lookup_lt_is_Some; eauto).
  destruct P as [|f t]; [discriminate|]. cbn [length] in *.
  destruct i as [|i].
  - cbn in Hv. injection Hv as ->.
    destruct t as [|b' r]; [cbn in Hlen; lia|].
    replace ((0 + S (length (b' :: r)) - 1) mod S (length (b' :: r)))%nat
      with (S (length (b' :: r) - 1)) in Ha
      by (rewrite Nat.mod_small; cbn [length]; lia).
    replace ((0 + 1) mod S (length (b' :: r)))%nat with 1%nat in Hb
      by (rewrite Nat.mod_small; cbn [length]; lia).
    cbn in Hb. injection Hb as ->.
    change ((v :: b :: r) !! S (length (b :: r) - 1)%nat)
      with ((b :: r) !! (length (b :: r) - 1)%nat) in Ha.
    unfold shoelace2.
    change (base.delete 0%nat (v :: b :: r)) with (b :: r).
    change ((v :: b :: r) ++ [v]) with (v :: b :: (r ++ [v])).
    rewrite openSum_cons2.
    change (b :: r ++ [v]) with ((b :: r) ++ [v]).
    rewrite (openSum_snoc (b :: r) a v Ha), (openSum_snoc (b :: r) a b Ha).
    rewrite triArea2_cross2. lia.
  - replace ((S i + S (length t) - 1) mod S (length t))%nat with i in Ha.
    2:{ replace (S i + S (length t) - 1)%nat with (i + 1 * S (length t))%nat by lia.
        rewrite Nat.Div0.mod_add, Nat.mod_small; lia. }
    assert (Hb' : ((f :: t) ++ [f]) !! S (S i) = Some b).
    { destruct (decide (S i + 1 = S (length t))%nat) as [E|E].
      - rewrite E, Nat.Div0.mod_same in Hb. cbn in Hb. injection Hb as <-.
        replace (S (S i)) with (length (f :: t) + 0)%nat by (cbn [length]; lia).
        rewrite lookup_app_r by lia.
        replace (length (f :: t) + 0 - length (f :: t))%nat with 0%nat by lia.
        reflexivity.
      - rewrite Nat.mod_small in Hb by lia.
        rewrite lookup_app_l by (cbn [length]; lia).
        replace (S (S i)) with (S i + 1)%nat by lia. exact Hb. }
    unfold shoelace2.
    change (base.delete (S i) (f :: t)) with (f :: base.delete i t).
    rewrite (openSum_delete_inner ((f :: t) ++ [f]) i a v b);
      [| apply lookup_app_l_Some; exact Ha
       | apply lookup_app_l_Some; exact Hv
       | exact Hb'].
    rewrite delete_app_left by (cbn [length]; lia).
    reflexivity.
Qed.

Lemma shoelace2_triangle (a b c : coords) : shoelace2 [a; b; c] = triArea2 a b c.
Proof.
  destruct a, b, c. unfold shoelace2, triArea2. cbn [app openSum].
  unfold cross2. cbn [fst snd]. ring.
Qed.

Lemma sumArea2_snoc (ts : list PolygonTriangulation.PTriangle)
    (t : PolygonTriangulation.PTriangle) (s x : Z) :
  sumArea2 ts = Some s -> triangleArea2 t = Some x ->
  sumArea2 (ts ++ [t]) = Some (s + x).
Proof.
  revert s. induction ts as [|t0 ts IH]; intros s Hs Ht.
  - cbn in Hs. injection Hs as <-. cbn. rewrite Ht. f_equal. lia.
  - cbn [sumArea2 app] in *. destruct (triangleArea2 t0) as [x0|]; [|discriminate].
    destruct (sumArea2 ts) as [s0|]; [|discriminate]. injection Hs as <-.
    rewrite (IH s0 eq_refl Ht). f_equal. lia.
Qed.

Lemma polygonOf_seq (points : list coords) :
  polygonOf points (seq 0 (length points)) = points.
Proof.
  apply list_eq. intros k. unfold polygonOf. rewrite list_lookup_fmap.
  destruct (decide (k < length points)%nat) as [Hk|Hk].
  - rewrite lookup_seq_lt by assumption. cbn [fmap option_fmap option_map Nat.add].
    destruct (lookup_lt_is_Some_2 points k Hk) as [x Hx].
    transitivity (Some (default (0, 0) (Some x))); [|symmetry; exact Hx].
    f_equal. f_equal. exact Hx.
  - rewrite (lookup_ge_None_2 points k) by lia.
    rewrite (lookup_ge_None_2 (seq 0 (length points)) k) by (rewrite length_seq; lia).
    reflexivity.
Qed.

(** *** Clipping in the class *)

Lemma PT_indexOf_lookup (vertices : list nat) :
  NoDup vertices ->
  forall (j v : nat), vertices !! j = Some v ->
                      PolygonTriangulation.indexOf vertices v = Z.of_nat j.
Proof.
  induction 1 as [|x l Hx Hnd IH]; intros j v Hj; [discriminate|].
  cbn [PolygonTriangulation.indexOf]. destruct j as [|j].
  - cbn in Hj. injection Hj as ->. rewrite Nat.eqb_refl. reflexivity.
  - cbn in Hj. destruct (Nat.eqb_spec x v) as [->|Hne].
    + exfalso. apply Hx. eapply list_elem_of_lookup_2. eassumption.
    + rewrite (IH j v Hj).
      replace (Z.of_nat j <? 0) with false by (symmetry; apply Z.ltb_ge; lia). lia.
Qed.

(** The neighbours that the class computes for index [j], as list lookups. *)
Lemma PT_neighbours {A} (a : list A) (j : nat) :
  (j < length a)%nat ->
  PolygonTriangulation.at_index a
    (Z.rem (Z.of_nat j - 1 + Z.of_nat (length a)) (Z.of_nat (length a)))
  = a !! ((j + length a - 1) mod length a)%nat /\
  PolygonTriangulation.at_index a (Z.rem (Z.of_nat j + 1) (Z.of_nat (length a)))
  = a !! ((j + 1) mod length a)%nat.
Proof.
  intros Hj. unfold PolygonTriangulation.at_index.
  rewrite !Z.rem_mod_nonneg by lia.
  replace (Z.of_nat j - 1 + Z.of_nat (length a)) with (Z.of_nat (j + length a - 1)) by lia.
  replace (Z.of_nat j + 1) with (Z.of_nat (j + 1)) by lia.
  rewrite <- !Nat2Z.inj_mod, !Nat2Z.id.
  replace (Z.of_nat ((j + length a - 1) mod length a) <? 0) with false
    by (symmetry; apply Z.ltb_ge; lia).
  replace (Z.of_nat ((j + 1) mod length a) <? 0) with false
    by (symmetry; apply Z.ltb_ge; lia).
  split; reflexivity.
Qed.

Lemma polygonOf_lookup (points : list coords) (remainingVertices : list nat)
    (k v : nat) (c : coords) :
  remainingVertices !! k = Some v -> points !! v = Some c ->
  polygonOf points remainingVertices !! k = Some c.
Proof.
  intros Hk Hv. unfold polygonOf. rewrite list_lookup_fmap, Hk.
  cbn [fmap option_fmap option_map].
  transitivity (Some (default (0, 0) (Some c))); [|reflexivity].
  f_equal. f_equal. exact Hv.
Qed.

(** The triangle clipped at index [j]: its corners are defined, and its
    doubled area is what the polygon of the remaining vertices loses. *)
Lemma PT_clipAt_area (points : list coords) (remainingVertices : list nat)
    (j vertex : nat) :
  List.Forall (fun v => (v < length points)%nat) remainingVertices ->
  (2 <= length remainingVertices)%nat ->
  remainingVertices !! j = Some vertex ->
  exists a v b : coords,
    PolygonTriangulation.clipAt points remainingVertices j vertex
    = PolygonTriangulation.Clipped (base.delete j remainingVertices)
        (Some a, Some v, Some b) /\
    PolygonTriangulation.point_at points
      (PolygonTriangulation.at_index remainingVertices
         (Z.rem (Z.of_nat j - 1 + Z.of_nat (length remainingVertices))
                (Z.of_nat (length remainingVertices)))) = Some a /\
    points !! vertex = Some v /\
    PolygonTriangulation.point_at points
      (PolygonTriangulation.at_index remainingVertices
         (Z.rem (Z.of_nat j + 1) (Z.of_nat (length remainingVertices)))) = Some b /\
    shoelace2 (polygonOf points remainingVertices)
    = shoelace2 (polygonOf points (base.delete j remainingVertices)) + triArea2 a v b.
Proof.
  intros Hall Hlen Hj.
  assert (Hjlt : (j < length remainingVertices)%nat) by (apply lookup_lt_is_Some; eauto).
  assert (Hvalid : forall k x, remainingVertices !! k = Some x -> is_Some (points !! x)).
  { intros k x Hk. apply lookup_lt_is_Some_2. rewrite List.Forall_forall in Hall.
    apply Hall. apply list_elem_of_In. eapply list_elem_of_lookup_2. eassumption. }
  destruct (PT_neighbours remainingVertices j Hjlt) as [Eprev Enext].
  destruct (lookup_lt_is_Some_2 remainingVertices
              ((j + length remainingVertices - 1) mod length remainingVertices))
    as [pv Hpv]; [apply Nat.mod_upper_bound; lia|].
  destruct (lookup_lt_is_Some_2 remainingVertices
              ((j + 1) mod length remainingVertices))
    as [nx Hnx]; [apply Nat.mod_upper_bound; lia|].
  destruct (Hvalid _ _ Hpv) as [a Ha], (Hvalid _ _ Hj) as [v Hv], (Hvalid _ _ Hnx) as [b Hb].
  exists a, v, b.
  assert (Hpa : PolygonTriangulation.point_at points
                  (PolygonTriangulation.at_index remainingVertices
                     (Z.rem (Z.of_nat j - 1 + Z.of_nat (length remainingVertices))
                            (Z.of_nat (length remainingVertices)))) = Some a).
  { rewrite Eprev, Hpv. exact Ha. }
  assert (Hpb : PolygonTriangulation.point_at points
                  (PolygonTriangulation.at_index remainingVertices
                     (Z.rem (Z.of_nat j + 1) (Z.of_nat (length remainingVertices)))) = Some b).
  { rewrite Enext, Hnx. exact Hb. }
  split; [|split; [exact Hpa|split; [exact Hv|split; [exact Hpb|]]]].
  - unfold PolygonTriangulation.clipAt. cbv zeta. rewrite Hpa, Hpb, Hv. reflexivity.
  - unfold polygonOf at 2. rewrite list_fmap_delete. fold (polygonOf points remainingVertices).
    assert (Hl : length (polygonOf points remainingVertices) = length remainingVertices)
      by apply length_fmap.
    apply shoelace2_delete; rewrite ?Hl.
    + lia.
    + eapply polygonOf_lookup; eassumption.
    + eapply polygonOf_lookup; eassumption.
    + eapply polygonOf_lookup; eassumption.
Qed.

Lemma PT_ccw_positive (a v b : coords) :
  safe_coords a -> safe_coords v -> safe_coords b ->
  PolygonTriangulation.isTriangleOrientedCCW (Some a) (Some v) (Some b) = Ret true ->
  0 < triArea2 a v b.
Proof.
  intros Sa Sv Sb. rewrite PT_ccw_exact by assumption.
  intros [= H]. apply Z.ltb_lt in H. exact H.
Qed.

Lemma PT_point_at_safe (points : list coords) (r : option nat) (a : coords) :
  List.Forall safe_coords points ->
  PolygonTriangulation.point_at points r = Some a -> safe_coords a.
Proof.
  intros Hsafe. destruct r as [k|]; [|discriminate]. cbn. intros Hk.
  rewrite List.Forall_forall in Hsafe. apply Hsafe. apply list_elem_of_In.
  eapply list_elem_of_lookup_2. exact Hk.
Qed.

(** An ear of the class is a corner with a counter-clockwise triangle. *)
Lemma PT_isEar_ccw (points : list coords) (remainingVertices : list nat) (j vertex : nat) :
  NoDup remainingVertices ->
  remainingVertices !! j = Some vertex ->
  PolygonTriangulation.isEar points vertex (Some remainingVertices) = Ret true ->
  PolygonTriangulation.isTriangleOrientedCCW
    (PolygonTriangulation.point_at points
       (PolygonTriangulation.at_index remainingVertices
          (Z.rem (Z.of_nat j - 1 + Z.of_nat (length remainingVertices))
                 (Z.of_nat (length remainingVertices)))))
    (points !! vertex)
    (PolygonTriangulation.point_at points
       (PolygonTriangulation.at_index remainingVertices
          (Z.rem (Z.of_nat j + 1) (Z.of_nat (length remainingVertices)))))
  = Ret true.
Proof.
  intros Hnd Hj. unfold PolygonTriangulation.isEar. cbv zeta.
  rewrite (PT_indexOf_lookup _ Hnd j vertex Hj).
  destruct (PolygonTriangulation.isTriangleOrientedCCW _ _ _) as [[|]| |];
    cbn; intros H; congruence.
Qed.

(** One clipping step of the class: the triangle of an ear has a positive
    area, which the polygon of the remaining vertices loses. *)
Lemma PT_clip_step (points : list coords) (remainingVertices : list nat) (j vertex : nat) :
  List.Forall (fun v => (v < length points)%nat) remainingVertices ->
  NoDup remainingVertices ->
  (2 <= length remainingVertices)%nat ->
  remainingVertices !! j = Some vertex ->
  PolygonTriangulation.isEar points vertex (Some remainingVertices) = Ret true ->
  exists (t : PolygonTriangulation.PTriangle) (x : Z),
    PolygonTriangulation.clipAt points remainingVertices j vertex
    = PolygonTriangulation.Clipped (base.delete j remainingVertices) t /\
    triangleArea2 t = Some x /\ (List.Forall safe_coords points -> 0 < x) /\
    shoelace2 (polygonOf points remainingVertices)
    = shoelace2 (polygonOf points (base.delete j remainingVertices)) + x.
Proof.
  intros Hall Hnd Hlen Hj Hear.
  destruct (PT_clipAt_area points remainingVertices j vertex Hall Hlen Hj)
    as (a & v & b & Hclip & Ha & Hv & Hb & Harea).
  pose proof (PT_isEar_ccw points remainingVertices j vertex Hnd Hj Hear) as Hccw.
  exists (Some a, Some v, Some b), (triArea2 a v b).
  split; [exact Hclip|]. split; [reflexivity|]. split; [|exact Harea].
  intros Hsafe.
  pose proof (PT_point_at_safe points _ a Hsafe Ha) as Sa.
  pose proof (PT_point_at_safe points (Some vertex) v Hsafe Hv) as Sv.
  pose proof (PT_point_at_safe points _ b Hsafe Hb) as Sb.
  rewrite Ha, Hv, Hb in Hccw.
  apply PT_ccw_positive; assumption.
Qed.

Lemma PT_naiveScan_ear (points : list coords) (remainingVertices : list nat) :
  List.Forall (fun v => (v < length points)%nat) remainingVertices ->
  forall (todo : list nat) (i : nat),
    drop i remainingVertices = todo ->
    PolygonTriangulation.naiveScan points remainingVertices i todo
    = Ret PolygonTriangulation.NoEar \/
    exists (j vertex : nat),
      remainingVertices !! j = Some vertex /\
      PolygonTriangulation.isEar points vertex (Some remainingVertices) = Ret true /\
      PolygonTriangulation.naiveScan points remainingVertices i todo
      = Ret (PolygonTriangulation.clipAt points remainingVertices j vertex).
Proof.
  intros Hall. induction todo as [|vertex todo IH]; intros i Hdrop; [now left|].
  assert (Hi : remainingVertices !! i = Some vertex).
  { rewrite <- (Nat.add_0_r i), <- lookup_drop, Hdrop. reflexivity. }
  cbn [PolygonTriangulation.naiveScan].
  destruct (PT_isEar_returns points remainingVertices vertex Hall) as [[|] Hear].
  { apply list_elem_of_In. eapply list_elem_of_lookup_2. eassumption. }
  - right. exists i, vertex. rewrite Hear. cbn [obind]. tauto.
  - rewrite Hear. cbn [obind]. apply IH.
    rewrite (drop_S _ _ _ Hi) in Hdrop. congruence.
Qed.

Lemma PT_naiveLoop_area (points : list coords) :
  forall (fuel : nat) (remainingVertices : list nat)
         (triangles : list PolygonTriangulation.PTriangle) (s : Z)
         (remainingVertices' : list nat)
         (triangles' : list PolygonTriangulation.PTriangle),
    List.Forall (fun v => (v < length points)%nat) remainingVertices ->
    NoDup remainingVertices ->
    sumArea2 triangles = Some s ->
    List.Forall (fun t => List.Forall safe_coords points -> positiveTriangle t) triangles ->
    PolygonTriangulation.naiveLoop fuel points remainingVertices triangles
    = Ret (remainingVertices', triangles') ->
    List.Forall (fun v => (v < length points)%nat) remainingVertices' /\
    (exists s', sumArea2 triangles' = Some s' /\
                s' + shoelace2 (polygonOf points remainingVertices')
                = s + shoelace2 (polygonOf points remainingVertices)) /\
    List.Forall (fun t => List.Forall safe_coords points -> positiveTriangle t) triangles' /\
    ((3 <= length remainingVertices)%nat -> length remainingVertices' = 3%nat).
Proof.
  induction fuel as [|fuel IH]; intros rem tris s rem' tris' Hall Hnd Hs Hpos Hrun;
    [discriminate|].
  cbn [PolygonTriangulation.naiveLoop] in Hrun.
  destruct (Nat.ltb_spec 3 (length rem)) as [Hlen|Hlen].
  - destruct (PT_naiveScan_ear points rem Hall rem 0 (drop_0 rem))
      as [E|(j & vertex & Hj & Hear & E)]; rewrite E in Hrun; cbn [obind] in Hrun;
      [discriminate|].
    destruct (PT_clip_step points rem j vertex Hall Hnd ltac:(lia) Hj Hear)
      as (t & x & Hclip & Ht & Hx & Harea).
    rewrite Hclip in Hrun.
    assert (Hdel : length (base.delete j rem) = (length rem - 1)%nat).
    { apply length_delete. eauto. }
    destruct (IH (base.delete j rem) (tris ++ [t]) (s + x) rem' tris')
      as (Hall' & (s' & Hs' & Hsum) & Hpos' & Hthree).
    + apply Forall_delete. exact Hall.
    + exact (sublist_NoDup _ _ Hnd (sublist_delete rem j)).
    + apply sumArea2_snoc; assumption.
    + apply List.Forall_app. split; [exact Hpos|].
      constructor; [|constructor]. intros Hsafe. exists x. split; [exact Ht | exact (Hx Hsafe)].
    + exact Hrun.
    + split; [exact Hall'|]. split; [exists s'; split; [exact Hs'|lia]|].
      split; [exact Hpos'|]. intros _. apply Hthree. lia.
  - injection Hrun as <- <-. split; [exact Hall|].
    split; [exists s; split; [exact Hs|reflexivity]|]. split; [exact Hpos|]. lia.
Qed.

Lemma PT_point_at_valid (points : list coords) (remainingVertices : list nat) (k : nat) :
  List.Forall (fun v => (v < length points)%nat) remainingVertices ->
  (k < length remainingVertices)%nat ->
  exists c, PolygonTriangulation.point_at points (remainingVertices !! k) = Some c /\
            polygonOf points remainingVertices !! k = Some c.
Proof.
  intros Hall Hk. destruct (lookup_lt_is_Some_2 remainingVertices k Hk) as [v Hv].
  assert (Hlt : (v < length points)%nat).
  { rewrite List.Forall_forall in Hall. apply Hall. apply list_elem_of_In.
    eapply list_elem_of_lookup_2. eassumption. }
  destruct (lookup_lt_is_Some_2 points v Hlt) as [c Hc].
  exists c. split; [rewrite Hv; exact Hc|]. eapply polygonOf_lookup; eassumption.
Qed.

(** The last triangle is the polygon of the three remaining vertices. *)
Lemma PT_finalTriangle_area (points : list coords) (remainingVertices : list nat) :
  List.Forall (fun v => (v < length points)%nat) remainingVertices ->
  length remainingVertices = 3%nat ->
  triangleArea2 (PolygonTriangulation.finalTriangle points remainingVertices)
  = Some (shoelace2 (polygonOf points remainingVertices)).
Proof.
  intros Hall Hlen.
  destruct (PT_point_at_valid points remainingVertices 0 Hall ltac:(lia)) as (a & Ha & Pa).
  destruct (PT_point_at_valid points remainingVertices 1 Hall ltac:(lia)) as (b & Hb & Pb).
  destruct (PT_point_at_valid points remainingVertices 2 Hall ltac:(lia)) as (c & Hc & Pc).
  unfold PolygonTriangulation.finalTriangle. rewrite Ha, Hb, Hc.
  assert (E : polygonOf points remainingVertices = [a; b; c]).
  { assert (Hl : length (polygonOf points remainingVertices) = 3%nat)
      by (unfold polygonOf; rewrite length_fmap; exact Hlen).
    destruct (polygonOf points remainingVertices) as [|a' [|b' [|c' [|d l]]]];
      cbn in Hl; try lia.
    cbn in Pa, Pb, Pc. congruence. }
  rewrite E, shoelace2_triangle. reflexivity.
Qed.

Lemma PT_seq_valid (points : list coords) :
  List.Forall (fun v => (v < length points)%nat) (seq 0 (length points)).
Proof. apply List.Forall_forall. intros x Hx. apply in_seq in Hx. lia. Qed.

(** What a returned list of triangles of [naiveTriangulation] is made of. *)
Lemma PT_naiveTriangulation_shape (points : list coords)
    (triangles : list PolygonTriangulation.PTriangle) :
  (3 <= length points)%nat ->
  PolygonTriangulation.naiveTriangulation points = Ret triangles ->
  exists (clipped : list PolygonTriangulation.PTriangle)
         (final : PolygonTriangulation.PTriangle) (s x : Z),
    triangles = clipped ++ [final] /\
    List.Forall (fun t => List.Forall safe_coords points -> positiveTriangle t) clipped /\
    sumArea2 clipped = Some s /\ triangleArea2 final = Some x /\
    s + x = shoelace2 points.
Proof.
  intros Hlen. unfold PolygonTriangulation.naiveTriangulation. cbv zeta.
  replace (length points <? 3)%nat with false by (symmetry; apply Nat.ltb_ge; lia).
  destruct (PolygonTriangulation.naiveLoop (length points) points
              (seq 0 (length points)) []) as [[rem' tris']| |] eqn:Hrun;
    cbn [obind]; try discriminate.
  intros [= <-].
  destruct (PT_naiveLoop_area points _ _ [] 0 _ _ (PT_seq_valid points)
              (NoDup_seq 0 (length points)) eq_refl (List.Forall_nil _) Hrun)
    as (Hall' & (s' & Hs' & Hsum) & Hpos' & Hthree).
  rewrite length_seq in Hthree. specialize (Hthree Hlen).
  rewrite polygonOf_seq in Hsum.
  exists tris', (PolygonTriangulation.finalTriangle points rem'), s',
    (shoelace2 (polygonOf points rem')).
  split; [reflexivity|]. split; [exact Hpos'|]. split; [exact Hs'|].
  split; [apply PT_finalTriangle_area; assumption|]. lia.
Qed.

(** X14. Whenever [naiveTriangulation] returns for three points or more,
    the signed areas of its triangles add up to the signed area of the input
    polygon (shoelace formula, both doubled); in particular every corner of
    every triangle is a defined point. *)
Theorem PT_naiveTriangulation_area (points : list coords)
    (triangles : list PolygonTriangulation.PTriangle) :
  (3 <= length points)%nat ->
  PolygonTriangulation.naiveTriangulation points = Ret triangles ->
  sumArea2 triangles = Some (shoelace2 points).
Proof.
  intros Hlen Hrun.
  destruct (PT_naiveTriangulation_shape points triangles Hlen Hrun)
    as (clipped & final & s & x & -> & _ & Hs & Hx & Hsum).
  rewrite (sumArea2_snoc clipped final s x Hs Hx). f_equal. exact Hsum.
Qed.

Lemma PT_naiveTriangulation_area_witness :
  sumArea2 [(Some (0, 4), Some (0, 0), Some (4, 0));
            (Some (4, 0), Some (4, 4), Some (0, 4))]
  = Some (shoelace2 (map slice square)).
Proof.
  apply (PT_naiveTriangulation_area (map slice square)); [cbn; lia | reflexivity].
Defined.

(** X15. For coordinates in the range of exact arithmetic, every triangle
    that [naiveTriangulation] returns, except the last one, has a strictly
    positive signed area: a clipped ear is oriented counter-clockwise.  The
    last triangle is whatever the three remaining vertices form. *)
Theorem PT_naiveTriangulation_clipped_positive (points : list coords)
    (triangles : list PolygonTriangulation.PTriangle) :
  List.Forall safe_coords points ->
  (3 <= length points)%nat ->
  PolygonTriangulation.naiveTriangulation points = Ret triangles ->
  exists (clipped : list PolygonTriangulation.PTriangle)
         (final : PolygonTriangulation.PTriangle),
    triangles = clipped ++ [final] /\ List.Forall positiveTriangle clipped.
Proof.
  intros Hsafe Hlen Hrun.
  destruct (PT_naiveTriangulation_shape points triangles Hlen Hrun)
    as (clipped & final & s & x & E & Hpos & _).
  exists clipped, final. split; [exact E|].
  eapply List.Forall_impl; [|exact Hpos]. intros t Ht. exact (Ht Hsafe).
Qed.

Lemma PT_naiveTriangulation_clipped_positive_witness :
  exists (clipped : list PolygonTriangulation.PTriangle)
         (final : PolygonTriangulation.PTriangle),
    [(Some (0, 4), Some (0, 0), Some (4, 0)); (Some (4, 0), Some (4, 4), Some (0, 4))]
    = clipped ++ [final] /\ List.Forall positiveTriangle clipped.
Proof.
  apply (PT_naiveTriangulation_clipped_positive (map slice square));
    [repeat constructor; solve_safe | cbn; lia | reflexivity].
Defined.

(** *** improvedTriangulation *)

Lemma PT_ccw_returns (a b c : coords) :
  exists r : bool,
    PolygonTriangulation.isTriangleOrientedCCW (Some a) (Some b) (Some c) = Ret r.
Proof. destruct a, b, c. eexists. reflexivity. Qed.

Lemma PT_initConvex_returns (points : list coords) (indices : list nat) :
  List.Forall (fun v => (v < length points)%nat) indices ->
  exists flags, PolygonTriangulation.initConvex points indices = Ret flags.
Proof.
  induction 1 as [|i rest Hi _ IH]; [eexists; reflexivity|].
  cbn [PolygonTriangulation.initConvex].
  destruct (PT_neighbours points i Hi) as [-> ->].
  destruct (lookup_lt_is_Some_2 points ((i + length points - 1) mod length points))
    as [a ->]; [apply Nat.mod_upper_bound; lia|].
  destruct (lookup_lt_is_Some_2 points i Hi) as [b ->].
  destruct (lookup_lt_is_Some_2 points ((i + 1) mod length points))
    as [c ->]; [apply Nat.mod_upper_bound; lia|].
  destruct (PT_ccw_returns a b c) as [r ->]. destruct IH as [flags ->].
  eexists. reflexivity.
Qed.

Lemma PT_at_index_point (points : list coords) (remainingVertices : list nat) (k : Z) :
  List.Forall (fun v => (v < length points)%nat) remainingVertices ->
  0 <= k < Z.of_nat (length remainingVertices) ->
  exists c, PolygonTriangulation.point_at points
              (PolygonTriangulation.at_index remainingVertices k) = Some c.
Proof.
  intros Hall Hk. destruct (PT_at_index_Some remainingVertices k Hk) as (x & -> & Hx).
  rewrite List.Forall_forall in Hall.
  destruct (lookup_lt_is_Some_2 points x (Hall x Hx)) as [c Hc].
  exists c. exact Hc.
Qed.

(** The clipping of a convex ear removes the same index and emits the same
    triangle as the plain clipping; it only rewrites flags besides. *)
Lemma PT_clipConvex_returns (points : list coords) (isConvex : list bool)
    (remainingVertices : list nat) (i vertex : nat) :
  List.Forall (fun v => (v < length points)%nat) remainingVertices ->
  (2 <= length remainingVertices)%nat ->
  remainingVertices !! i = Some vertex ->
  exists (t : PolygonTriangulation.PTriangle) (isConvex' : list bool),
    PolygonTriangulation.clipAt points remainingVertices i vertex
    = PolygonTriangulation.Clipped (base.delete i remainingVertices) t /\
    PolygonTriangulation.clipConvex points isConvex remainingVertices i vertex
    = Ret (PolygonTriangulation.IClipped (base.delete i remainingVertices) t isConvex').
Proof.
  intros Hall Hlen Hi.
  assert (Hilt : (i < length remainingVertices)%nat) by (apply lookup_lt_is_Some; eauto).
  destruct (PT_clipAt_area points remainingVertices i vertex Hall Hlen Hi)
    as (a & v & b & Hclip & Ha & Hv & Hb & _).
  unfold PolygonTriangulation.clipConvex. cbv zeta. rewrite Ha, Hb, Hv.
  set (len := Z.of_nat (length remainingVertices)) in *.
  assert (HprevIdx : 0 <= Z.rem (Z.of_nat i - 1 + len) len < len)
    by (apply Z.rem_bound_pos; lia).
  assert (HnextIdx : 0 <= Z.rem (Z.of_nat i + 1) len < len)
    by (apply Z.rem_bound_pos; lia).
  assert (E1 : exists flags1,
             (if Z.rem (Z.of_nat i - 1 + len) len >? 0
              then obind (PolygonTriangulation.isTriangleOrientedCCW
                            (PolygonTriangulation.point_at points
                               (PolygonTriangulation.at_index remainingVertices
                                  (Z.rem (Z.of_nat i - 1 + len) len - 1)))
                            (Some a) (Some b))
                         (fun b0 => Ret (PolygonTriangulation.array_set
                                           (PolygonTriangulation.at_index remainingVertices
                                              (Z.rem (Z.of_nat i - 1 + len) len))
                                           b0 isConvex))
              else Ret isConvex) = Ret flags1).
  { destruct (Z.gtb_spec (Z.rem (Z.of_nat i - 1 + len) len) 0) as [Hpos|Hpos];
      [|eexists; reflexivity].
    destruct (PT_at_index_point points remainingVertices
                (Z.rem (Z.of_nat i - 1 + len) len - 1) Hall) as [c ->]; [fold len; lia|].
    destruct (PT_ccw_returns c a b) as [r ->]. eexists. reflexivity. }
  destruct E1 as [flags1 ->]. cbn [obind].
  assert (E2 : exists flags2,
             (if Z.rem (Z.of_nat i + 1) len <? len - 1
              then obind (PolygonTriangulation.isTriangleOrientedCCW (Some a) (Some b)
                            (PolygonTriangulation.point_at points
                               (PolygonTriangulation.at_index remainingVertices
                                  (Z.rem (Z.of_nat i + 1) len + 1))))
                         (fun b0 => Ret (PolygonTriangulation.array_set
                                           (PolygonTriangulation.at_index remainingVertices
                                              (Z.rem (Z.of_nat i + 1) len))
                                           b0 flags1))
              else Ret flags1) = Ret flags2).
  { destruct (Z.ltb_spec (Z.rem (Z.of_nat i + 1) len) (len - 1)) as [Hlt|Hlt];
      [|eexists; reflexivity].
    destruct (PT_at_index_point points remainingVertices
                (Z.rem (Z.of_nat i + 1) len + 1) Hall) as [c ->]; [fold len; lia|].
    destruct (PT_ccw_returns a b c) as [r ->]. eexists. reflexivity. }
  destruct E2 as [flags2 ->]. cbn [obind].
  exists (Some a, Some v, Some b), flags2. split; [exact Hclip|reflexivity].
Qed.

Lemma PT_convexScan_ear (points : list coords) (isConvex : list bool)
    (remainingVertices : list nat) :
  List.Forall (fun v => (v < length points)%nat) remainingVertices ->
  (2 <= length remainingVertices)%nat ->
  forall (todo : list nat) (i : nat),
    drop i remainingVertices = todo ->
    PolygonTriangulation.convexScan points isConvex remainingVertices i todo
    = Ret PolygonTriangulation.INoEar \/
    exists (j vertex : nat) (t : PolygonTriangulation.PTriangle) (isConvex' : list bool),
      remainingVertices !! j = Some vertex /\
      PolygonTriangulation.isEar points vertex (Some remainingVertices) = Ret true /\
      PolygonTriangulation.clipAt points remainingVertices j vertex
      = PolygonTriangulation.Clipped (base.delete j remainingVertices) t /\
      PolygonTriangulation.convexScan points isConvex remainingVertices i todo
      = Ret (PolygonTriangulation.IClipped (base.delete j remainingVertices) t isConvex').
Proof.
  intros Hall Hlen. induction todo as [|vertex todo IH]; intros i Hdrop; [now left|].
  assert (Hi : remainingVertices !! i = Some vertex).
  { rewrite <- (Nat.add_0_r i), <- lookup_drop, Hdrop. reflexivity. }
  assert (Hnext : drop (S i) remainingVertices = todo).
  { rewrite (drop_S _ _ _ Hi) in Hdrop. congruence. }
  cbn [PolygonTriangulation.convexScan].
  destruct (default false (isConvex !! vertex)).
  - destruct (PT_isEar_returns points remainingVertices vertex Hall) as [[|] Hear].
    { apply list_elem_of_In. eapply list_elem_of_lookup_2. eassumption. }
    + right. rewrite Hear. cbn [obind].
      destruct (PT_clipConvex_returns points isConvex remainingVertices i vertex Hall Hlen Hi)
        as (t & flags & Hclip & Hrun).
      exists i, vertex, t, flags. tauto.
    + rewrite Hear. cbn [obind]. apply IH. exact Hnext.
  - cbn [obind]. apply IH. exact Hnext.
Qed.

Lemma PT_concaveScan_ear (points : list coords) (isConvex : list bool)
    (remainingVertices : list nat) :
  List.Forall (fun v => (v < length points)%nat) remainingVertices ->
  forall (todo : list nat) (i : nat),
    drop i remainingVertices = todo ->
    PolygonTriangulation.concaveScan points isConvex remainingVertices i todo
    = Ret PolygonTriangulation.NoEar \/
    exists (j vertex : nat),
      remainingVertices !! j = Some vertex /\
      PolygonTriangulation.isEar points vertex (Some remainingVertices) = Ret true /\
      PolygonTriangulation.concaveScan points isConvex remainingVertices i todo
      = Ret (PolygonTriangulation.clipAt points remainingVertices j vertex).
Proof.
  intros Hall. induction todo as [|vertex todo IH]; intros i Hdrop; [now left|].
  assert (Hi : remainingVertices !! i = Some vertex).
  { rewrite <- (Nat.add_0_r i), <- lookup_drop, Hdrop. reflexivity. }
  assert (Hnext : drop (S i) remainingVertices = todo).
  { rewrite (drop_S _ _ _ Hi) in Hdrop. congruence. }
  cbn [PolygonTriangulation.concaveScan].
  destruct (negb (default false (isConvex !! vertex))).
  - destruct (PT_isEar_returns points remainingVertices vertex Hall) as [[|] Hear].
    { apply list_elem_of_In. eapply list_elem_of_lookup_2. eassumption. }
    + right. exists i, vertex. rewrite Hear. cbn [obind]. tauto.
    + rewrite Hear. cbn [obind]. apply IH. exact Hnext.
  - cbn [obind]. apply IH. exact Hnext.
Qed.

Lemma PT_improvedLoop_spec (points : list coords) :
  forall (fuel : nat) (isConvex : list bool) (remainingVertices : list nat)
         (triangles : list PolygonTriangulation.PTriangle) (s : Z),
    List.Forall (fun v => (v < length points)%nat) remainingVertices ->
    NoDup remainingVertices ->
    sumArea2 triangles = Some s ->
    List.Forall (fun t => List.Forall safe_coords points -> positiveTriangle t) triangles ->
    (0 < fuel)%nat -> (length remainingVertices < fuel + 3)%nat ->
    PolygonTriangulation.improvedLoop fuel points isConvex remainingVertices triangles
    = Throw NoEarFoundError \/
    exists remainingVertices' triangles',
      PolygonTriangulation.improvedLoop fuel points isConvex remainingVertices triangles
      = Ret (remainingVertices', triangles') /\
      List.Forall (fun v => (v < length points)%nat) remainingVertices' /\
      (exists s', sumArea2 triangles' = Some s' /\
                  s' + shoelace2 (polygonOf points remainingVertices')
                  = s + shoelace2 (polygonOf points remainingVertices)) /\
      List.Forall (fun t => List.Forall safe_coords points -> positiveTriangle t) triangles' /\
      (length remainingVertices' + length triangles'
       = length remainingVertices + length triangles)%nat /\
      ((3 <= length remainingVertices)%nat -> length remainingVertices' = 3%nat).
Proof.
  induction fuel as [|fuel IH]; intros flags rem tris s Hall Hnd Hs Hpos Hfuel0 Hfuel;
    [lia|].
  cbn [PolygonTriangulation.improvedLoop].
  destruct (Nat.ltb_spec 3 (length rem)) as [Hlen|Hlen].
  - assert (Hstep : forall j vertex t flags',
              rem !! j = Some vertex ->
              PolygonTriangulation.isEar points vertex (Some rem) = Ret true ->
              PolygonTriangulation.clipAt points rem j vertex
              = PolygonTriangulation.Clipped (base.delete j rem) t ->
              PolygonTriangulation.improvedLoop fuel points flags' (base.delete j rem)
                (tris ++ [t]) = Throw NoEarFoundError \/
              exists rem' tris',
                PolygonTriangulation.improvedLoop fuel points flags' (base.delete j rem)
                  (tris ++ [t]) = Ret (rem', tris') /\
                List.Forall (fun v => (v < length points)%nat) rem' /\
                (exists s', sumArea2 tris' = Some s' /\
                            s' + shoelace2 (polygonOf points rem')
                            = s + shoelace2 (polygonOf points rem)) /\
                List.Forall (fun t => List.Forall safe_coords points -> positiveTriangle t) tris' /\
                (length rem' + length tris' = length rem + length tris)%nat /\
                ((3 <= length rem)%nat -> length rem' = 3%nat)).
    { intros j vertex t flags' Hj Hear Hclip.
      destruct (PT_clip_step points rem j vertex Hall Hnd ltac:(lia) Hj Hear)
        as (t0 & x & Hclip0 & Ht & Hx & Harea).
      assert (t0 = t) by congruence. subst t0.
      assert (Hdel : length (base.delete j rem) = (length rem - 1)%nat).
      { apply length_delete. eauto. }
      destruct (IH flags' (base.delete j rem) (tris ++ [t]) (s + x))
        as [E|(rem' & tris' & E & Hall' & (s' & Hs' & Hsum) & Hpos' & Hcount & Hthree)].
      + apply Forall_delete. exact Hall.
      + exact (sublist_NoDup _ _ Hnd (sublist_delete rem j)).
      + apply sumArea2_snoc; assumption.
      + apply List.Forall_app. split; [exact Hpos|].
        constructor; [|constructor]. intros Hsafe. exists x. split; [exact Ht | exact (Hx Hsafe)].
      + lia.
      + lia.
      + now left.
      + right. exists rem', tris'. split; [exact E|]. split; [exact Hall'|].
        split; [exists s'; split; [exact Hs'|lia]|]. split; [exact Hpos'|].
        rewrite Hdel, length_app in Hcount. cbn [length] in Hcount.
        split; [lia|]. intros _. apply Hthree. lia. }
    destruct (PT_convexScan_ear points flags rem Hall ltac:(lia) rem 0 (drop_0 rem))
      as [E|(j & vertex & t & flags' & Hj & Hear & Hclip & E)]; rewrite E; cbn [obind].
    + destruct (PT_concaveScan_ear points flags rem Hall rem 0 (drop_0 rem))
        as [E'|(j & vertex & Hj & Hear & E')]; rewrite E'; cbn [obind]; [now left|].
      destruct (PT_clip_step points rem j vertex Hall Hnd ltac:(lia) Hj Hear)
        as (t & x & Hclip & _).
      rewrite Hclip. apply (Hstep j vertex t flags Hj Hear Hclip).
    + apply (Hstep j vertex t flags' Hj Hear Hclip).
  - right. exists rem, tris. split; [reflexivity|]. split; [exact Hall|].
    split; [exists s; split; [exact Hs|reflexivity]|]. split; [exact Hpos|].
    split; [reflexivity|]. lia.
Qed.

(** What [improvedTriangulation] does on three points or more. *)
Lemma PT_improvedTriangulation_spec (points : list coords) :
  (3 <= length points)%nat ->
  PolygonTriangulation.improvedTriangulation points = Throw NoEarFoundError \/
  exists (clipped : list PolygonTriangulation.PTriangle)
         (final : PolygonTriangulation.PTriangle) (s x : Z),
    PolygonTriangulation.improvedTriangulation points = Ret (clipped ++ [final]) /\
    length (clipped ++ [final]) = (length points - 2)%nat /\
    List.Forall (fun t => List.Forall safe_coords points -> positiveTriangle t) clipped /\
    sumArea2 clipped = Some s /\ triangleArea2 final = Some x /\
    s + x = shoelace2 points.
Proof.
  intros Hlen. unfold PolygonTriangulation.improvedTriangulation. cbv zeta.
  replace (length points <? 3)%nat with false by (symmetry; apply Nat.ltb_ge; lia).
  destruct (PT_initConvex_returns points (seq 0 (length points)) (PT_seq_valid points))
    as [flags ->]. cbn [obind].
  destruct (PT_improvedLoop_spec points (length points) flags (seq 0 (length points)) [] 0
              (PT_seq_valid points) (NoDup_seq 0 (length points)) eq_refl
              (List.Forall_nil _) ltac:(lia) ltac:(rewrite length_seq; lia))
    as [->|(rem' & tris' & -> & Hall' & (s' & Hs' & Hsum) & Hpos' & Hcount & Hthree)];
    [now left|].
  right. cbn [obind]. rewrite length_seq in Hcount, Hthree. specialize (Hthree Hlen).
  rewrite polygonOf_seq in Hsum.
  exists tris', (PolygonTriangulation.finalTriangle points rem'), s',
    (shoelace2 (polygonOf points rem')).
  split; [reflexivity|]. split; [rewrite length_app; cbn [length] in *; lia|].
  split; [exact Hpos'|]. split; [exact Hs'|].
  split; [apply PT_finalTriangle_area; assumption|]. lia.
Qed.

(** X16. [improvedTriangulation] always terminates: for three points or more
    it either throws "No ear found" or returns exactly [n - 2] triangles; it
    never fails on an undefined point. *)
Theorem PT_improvedTriangulation_total (points : list coords) :
  (3 <= length points)%nat ->
  PolygonTriangulation.improvedTriangulation points = Throw NoEarFoundError \/
  exists triangles,
    PolygonTriangulation.improvedTriangulation points = Ret triangles /\
    length triangles = (length points - 2)%nat.
Proof.
  intros Hlen.
  destruct (PT_improvedTriangulation_spec points Hlen)
    as [E|(clipped & final & s & x & E & Hcount & _)]; [now left|].
  right. exists (clipped ++ [final]). split; assumption.
Qed.

Lemma PT_improvedTriangulation_total_witness :
  PolygonTriangulation.improvedTriangulation (map slice square) = Throw NoEarFoundError \/
  exists triangles,
    PolygonTriangulation.improvedTriangulation (map slice square) = Ret triangles /\
    length triangles = (length (map slice square) - 2)%nat.
Proof.
  apply (PT_improvedTriangulation_total (map slice square)). cbn. lia.
Defined.

(** X17. Whenever [improvedTriangulation] returns for three points or more,
    the signed areas of its triangles add up to the signed area of the input
    polygon (shoelace formula, both doubled); and for coordinates in the
    range of exact arithmetic every triangle but the last has a strictly
    positive signed area. *)
Theorem PT_improvedTriangulation_area (points : list coords)
    (triangles : list PolygonTriangulation.PTriangle) :
  (3 <= length points)%nat ->
  PolygonTriangulation.improvedTriangulation points = Ret triangles ->
  sumArea2 triangles = Some (shoelace2 points) /\
  (List.Forall safe_coords points ->
   exists (clipped : list PolygonTriangulation.PTriangle)
          (final : PolygonTriangulation.PTriangle),
     triangles = clipped ++ [final] /\ List.Forall positiveTriangle clipped).
Proof.
  intros Hlen Hrun.
  destruct (PT_improvedTriangulation_spec points Hlen)
    as [E|(clipped & final & s & x & E & _ & Hpos & Hs & Hx & Hsum)]; [congruence|].
  assert (triangles = clipped ++ [final]) by congruence. subst triangles.
  split.
  - rewrite (sumArea2_snoc clipped final s x Hs Hx). f_equal. exact Hsum.
  - intros Hsafe. exists clipped, final. split; [reflexivity|].
    eapply List.Forall_impl; [|exact Hpos]. intros t Ht. exact (Ht Hsafe).
Qed.

Lemma PT_improvedTriangulation_area_witness :
  sumArea2 [(Some (0, 4), Some (0, 0), Some (4, 0));
            (Some (4, 0), Some (4, 4), Some (0, 4))]
  = Some (shoelace2 (map slice square)) /\
  exists (clipped : list PolygonTriangulation.PTriangle)
         (final : PolygonTriangulation.PTriangle),
    [(Some (0, 4), Some (0, 0), Some (4, 0)); (Some (4, 0), Some (4, 4), Some (0, 4))]
    = clipped ++ [final] /\ List.Forall positiveTriangle clipped.
Proof.
  destruct (PT_improvedTriangulation_area (map slice square)
              [(Some (0, 4), Some (0, 0), Some (4, 0));
               (Some (4, 0), Some (4, 4), Some (0, 4))]) as [Harea Hpos];
    [cbn; lia | reflexivity |].
  split; [exact Harea|]. apply Hpos. repeat constructor; solve_safe.
Defined.

(** *** Instances *)

Lemma reclassify_never_removes_witness :
  size new_CircularList <= size (mkCircularList (Some 1%nat) 1) /\
  size new_CircularList <= size new_CircularList.
Proof.
  eapply (reclassify_never_removes (Some 1%nat) new_CircularList new_CircularList
            (boundary_heap square_rev)).
  vm_compute. reflexivity.
Defined.

Lemma Draft_createDoublyLinkedList_circular_witness :
  exists (l : CircularList) (h : heap),
    Draft.boundary triangle3 [] = Ret (l, h) /\ size l = 3 /\
    follow h 3 0 = Some 0%nat.
Proof.
  destruct (Draft_createDoublyLinkedList_circular triangle3)
    as (l & h & E & _ & Hs & _ & _ & Hf & _); [cbn; lia|].
  exists l, h. split; [exact E|]. split; [exact Hs|]. apply (Hf 0%nat). cbn. lia.
Defined.

Lemma PT_short_input_returns_empty_witness :
  PolygonTriangulation.naiveTriangulation [(0, 0); (1, 0)] = Ret [] /\
  PolygonTriangulation.improvedTriangulation [(0, 0); (1, 0)] = Ret [].
Proof.
  apply (PT_short_input_returns_empty [(0, 0); (1, 0)]). cbn. lia.
Defined.

(** *** The doubly-connected edge list *)

Lemma DCEL_edgeRef_lt (d : DCEL.t) (k : nat) :
  (k < length (DCEL.halfEdges d))%nat -> DCEL.edgeRef d k = Some k.
Proof.
  intros H. unfold DCEL.edgeRef.
  destruct (Nat.ltb_spec k (length (DCEL.halfEdges d))); [reflexivity | lia].
Qed.

Lemma DCEL_setEdge_alter (upd : DCEL.HalfEdge -> DCEL.HalfEdge) (d : DCEL.t) (k : nat) :
  (k < length (DCEL.halfEdges d))%nat ->
  DCEL.setEdge upd (DCEL.edgeRef d k) d =
  Ret (DCEL.mkDCEL (DCEL.vstore d) (DCEL.vertices d)
         (alter upd k (DCEL.halfEdges d)) (DCEL.faces d)).
Proof.
  intros H. rewrite DCEL_edgeRef_lt by exact H. unfold DCEL.setEdge.
  destruct (lookup_lt_is_Some_2 _ _ H) as [he Hhe]. rewrite Hhe.
  do 2 f_equal. apply list_eq. intros j.
  destruct (decide (j = k)) as [-> | Hne].
  - rewrite list_lookup_insert_eq by exact H.
    rewrite list_lookup_alter_eq, Hhe. reflexivity.
  - rewrite list_lookup_insert_ne by congruence.
    rewrite list_lookup_alter_ne by congruence. reflexivity.
Qed.

Lemma DCEL_connectEdges_spec (n k : nat) : forall (d : DCEL.t) (i : nat),
  (i + k <= n)%nat -> (2 * n <= length (DCEL.halfEdges d))%nat ->
  exists H' : list DCEL.HalfEdge,
    DCEL.connectEdges n d i k =
      Ret (DCEL.mkDCEL (DCEL.vstore d) (DCEL.vertices d) H' (DCEL.faces d)) /\
    length H' = length (DCEL.halfEdges d) /\
    (forall j, (j < 2 * i \/ 2 * (i + k) <= j)%nat -> H' !! j = DCEL.halfEdges d !! j) /\
    (forall i', (i <= i' < i + k)%nat ->
       H' !! (2 * i')%nat =
         (fun he => DCEL.mkHalfEdge (DCEL.origin he) (DCEL.twin he) (DCEL.face he)
                      (Some (2 * ((i' + 1) mod n))%nat)
                      (Some (2 * ((i' + n - 1) mod n))%nat))
           <$> DCEL.halfEdges d !! (2 * i')%nat /\
       H' !! (2 * i' + 1)%nat =
         (fun he => DCEL.mkHalfEdge (DCEL.origin he) (DCEL.twin he) (DCEL.face he)
                      (Some (2 * ((i' + n - 1) mod n) + 1)%nat)
                      (Some (2 * ((i' + 1) mod n) + 1)%nat))
           <$> DCEL.halfEdges d !! (2 * i' + 1)%nat).
Proof.
  induction k as [|k IH]; intros d i Hik Hlen.
  - exists (DCEL.halfEdges d). destruct d. cbn. repeat split; intros; lia.
  - assert (Hn : (0 < n)%nat) by lia.
    pose proof (Nat.mod_upper_bound (i + 1) n ltac:(lia)) as Hs.
    pose proof (Nat.mod_upper_bound (i + n - 1) n ltac:(lia)) as Hp.
    cbn [DCEL.connectEdges].
    rewrite (DCEL_edgeRef_lt d (2 * ((i + 1) mod n))) by lia.
    rewrite DCEL_setEdge_alter by lia. cbn [obind].
    rewrite DCEL_edgeRef_lt by (cbn [DCEL.halfEdges]; rewrite !length_alter; lia).
    rewrite DCEL_setEdge_alter by (cbn [DCEL.halfEdges]; rewrite !length_alter; lia).
    cbn [obind DCEL.halfEdges DCEL.vstore DCEL.vertices DCEL.faces].
    rewrite DCEL_edgeRef_lt by (cbn [DCEL.halfEdges]; rewrite !length_alter; lia).
    rewrite DCEL_setEdge_alter by (cbn [DCEL.halfEdges]; rewrite !length_alter; lia).
    cbn [obind DCEL.halfEdges DCEL.vstore DCEL.vertices DCEL.faces].
    rewrite DCEL_edgeRef_lt by (cbn [DCEL.halfEdges]; rewrite !length_alter; lia).
    rewrite DCEL_setEdge_alter by (cbn [DCEL.halfEdges]; rewrite !length_alter; lia).
    cbn [obind DCEL.halfEdges DCEL.vstore DCEL.vertices DCEL.faces].
    match goal with |- context [DCEL.connectEdges n ?d4 (S i) k] =>
      destruct (IH d4 (S i) ltac:(lia)
                  ltac:(cbn [DCEL.halfEdges]; rewrite !length_alter; lia))
        as (H' & Hrun & Hl & Hout & Hin) end.
    cbn [DCEL.halfEdges DCEL.vstore DCEL.vertices DCEL.faces] in *.
    exists H'. split; [exact Hrun|]. rewrite !length_alter in Hl.
    split; [exact Hl|]. split.
    + intros j Hj. rewrite Hout by lia.
      rewrite !list_lookup_alter_ne by lia. reflexivity.
    + intros i' Hi'. destruct (decide (i' = i)) as [-> | Hne].
      * rewrite !Hout by lia.
        rewrite (list_lookup_alter_ne _ _ (2 * i + 1)%nat (2 * i)%nat) by lia.
        rewrite (list_lookup_alter_ne _ _ (2 * i + 1)%nat (2 * i)%nat) by lia.
        rewrite !list_lookup_alter_eq.
        rewrite !list_lookup_alter_ne by lia.
        destruct (DCEL.halfEdges d !! (2 * i)%nat), (DCEL.halfEdges d !! (2 * i + 1)%nat);
          cbn; split; reflexivity.
      * destruct (Hin i' ltac:(lia)) as [He Ho]. rewrite He, Ho.
        rewrite !list_lookup_alter_ne by lia. split; reflexivity.
Qed.

Lemma DCEL_setFaces_spec (fi fo : option nat) (k : nat) : forall (d : DCEL.t) (i : nat),
  (2 * (i + k) <= length (DCEL.halfEdges d))%nat ->
  exists H' : list DCEL.HalfEdge,
    DCEL.setFaces fi fo d i k =
      Ret (DCEL.mkDCEL (DCEL.vstore d) (DCEL.vertices d) H' (DCEL.faces d)) /\
    length H' = length (DCEL.halfEdges d) /\
    (forall j, (j < 2 * i \/ 2 * (i + k) <= j)%nat -> H' !! j = DCEL.halfEdges d !! j) /\
    (forall i', (i <= i' < i + k)%nat ->
       H' !! (2 * i')%nat = DCEL.with_face fi <$> DCEL.halfEdges d !! (2 * i')%nat /\
       H' !! (2 * i' + 1)%nat = DCEL.with_face fo <$> DCEL.halfEdges d !! (2 * i' + 1)%nat).
Proof.
  induction k as [|k IH]; intros d i Hlen.
  - exists (DCEL.halfEdges d). destruct d. cbn. repeat split; intros; lia.
  - cbn [DCEL.setFaces].
    rewrite DCEL_setEdge_alter by lia. cbn [obind].
    rewrite DCEL_setEdge_alter by (cbn [DCEL.halfEdges]; rewrite !length_alter; lia).
    cbn [obind DCEL.halfEdges DCEL.vstore DCEL.vertices DCEL.faces].
    match goal with |- context [DCEL.setFaces fi fo ?d2 (S i) k] =>
      destruct (IH d2 (S i)
                  ltac:(cbn [DCEL.halfEdges]; rewrite !length_alter; lia))
        as (H' & Hrun & Hl & Hout & Hin) end.
    cbn [DCEL.halfEdges DCEL.vstore DCEL.vertices DCEL.faces] in *.
    exists H'. split; [exact Hrun|]. rewrite !length_alter in Hl.
    split; [exact Hl|]. split.
    + intros j Hj. rewrite Hout by lia.
      rewrite !list_lookup_alter_ne by lia. reflexivity.
    + intros i' Hi'. destruct (decide (i' = i)) as [-> | Hne].
      * rewrite !Hout by lia.
        rewrite (list_lookup_alter_ne _ _ (2 * i + 1)%nat (2 * i)%nat) by lia.
        rewrite !list_lookup_alter_eq.
        rewrite !list_lookup_alter_ne by lia. split; reflexivity.
      * destruct (Hin i' ltac:(lia)) as [He Ho]. rewrite He, Ho.
        rewrite !list_lookup_alter_ne by lia. split; reflexivity.
Qed.

Lemma DCEL_newEdges_length (n V k : nat) : forall L i,
  length (DCEL.newEdges n V L i k) = (2 * k)%nat.
Proof.
  induction k as [|k IH]; intros L i; cbn [DCEL.newEdges length]; [reflexivity|].
  rewrite IH. lia.
Qed.

Lemma DCEL_newEdges_lookup (n V k : nat) : forall L i j, (j < k)%nat ->
  DCEL.newEdges n V L i k !! (2 * j)%nat =
    Some (DCEL.mkHalfEdge (Some (V + (i + j))%nat) (Some (L + 2 * j + 1)%nat) None None None) /\
  DCEL.newEdges n V L i k !! (2 * j + 1)%nat =
    Some (DCEL.mkHalfEdge (Some (V + (i + j + 1) mod n)%nat) (Some (L + 2 * j)%nat)
            None None None).
Proof.
  induction k as [|k IH]; intros L i j Hj; [lia|].
  cbn [DCEL.newEdges]. destruct j as [|j].
  - cbn. rewrite !Nat.add_0_r. split; [do 3 f_equal; lia | reflexivity].
  - replace (2 * S j)%nat with (S (S (2 * j))) by lia.
    replace (S (S (2 * j)) + 1)%nat with (S (S (2 * j + 1))) by lia.
    cbn [lookup list_lookup].
    destruct (IH (S (S L)) (S i) j ltac:(lia)) as [He Ho]. 
    split.
    + etransitivity; [exact He|]. do 2 f_equal; f_equal; lia.
    + etransitivity; [exact Ho|]. do 2 f_equal; f_equal; try lia.
      f_equal. f_equal. lia.
Qed.

Lemma DCEL_createEdges_spec (n V k : nat) : forall (d : DCEL.t) (i : nat),
  (i + k <= n)%nat -> (V + n <= length (DCEL.vstore d))%nat ->
  DCEL.vertices d = seq V n ->
  exists VS' : list DCEL.Vertex,
    DCEL.createEdges n d i k =
      Ret (DCEL.mkDCEL VS' (DCEL.vertices d)
             (DCEL.halfEdges d ++ DCEL.newEdges n V (length (DCEL.halfEdges d)) i k)
             (DCEL.faces d)) /\
    length VS' = length (DCEL.vstore d) /\
    forall v, VS' !! v =
      (fun vert =>
         if (V + i <=? v)%nat && (v <? V + i + k)%nat
         then DCEL.mkVertex (DCEL.x vert) (DCEL.y vert)
                (Some (length (DCEL.halfEdges d) + 2 * (v - V - i))%nat)
         else vert) <$> DCEL.vstore d !! v.
Proof.
  induction k as [|k IH]; intros d i Hik Hlen Hv.
  - exists (DCEL.vstore d). cbn [DCEL.createEdges DCEL.newEdges]. rewrite app_nil_r.
    split; [destruct d; reflexivity|]. split; [reflexivity|].
    intros v. rewrite Nat.add_0_r.
    destruct (DCEL.vstore d !! v) as [w|]; [|reflexivity].
    cbn [fmap option_fmap option_map].
    destruct (Nat.leb_spec (V + i) v), (Nat.ltb_spec v (V + i));
      cbn [andb]; try lia; reflexivity.
  - cbn [DCEL.createEdges].
    assert (Hm : ((i + 1) mod n < n)%nat) by (apply Nat.mod_upper_bound; lia).
    assert (H1 : DCEL.vertices d !! i = Some (V + i)%nat)
      by (rewrite Hv; apply lookup_seq_lt; lia).
    assert (H2 : DCEL.vertices d !! ((i + 1) mod n)%nat = Some (V + (i + 1) mod n)%nat)
      by (rewrite Hv; apply lookup_seq_lt; lia).
    rewrite H1, H2.
    destruct (lookup_lt_is_Some_2 (DCEL.vstore d) (V + i) ltac:(lia)) as [vert Hvert].
    rewrite Hvert.
    match goal with |- context [DCEL.createEdges n ?d1 (S i) k] =>
      destruct (IH d1 (S i) ltac:(lia)
                  ltac:(cbn [DCEL.vstore]; rewrite length_insert; lia)
                  ltac:(cbn [DCEL.vertices]; exact Hv))
        as (VS' & Hrun & Hl & Hin) end.
    cbn [DCEL.halfEdges DCEL.vstore DCEL.vertices DCEL.faces] in *.
    exists VS'. split.
    { rewrite Hrun. rewrite <- app_assoc. cbn [app DCEL.newEdges].
      rewrite length_app. cbn [length].
      replace (length (DCEL.halfEdges d) + 2)%nat
        with (S (S (length (DCEL.halfEdges d)))) by lia.
      reflexivity. }
    rewrite length_insert in Hl. split; [exact Hl|].
    intros v. rewrite Hin. rewrite length_app. cbn [length].
    destruct (decide (v = (V + i)%nat)) as [-> | Hne].
    + rewrite list_lookup_insert_eq by lia. rewrite Hvert. cbn [fmap option_fmap option_map].
      destruct (Nat.leb_spec (V + S i) (V + i)); [lia|].
      destruct (Nat.leb_spec (V + i) (V + i)); [|lia].
      destruct (Nat.ltb_spec (V + i) (V + i + S k)); [|lia].
      cbn [andb DCEL.x DCEL.y]. do 3 f_equal. lia.
    + rewrite list_lookup_insert_ne by congruence.
      destruct (DCEL.vstore d !! v) as [w|]; [|reflexivity].
      cbn [fmap option_fmap option_map].
      destruct (Nat.leb_spec (V + S i) v), (Nat.leb_spec (V + i) v),
        (Nat.ltb_spec v (V + S i + k)), (Nat.ltb_spec v (V + i + S k));
        cbn [andb]; try lia; try reflexivity.
      do 3 f_equal. lia.
Qed.

Lemma DCEL_createPolygon_spec (d : DCEL.t) (points : list (Z * Z)) :
  let n := length points in
  let L := length (DCEL.halfEdges d) in
  let V := length (DCEL.vstore d) in
  let F := length (DCEL.faces d) in
  let made := DCEL.halfEdges d ++ DCEL.newEdges n V L 0 n in
  exists (VS' : list DCEL.Vertex) (H' : list DCEL.HalfEdge),
    DCEL.createPolygon d points =
      Ret (DCEL.mkDCEL VS' (seq V n) H'
             (DCEL.faces d ++
                [DCEL.mkFace (if (1 <? L + 2 * n)%nat then Some 1%nat else None) [];
                 DCEL.mkFace (if (0 <? L + 2 * n)%nat then Some 0%nat else None) []])) /\
    length VS' = (V + n)%nat /\
    (forall v, (v < V)%nat -> VS' !! v = DCEL.vstore d !! v) /\
    (forall i p, points !! i = Some p ->
       VS' !! (V + i)%nat = Some (DCEL.mkVertex (fst p) (snd p) (Some (L + 2 * i)%nat))) /\
    length H' = (L + 2 * n)%nat /\
    (forall j, (2 * n <= j)%nat -> H' !! j = made !! j) /\
    (forall i, (i < n)%nat ->
       H' !! (2 * i)%nat =
         (fun he => DCEL.mkHalfEdge (DCEL.origin he) (DCEL.twin he) (Some (S F))
                      (Some (2 * ((i + 1) mod n))%nat)
                      (Some (2 * ((i + n - 1) mod n))%nat))
           <$> made !! (2 * i)%nat /\
       H' !! (2 * i + 1)%nat =
         (fun he => DCEL.mkHalfEdge (DCEL.origin he) (DCEL.twin he) (Some F)
                      (Some (2 * ((i + n - 1) mod n) + 1)%nat)
                      (Some (2 * ((i + 1) mod n) + 1)%nat))
           <$> made !! (2 * i + 1)%nat).
Proof.
  intros n L V F made. unfold DCEL.createPolygon. fold n.
  match goal with |- context [DCEL.createEdges n ?d0 0 n] =>
    destruct (DCEL_createEdges_spec n V n d0 0%nat ltac:(lia)
                ltac:(cbn [DCEL.vstore]; rewrite length_app, length_fmap; fold V n; lia)
                eq_refl)
      as (VS' & Hrun1 & HlV & HVS) end.
  rewrite Hrun1. clear Hrun1.
  cbn [obind DCEL.halfEdges DCEL.vstore DCEL.vertices DCEL.faces] in HlV, HVS |- *.
  fold L V in HlV, HVS |- *. fold made.
  assert (Hmade : length made = (L + 2 * n)%nat)
    by (unfold made; rewrite length_app, DCEL_newEdges_length; reflexivity).
  match goal with |- context [DCEL.connectEdges n ?d1 0 n] =>
    destruct (DCEL_connectEdges_spec n n d1 0%nat ltac:(lia)
                ltac:(cbn [DCEL.halfEdges]; lia))
      as (H2 & Hrun2 & Hl2 & Hout2 & Hin2) end.
  rewrite Hrun2. clear Hrun2.
  cbn [obind DCEL.halfEdges DCEL.vstore DCEL.vertices DCEL.faces] in Hl2, Hout2, Hin2 |- *.
  match goal with |- context [DCEL.setFaces ?fi ?fo ?d2 0 n] =>
    destruct (DCEL_setFaces_spec fi fo n d2 0%nat
                ltac:(cbn [DCEL.halfEdges]; lia))
      as (H3 & Hrun3 & Hl3 & Hout3 & Hin3) end.
  rewrite Hrun3. clear Hrun3.
  cbn [obind DCEL.halfEdges DCEL.vstore DCEL.vertices DCEL.faces] in Hl3, Hout3, Hin3 |- *.
  exists VS', H3. unfold DCEL.edgeRef. cbn [DCEL.halfEdges]. rewrite Hl2, Hmade.
  fold F. split; [reflexivity|].
  rewrite length_app, length_fmap in HlV. fold V n in HlV.
  split; [exact HlV|]. split; [|split; [|split; [|split]]].
  - intros v Hv. rewrite HVS. rewrite lookup_app_l by (fold V; lia).
    destruct (DCEL.vstore d !! v) as [w|]; [|reflexivity].
    cbn [fmap option_fmap option_map].
    destruct (Nat.leb_spec (V + 0) v); [lia | reflexivity].
  - intros i p Hp. pose proof (lookup_lt_Some _ _ _ Hp) as Hi. fold n in Hi.
    rewrite HVS. rewrite lookup_app_r by (fold V; lia). fold V.
    replace (V + i - V)%nat with i by lia.
    rewrite list_lookup_fmap, Hp. cbn [fmap option_fmap option_map].
    destruct (Nat.leb_spec (V + 0) (V + i)); [|lia].
    destruct (Nat.ltb_spec (V + i) (V + 0 + n)); [|lia].
    cbn [andb DCEL.x DCEL.y]. do 3 f_equal. lia.
  - lia.
  - intros j Hj. rewrite Hout3 by lia. apply Hout2. lia.
  - intros i Hi. destruct (Hin3 i ltac:(lia)) as [He Ho].
    destruct (Hin2 i ltac:(lia)) as [He2 Ho2].
    rewrite He, Ho, He2, Ho2.
    destruct (made !! (2 * i)%nat), (made !! (2 * i + 1)%nat); split; reflexivity.
Qed.

Lemma DCEL_succ_pred (n i : nat) : (i < n)%nat ->
  (((i + 1) mod n + n - 1) mod n = i /\ ((i + n - 1) mod n + 1) mod n = i)%nat.
Proof.
  intros Hi. split.
  - destruct (decide (i + 1 = n)%nat) as [He | Hne].
    + rewrite He, Nat.Div0.mod_same. cbn [Nat.add].
      rewrite Nat.mod_small by lia. lia.
    + rewrite (Nat.mod_small (i + 1)) by lia.
      replace (i + 1 + n - 1)%nat with (i + 1 * n)%nat by lia.
      rewrite Nat.Div0.mod_add. apply Nat.mod_small. lia.
  - destruct i as [|i].
    + cbn [Nat.add]. rewrite (Nat.mod_small (n - 1)) by lia.
      replace (n - 1 + 1)%nat with n by lia. apply Nat.Div0.mod_same.
    + replace (S i + n - 1)%nat with (i + 1 * n)%nat by lia.
      rewrite Nat.Div0.mod_add. rewrite (Nat.mod_small i) by lia.
      rewrite Nat.mod_small by lia. lia.
Qed.

Lemma DCEL_createPolygon_fresh (points : list (Z * Z)) :
  let n := length points in
  exists d : DCEL.t,
    DCEL.createPolygon DCEL.new_DCEL points = Ret d /\
    DCEL.vertices d = seq 0 n /\
    DCEL.faces d =
      [DCEL.mkFace (if (1 <? 2 * n)%nat then Some 1%nat else None) [];
       DCEL.mkFace (if (0 <? 2 * n)%nat then Some 0%nat else None) []] /\
    (forall i p, points !! i = Some p ->
       DCEL.vstore d !! i = Some (DCEL.mkVertex (fst p) (snd p) (Some (2 * i)%nat))) /\
    length (DCEL.halfEdges d) = (2 * n)%nat /\
    (forall i, (i < n)%nat ->
       DCEL.halfEdges d !! (2 * i)%nat =
         Some (DCEL.mkHalfEdge (Some i) (Some (2 * i + 1)%nat) (Some 1%nat)
                 (Some (2 * ((i + 1) mod n))%nat)
                 (Some (2 * ((i + n - 1) mod n))%nat)) /\
       DCEL.halfEdges d !! (2 * i + 1)%nat =
         Some (DCEL.mkHalfEdge (Some ((i + 1) mod n)%nat) (Some (2 * i)%nat) (Some 0%nat)
                 (Some (2 * ((i + n - 1) mod n) + 1)%nat)
                 (Some (2 * ((i + 1) mod n) + 1)%nat))).
Proof.
  intros n.
  destruct (DCEL_createPolygon_spec DCEL.new_DCEL points)
    as (VS' & H' & Hrun & HlV & _ & Hv & Hl & _ & Hin).
  cbn [DCEL.new_DCEL DCEL.halfEdges DCEL.vstore DCEL.faces length app Nat.add] in *.
  fold n in Hrun, HlV, Hl, Hin.
  eexists. split; [exact Hrun|]. cbn [DCEL.vertices DCEL.faces DCEL.vstore DCEL.halfEdges].
  split; [reflexivity|]. split; [reflexivity|]. split; [exact Hv|]. split; [exact Hl|].
  intros i Hi. destruct (Hin i Hi) as [He Ho]. rewrite He, Ho.
  destruct (DCEL_newEdges_lookup n 0 n 0 0 i Hi) as [Le Lo].
  rewrite Le, Lo. cbn [fmap option_fmap option_map DCEL.origin DCEL.twin Nat.add].
  split; reflexivity.
Qed.

Lemma DCEL_half (e n : nat) : (e < 2 * n)%nat ->
  exists i, (i < n)%nat /\ (e = 2 * i \/ e = 2 * i + 1)%nat.
Proof.
  intros He. exists (e / 2)%nat.
  pose proof (Nat.div_mod_eq e 2). pose proof (Nat.mod_upper_bound e 2). lia.
Qed.

(** X23. [createPolygon] on a fresh structure returns, with two half-edges
    per point, and [twin] is an involution without fixed point on them: the
    twin of a half-edge lies on the other face and starts where the
    half-edge's successor starts. *)
Theorem DCEL_createPolygon_twins (points : list (Z * Z)) :
  exists d : DCEL.t,
    DCEL.createPolygon DCEL.new_DCEL points = Ret d /\
    length (DCEL.halfEdges d) = (2 * length points)%nat /\
    forall e, (e < 2 * length points)%nat ->
      let t := DCEL.field DCEL.twin d (Some e) in
      DCEL.field DCEL.twin d t = Some e /\
      t <> Some e /\
      DCEL.field DCEL.face d t <> DCEL.field DCEL.face d (Some e) /\
      DCEL.field DCEL.origin d t = DCEL.field DCEL.origin d (DCEL.field DCEL.next d (Some e)).
Proof.
  destruct (DCEL_createPolygon_fresh points) as (d & Hrun & _ & _ & _ & Hl & He).
  exists d. split; [exact Hrun|]. split; [exact Hl|].
  intros e Hlt. destruct (DCEL_half e _ Hlt) as (i & Hi & Hcase).
  pose proof (Nat.mod_upper_bound (i + 1) (length points) ltac:(lia)) as Hs.
  pose proof (Nat.mod_upper_bound (i + length points - 1) (length points) ltac:(lia)) as Hp.
  destruct (DCEL_succ_pred _ i Hi) as [A1 A2].
  destruct (He i Hi) as [E O].
  destruct (He _ Hs) as [Es Os]. destruct (He _ Hp) as [Ep Op].
  unfold DCEL.field.
  destruct Hcase as [-> | ->]; cbn [mbind option_bind]; rewrite ?E, ?O;
    cbn [mbind option_bind DCEL.twin DCEL.face DCEL.origin DCEL.next];
    rewrite ?E, ?O, ?Es, ?Os, ?Ep, ?Op;
    cbn [mbind option_bind DCEL.twin DCEL.face DCEL.origin DCEL.next];
    rewrite ?A1, ?A2;
    (split; [reflexivity|]); (split; [intros [= ?]; lia|]);
    (split; [intros [= ?]|]); reflexivity.
Qed.

(** X24. After [createPolygon] on a fresh structure [next] and [prev] are
    inverse to each other on every half-edge, every half-edge has a face,
    and its successor and predecessor lie on the same face. *)
Theorem DCEL_createPolygon_cycles (points : list (Z * Z)) :
  exists d : DCEL.t,
    DCEL.createPolygon DCEL.new_DCEL points = Ret d /\
    forall e, (e < length (DCEL.halfEdges d))%nat ->
      DCEL.field DCEL.prev d (DCEL.field DCEL.next d (Some e)) = Some e /\
      DCEL.field DCEL.next d (DCEL.field DCEL.prev d (Some e)) = Some e /\
      DCEL.field DCEL.face d (DCEL.field DCEL.next d (Some e)) = DCEL.field DCEL.face d (Some e) /\
      DCEL.field DCEL.face d (DCEL.field DCEL.prev d (Some e)) = DCEL.field DCEL.face d (Some e) /\
      is_Some (DCEL.field DCEL.face d (Some e)).
Proof.
  destruct (DCEL_createPolygon_fresh points) as (d & Hrun & _ & _ & _ & Hl & He).
  exists d. split; [exact Hrun|].
  intros e Hlt. rewrite Hl in Hlt. destruct (DCEL_half e _ Hlt) as (i & Hi & Hcase).
  pose proof (Nat.mod_upper_bound (i + 1) (length points) ltac:(lia)) as Hs.
  pose proof (Nat.mod_upper_bound (i + length points - 1) (length points) ltac:(lia)) as Hp.
  destruct (DCEL_succ_pred _ i Hi) as [A1 A2].
  destruct (He i Hi) as [E O].
  destruct (He _ Hs) as [Es Os]. destruct (He _ Hp) as [Ep Op].
  unfold DCEL.field.
  destruct Hcase as [-> | ->]; cbn [mbind option_bind]; rewrite ?E, ?O;
    cbn [mbind option_bind DCEL.twin DCEL.face DCEL.origin DCEL.next DCEL.prev];
    rewrite ?E, ?O, ?Es, ?Os, ?Ep, ?Op;
    cbn [mbind option_bind DCEL.twin DCEL.face DCEL.origin DCEL.next DCEL.prev];
    rewrite ?A1, ?A2; repeat split; eauto.
Qed.

(** X25. After [createPolygon] on a fresh structure there is one vertex per
    point, in the order of the input and with the point's coordinates, and
    its incident edge originates from it. *)
Theorem DCEL_createPolygon_vertices (points : list (Z * Z)) :
  exists d : DCEL.t,
    DCEL.createPolygon DCEL.new_DCEL points = Ret d /\
    length (DCEL.vertices d) = length points /\
    forall i p, points !! i = Some p ->
      exists e : nat,
        DCEL.vertexAt d i = Some (DCEL.mkVertex (fst p) (snd p) (Some e)) /\
        DCEL.field DCEL.origin d (Some e) = DCEL.vertices d !! i.
Proof.
  destruct (DCEL_createPolygon_fresh points) as (d & Hrun & Hv & _ & Hvs & Hl & He).
  exists d. split; [exact Hrun|]. rewrite Hv. split; [apply length_seq|].
  intros i p Hp. pose proof (lookup_lt_Some _ _ _ Hp) as Hi.
  exists (2 * i)%nat. unfold DCEL.vertexAt, DCEL.field. rewrite Hv.
  rewrite lookup_seq_lt by exact Hi. cbn [mbind option_bind Nat.add].
  rewrite (Hvs i p Hp). destruct (He i Hi) as [E _]. rewrite E.
  split; reflexivity.
Qed.

Lemma DCEL_aroundFace_inner (d : DCEL.t) (n : nat) :
  (forall i, (i < n)%nat -> exists he,
     DCEL.halfEdges d !! (2 * i)%nat = Some he /\ DCEL.origin he = Some i /\
     DCEL.next he = Some (2 * ((i + 1) mod n))%nat) ->
  forall m i found fuel, (i + m = n)%nat -> (0 < m <= fuel)%nat ->
    DCEL.aroundFace d (Some 0%nat) fuel (Some (2 * i)%nat) found =
    Ret (found ++ (Some <$> seq i m)).
Proof.
  intros Hd. induction m as [|m IH]; intros i found fuel Him Hm; [lia|].
  destruct fuel as [|fuel]; [lia|].
  destruct (Hd i ltac:(lia)) as (he & Hhe & Ho & Hn).
  cbn [DCEL.aroundFace mbind option_bind]. rewrite Hhe, Ho, Hn.
  destruct (decide (i + 1 = n)%nat) as [He | Hne].
  - rewrite He, Nat.Div0.mod_same. cbn [ref_eqb Nat.mul Nat.eqb].
    replace m with 0%nat by lia. reflexivity.
  - rewrite (Nat.mod_small (i + 1)) by lia.
    replace (2 * (i + 1))%nat with (S (S (2 * i))) by lia.
    cbn [ref_eqb Nat.eqb].
    replace (S (S (2 * i))) with (2 * S i)%nat by lia.
    rewrite IH by lia. cbn [seq fmap list_fmap]. rewrite <- app_assoc. reflexivity.
Qed.

Lemma DCEL_aroundFace_outer (d : DCEL.t) (n : nat) :
  (forall i, (i < n)%nat -> exists he,
     DCEL.halfEdges d !! (2 * i + 1)%nat = Some he /\
     DCEL.origin he = Some ((i + 1) mod n)%nat /\
     DCEL.next he = Some (2 * ((i + n - 1) mod n) + 1)%nat) ->
  forall m j found fuel, (j + m = n)%nat -> (0 < j)%nat -> (0 < m <= fuel)%nat ->
    DCEL.aroundFace d (Some 1%nat) fuel (Some (2 * (n - j) + 1)%nat) found =
    Ret (found ++ ((fun t => Some ((n + 1 - t) mod n)%nat) <$> seq j m)).
Proof.
  intros Hd. induction m as [|m IH]; intros j found fuel Hjm Hj Hm; [lia|].
  destruct fuel as [|fuel]; [lia|].
  destruct (Hd (n - j)%nat ltac:(lia)) as (he & Hhe & Ho & Hn).
  cbn [DCEL.aroundFace mbind option_bind]. rewrite Hhe, Ho, Hn.
  replace (n - j + n - 1)%nat with ((n - j - 1) + 1 * n)%nat by lia.
  rewrite Nat.Div0.mod_add, (Nat.mod_small (n - j - 1)) by lia.
  replace (n - j + 1)%nat with (n + 1 - j)%nat by lia.
  destruct m as [|m].
  - replace (n - j - 1)%nat with 0%nat by lia. reflexivity.
  - replace (2 * (n - j - 1) + 1)%nat with (S (S (2 * (n - j - 2) + 1))) by lia.
    cbn [ref_eqb Nat.eqb].
    replace (S (S (2 * (n - j - 2) + 1))) with (2 * (n - S j) + 1)%nat by lia.
    rewrite IH by lia. cbn [seq fmap list_fmap]. rewrite <- app_assoc. reflexivity.
Qed.

(** X26. For a fresh structure and at least one point,
    [getVerticesAroundFace] returns after one step per point: on the inner
    face (the second face pushed) the vertices in the order of the input,
    on the outer face the vertex 1, then 0, then the others downwards. *)
Theorem DCEL_getVerticesAroundFace_createPolygon (p : Z * Z) (ps : list (Z * Z)) (extra : nat) :
  let n := length (p :: ps) in
  exists d : DCEL.t,
    DCEL.createPolygon DCEL.new_DCEL (p :: ps) = Ret d /\
    length (DCEL.faces d) = 2%nat /\
    DCEL.getVerticesAroundFace d (n + extra) (Some 1%nat) = Ret (Some <$> seq 0 n) /\
    DCEL.getVerticesAroundFace d (n + extra) (Some 0%nat) =
      Ret ((fun t => Some ((n + 1 - t) mod n)%nat) <$> seq 0 n).
Proof.
  intros n.
  destruct (DCEL_createPolygon_fresh (p :: ps)) as (d & Hrun & _ & Hf & _ & Hl & He).
  fold n in Hf, Hl, He. assert (Hn : (0 < n)%nat) by (unfold n; cbn [length]; lia).
  exists d. split; [exact Hrun|]. rewrite Hf. split; [reflexivity|].
  unfold DCEL.getVerticesAroundFace. rewrite Hf.
  cbn [mbind option_bind lookup list_lookup DCEL.outerComponent].
  destruct (Nat.ltb_spec 0 (2 * n)); [|lia].
  destruct (Nat.ltb_spec 1 (2 * n)); [|lia].
  split.
  - refine (DCEL_aroundFace_inner d n _ n 0%nat [] (n + extra)%nat _ _); [|lia..].
    intros i Hi. destruct (He i Hi) as [E _]. eexists. split; [exact E|].
    split; reflexivity.
  - assert (Hd : forall i, (i < n)%nat -> exists he,
       DCEL.halfEdges d !! (2 * i + 1)%nat = Some he /\
       DCEL.origin he = Some ((i + 1) mod n)%nat /\
       DCEL.next he = Some (2 * ((i + n - 1) mod n) + 1)%nat).
    { intros i Hi. destruct (He i Hi) as [_ O]. eexists. split; [exact O|].
      split; reflexivity. }
    destruct (n + extra)%nat as [|fuel] eqn:Hfuel; [lia|].
    destruct (Hd 0%nat Hn) as (he & Hhe & Ho & Hnx).
    cbn [DCEL.aroundFace mbind option_bind]. cbn [Nat.mul Nat.add] in Hhe. rewrite Hhe, Ho, Hnx.
    cbn [Nat.add]. rewrite (Nat.mod_small (n - 1)) by lia.
    destruct (decide (n = 1)%nat) as [H1 | H1].
    + rewrite H1. reflexivity.
    + replace (2 * (n - 1) + 1)%nat with (S (S (2 * (n - 2) + 1))) by lia.
      cbn [ref_eqb Nat.eqb].
      replace (S (S (2 * (n - 2) + 1))) with (2 * (n - 1) + 1)%nat by lia.
      rewrite (DCEL_aroundFace_outer d n Hd (n - 1) 1) by lia.
      destruct n as [|n']; [lia|]. cbn [seq fmap list_fmap app].
      replace (S n' - 1)%nat with n' by lia.
      replace (S n' + 1 - 0)%nat with (1 + 1 * S n')%nat by lia.
      rewrite Nat.Div0.mod_add. reflexivity.
Qed.

Lemma DCEL_newEdges_unlinked (n V k : nat) : forall L i,
  Forall (fun he => DCEL.next he = None /\ DCEL.prev he = None /\ DCEL.face he = None)
         (DCEL.newEdges n V L i k).
Proof.
  induction k as [|k IH]; intros L i; cbn [DCEL.newEdges]; [constructor|].
  constructor; [repeat split|]. constructor; [repeat split|]. apply IH.
Qed.

(** X27. [createPolygon] returns on every structure, but it links and
    assigns faces by absolute index: the half-edges already present at the
    even indices below [2 * n] are relinked and moved to the new inner
    face, and every new half-edge at an index from [2 * n] on keeps [next],
    [prev] and [face] null. *)
Theorem DCEL_createPolygon_again (d : DCEL.t) (points : list (Z * Z)) :
  let n := length points in
  let L := length (DCEL.halfEdges d) in
  exists d' : DCEL.t,
    DCEL.createPolygon d points = Ret d' /\
    length (DCEL.halfEdges d') = (L + 2 * n)%nat /\
    (forall i he, (i < n)%nat -> DCEL.halfEdges d !! (2 * i)%nat = Some he ->
       DCEL.halfEdges d' !! (2 * i)%nat =
         Some (DCEL.mkHalfEdge (DCEL.origin he) (DCEL.twin he)
                 (Some (S (length (DCEL.faces d))))
                 (Some (2 * ((i + 1) mod n))%nat)
                 (Some (2 * ((i + n - 1) mod n))%nat))) /\
    (forall j, (L <= j < L + 2 * n)%nat -> (2 * n <= j)%nat ->
       exists he, DCEL.halfEdges d' !! j = Some he /\
         DCEL.next he = None /\ DCEL.prev he = None /\ DCEL.face he = None).
Proof.
  intros n L.
  destruct (DCEL_createPolygon_spec d points)
    as (VS' & H' & Hrun & _ & _ & _ & Hl & Hout & Hin).
  fold n L in Hrun, Hl, Hout, Hin.
  eexists. split; [exact Hrun|]. cbn [DCEL.halfEdges]. split; [exact Hl|]. split.
  - intros i he Hi Hhe. destruct (Hin i Hi) as [E _]. rewrite E.
    rewrite (lookup_app_l_Some _ _ _ _ Hhe). reflexivity.
  - intros j Hj H2n. rewrite Hout by exact H2n.
    rewrite lookup_app_r by (fold L; lia). fold L.
    destruct (lookup_lt_is_Some_2 (DCEL.newEdges n (length (DCEL.vstore d)) L 0 n) (j - L))
      as [he Hhe]; [rewrite DCEL_newEdges_length; lia|].
    exists he. split; [exact Hhe|].
    exact (proj1 (Forall_lookup _ _) (DCEL_newEdges_unlinked _ _ _ _ _) _ _ Hhe).
Qed.

Lemma DCEL_aroundFace_app (d : DCEL.t) (more : list DCEL.HalfEdge) (start : option nat) :
  forall fuel current found vs,
    DCEL.aroundFace d start fuel current found = Ret vs ->
    DCEL.aroundFace
      (DCEL.mkDCEL (DCEL.vstore d) (DCEL.vertices d) (DCEL.halfEdges d ++ more) (DCEL.faces d))
      start fuel current found = Ret vs.
Proof.
  induction fuel as [|fuel IH]; intros current found vs H; [discriminate H|].
  cbn [DCEL.aroundFace] in H |- *. destruct current as [e|]; [|discriminate H].
  cbn [mbind option_bind DCEL.halfEdges] in H |- *.
  destruct (DCEL.halfEdges d !! e) as [he|] eqn:Hhe; [|discriminate H].
  rewrite (lookup_app_l_Some _ _ _ _ Hhe).
  destruct (ref_eqb (DCEL.next he) start); [exact H|]. apply IH. exact H.
Qed.

(** X28. [addDiagonal] pushes two half-edges that are twins of each other,
    start at the two given vertices and have neither [next] nor [face]; a
    face traversal that returned before returns the same vertices after:
    the diagonal splits no face. *)
Theorem DCEL_addDiagonal_keeps_faces (d : DCEL.t) (vertex1 vertex2 f : option nat)
    (fuel : nat) (vs : list (option nat)) :
  DCEL.getVerticesAroundFace d fuel f = Ret vs ->
  let d' := fst (DCEL.addDiagonal d vertex1 vertex2) in
  let diagonal1 := Some (fst (snd (DCEL.addDiagonal d vertex1 vertex2))) in
  let diagonal2 := Some (snd (snd (DCEL.addDiagonal d vertex1 vertex2))) in
  DCEL.getVerticesAroundFace d' fuel f = Ret vs /\
  DCEL.field DCEL.twin d' diagonal1 = diagonal2 /\
  DCEL.field DCEL.twin d' diagonal2 = diagonal1 /\
  DCEL.field DCEL.origin d' diagonal1 = vertex1 /\
  DCEL.field DCEL.origin d' diagonal2 = vertex2 /\
  DCEL.field DCEL.next d' diagonal1 = None /\
  DCEL.field DCEL.next d' diagonal2 = None /\
  DCEL.field DCEL.face d' diagonal1 = None /\
  DCEL.field DCEL.face d' diagonal2 = None.
Proof.
  intros H. cbn [DCEL.addDiagonal fst snd]. split.
  - unfold DCEL.getVerticesAroundFace in H |- *. cbn [DCEL.faces].
    destruct (f ≫= fun k => DCEL.faces d !! k) as [fc|]; [|discriminate H].
    apply DCEL_aroundFace_app. exact H.
  - unfold DCEL.field. cbn [mbind option_bind DCEL.halfEdges].
    rewrite !lookup_app_r by lia.
    replace (S (length (DCEL.halfEdges d)) - length (DCEL.halfEdges d))%nat with 1%nat by lia.
    rewrite Nat.sub_diag. cbn. repeat split.
Qed.

Lemma DCEL_addDiagonal_keeps_faces_witness :
  DCEL.getVerticesAroundFace (fst (DCEL.addDiagonal DCEL.triangle (Some 0%nat) (Some 2%nat)))
    3 (Some 1%nat) = Ret [Some 0%nat; Some 1%nat; Some 2%nat].
Proof.
  exact (proj1 (DCEL_addDiagonal_keeps_faces DCEL.triangle (Some 0%nat) (Some 2%nat)
                  (Some 1%nat) 3 [Some 0%nat; Some 1%nat; Some 2%nat] eq_refl)).
Defined.

(** *** The canvas demo *)

Lemma number_eqb_spec (a b : number) : reflect (a = b) (number_eqb a b).
Proof.
  destruct a as [x| | |], b as [y| | |]; cbn; try (constructor; congruence).
  destruct (Z.eqb_spec x y); constructor; congruence.
Qed.

Lemma number_eqb_refl (a : number) : number_eqb a a = true.
Proof. destruct (number_eqb_spec a a); congruence. Qed.

Lemma Hull_map_get_replace {V : Type} (k : number) (v : V) (m : Hull.JSMap V) :
  Hull.map_has k m = true -> Hull.map_get k (Hull.map_replace k v m) = Some v.
Proof.
  induction m as [|[k' v'] m IH]; cbn; [discriminate|].
  destruct (number_eqb_spec k' k) as [-> | Hne]; cbn.
  - rewrite number_eqb_refl. reflexivity.
  - destruct (number_eqb_spec k' k); [contradiction|]. exact IH.
Qed.

Lemma Hull_map_get_app {V : Type} (k : number) (v : V) (m : Hull.JSMap V) :
  Hull.map_has k m = false -> Hull.map_get k (m ++ [(k, v)]) = Some v.
Proof.
  induction m as [|[k' v'] m IH]; cbn.
  - rewrite number_eqb_refl. reflexivity.
  - destruct (number_eqb_spec k' k); cbn; [discriminate | exact IH].
Qed.

Lemma Hull_map_get_set {V : Type} (k : number) (v : V) (m : Hull.JSMap V) :
  Hull.map_get k (Hull.map_set k v m) = Some v.
Proof.
  unfold Hull.map_set. destruct (Hull.map_has k m) eqn:H.
  - apply Hull_map_get_replace. exact H.
  - apply Hull_map_get_app. exact H.
Qed.

Lemma Hull_map_has_set {V : Type} (k : number) (v : V) (m : Hull.JSMap V) :
  Hull.map_has k (Hull.map_set k v m) = true.
Proof.
  unfold Hull.map_set. destruct (Hull.map_has k m) eqn:H.
  - induction m as [|[k' v'] m IH]; cbn in *; [discriminate|].
    destruct (number_eqb_spec k' k) as [-> | Hne]; cbn.
    + rewrite number_eqb_refl. reflexivity.
    + destruct (number_eqb_spec k' k); [contradiction|]. exact (IH H).
  - induction m as [|[k' v'] m IH]; cbn in *.
    + rewrite number_eqb_refl. reflexivity.
    + destruct (number_eqb_spec k' k); cbn in *; [discriminate | exact (IH H)].
Qed.

Lemma Hull_map_replace_length {V : Type} (k : number) (v : V) (m : Hull.JSMap V) :
  length (Hull.map_replace k v m) = length m.
Proof.
  induction m as [|[k' v'] m IH]; cbn; [reflexivity|].
  destruct (number_eqb k' k); cbn; congruence.
Qed.

Lemma Hull_map_delete_set {V : Type} (k : number) (v : V) (m : Hull.JSMap V) :
  Hull.map_has k m = false -> Hull.map_delete k (Hull.map_set k v m) = m.
Proof.
  unfold Hull.map_set. intros H. rewrite H.
  induction m as [|[k' v'] m IH]; cbn in *.
  - rewrite number_eqb_refl. reflexivity.
  - destruct (number_eqb_spec k' k); cbn in *; [discriminate|]. rewrite (IH H). reflexivity.
Qed.

(** On small coordinates the key of a segment is exact. *)
Lemma Hull_hashPoints_exact (x1 y1 x2 y2 : Z) :
  small x1 -> small y1 -> small x2 -> small y2 ->
  Hull.hashPoints (x1, y1) (x2, y2) = Fin ((x1 * 31 + y1) * 31 + x2 * 31 + y2).
Proof.
  unfold small. intros H1 H2 H3 H4. unfold Hull.hashPoints. cbn [fst snd nmul nadd].
  rewrite (to_number_exact (x1 * 31)) by lia. cbn [nadd].
  rewrite (to_number_exact (x1 * 31 + y1)) by lia. cbn [nmul].
  rewrite (to_number_exact ((x1 * 31 + y1) * 31)) by lia.
  rewrite (to_number_exact (x2 * 31)) by lia. cbn [nadd].
  rewrite (to_number_exact ((x1 * 31 + y1) * 31 + x2 * 31)) by lia. cbn [nadd].
  apply to_number_exact. lia.
Qed.

(** Outside the range of exact arithmetic the keys of the two segments
    differ. *)
Lemma Hull_hashPoints_rounded :
  Hull.hashPoints (17592186044419, 4) (5, 3) = Fin 16906090788686944 /\
  Hull.hashPoints (17592186044419, 5) (4, 3) = Fin 16906090788686940.
Proof. split; vm_compute; reflexivity. Qed.

(** X29. On coordinates in the range of exact arithmetic [hashPoints] does
    not tell the segment (a,b)-(c,d) from the segment (a,c)-(b,d):
    [addLine] of the second replaces the first in the table without adding
    an entry, and [removeLine] of the second removes the first. *)
Theorem Hull_addLine_collision (lines : Hull.JSMap ((Z * Z) * (Z * Z))) (a b c d : Z) :
  small a -> small b -> small c -> small d ->
  let key := Hull.hashPoints (a, b) (c, d) in
  let stored := Hull.addLine lines (a, b) (c, d) in
  Hull.hashPoints (a, c) (b, d) = key /\
  Hull.map_get key stored = Some ((a, b), (c, d)) /\
  Hull.map_get key (Hull.addLine stored (a, c) (b, d)) = Some ((a, c), (b, d)) /\
  length (Hull.addLine stored (a, c) (b, d)) = length stored /\
  (Hull.map_has key lines = false -> Hull.removeLine stored (a, c) (b, d) = lines).
Proof.
  intros Sa Sb Sc Sd key stored.
  assert (Hk : Hull.hashPoints (a, c) (b, d) = key).
  { unfold key. rewrite !Hull_hashPoints_exact by assumption. f_equal. ring. }
  split; [exact Hk|].
  unfold Hull.addLine, Hull.removeLine. rewrite Hk. fold key.
  split; [apply Hull_map_get_set|]. split; [apply Hull_map_get_set|]. split.
  - unfold stored, Hull.addLine. fold key.
    unfold Hull.map_set at 1. rewrite Hull_map_has_set.
    apply Hull_map_replace_length.
  - unfold stored, Hull.addLine. fold key. apply Hull_map_delete_set.
Qed.

Lemma Hull_addLine_collision_witness :
  Hull.map_get (Hull.hashPoints (1, 2) (3, 4))
    (Hull.addLine (Hull.addLine [] (1, 2) (3, 4)) (1, 3) (2, 4))
  = Some ((1, 3), (2, 4)) /\
  length (Hull.addLine (Hull.addLine [] (1, 2) (3, 4)) (1, 3) (2, 4)) = 1%nat.
Proof.
  destruct (Hull_addLine_collision [] 1 2 3 4) as (_ & _ & Hget & Hlen & _);
    try (unfold small; lia).
  split; [exact Hget | exact Hlen].
Defined.

Lemma Hull_bottomFrom_spec (pts : list (Z * Z)) : forall (k i b : nat) (q : (Z * Z)),
  (i + k = length pts)%nat -> pts !! b = Some q -> (b <= i)%nat ->
  (forall j p, (j < i)%nat -> pts !! j = Some p -> snd p <= snd q) ->
  (forall j p, (j < b)%nat -> pts !! j = Some p -> snd p < snd q) ->
  exists (b' : nat) (q' : (Z * Z)),
    Hull.bottomFrom pts i k b = Ret b' /\ pts !! b' = Some q' /\
    forall j p, pts !! j = Some p -> snd p <= snd q' /\ ((j < b')%nat -> snd p < snd q').
Proof.
  induction k as [|k IH]; intros i b q Hik Hq Hbi Hle Hlt.
  - exists b, q. split; [reflexivity|]. split; [exact Hq|].
    intros j p Hp. pose proof (lookup_lt_Some _ _ _ Hp). split.
    + apply (Hle j p); [lia | exact Hp].
    + intros Hj. exact (Hlt j p Hj Hp).
  - destruct (lookup_lt_is_Some_2 pts i ltac:(lia)) as [p Hp].
    cbn [Hull.bottomFrom]. rewrite Hp, Hq.
    destruct (Z.ltb_spec (snd q) (snd p)) as [Hlt' | Hge].
    + apply (IH (S i) i p); [lia | exact Hp | lia | |].
      * intros j p' Hj Hp'. destruct (decide (j = i)) as [-> | Hne].
        -- rewrite Hp in Hp'. injection Hp' as <-. lia.
        -- pose proof (Hle j p' ltac:(lia) Hp'). lia.
      * intros j p' Hj Hp'. pose proof (Hle j p' Hj Hp'). lia.
    + apply (IH (S i) b q); [lia | exact Hq | lia | | exact Hlt].
      intros j p' Hj Hp'. destruct (decide (j = i)) as [-> | Hne].
      * rewrite Hp in Hp'. injection Hp' as <-. lia.
      * apply (Hle j p'); [lia | exact Hp'].
Qed.

(** X30. The search at the start of [grahamScan] never fails: for a
    non-empty array it ends on the first index whose y coordinate is
    maximal, for the empty array on index 0. *)
Theorem Hull_bottomIdx_first_max (points : list (Z * Z)) :
  exists b : nat,
    Hull.bottomIdx points = Ret b /\
    (points = [] /\ b = 0%nat \/
     exists q, points !! b = Some q /\
       forall j p, points !! j = Some p ->
         snd p <= snd q /\ ((j < b)%nat -> snd p < snd q)).
Proof.
  unfold Hull.bottomIdx. destruct points as [|q pts].
  - exists 0%nat. split; [reflexivity|]. left. split; reflexivity.
  - destruct (Hull_bottomFrom_spec (q :: pts) (length (q :: pts)) 0 0 q)
      as (b & q' & Hrun & Hq' & Hall); [lia | reflexivity | lia | intros; lia..|].
    exists b. split; [exact Hrun|]. right. exists q'. split; [exact Hq' | exact Hall].
Qed.

(** *** The draft of the ear test *)

Lemma Sketch_isWithinTriangle_outcome (point : option Point) (a b c : Point) :
  (exists r, Sketch.isWithinTriangle point a b c = Ret r) \/
  (exists e, Sketch.isWithinTriangle point a b c = Throw e).
Proof.
  destruct point as [p|]; cbn [Sketch.isWithinTriangle].
  - rewrite isWithinTriangle_unfold.
    destruct (_ =? 0); [right; eauto|]. destruct (_ || _); left; eauto.
  - destruct (_ =? 0); right; eauto.
Qed.

Lemma Sketch_scan_outcome (array : option (list Point)) (a b c : Point) :
  forall k i,
    Sketch.scan array a b c i k = Ret (Some false) \/
    Sketch.scan array a b c i k = Ret None \/
    exists e, Sketch.scan array a b c i k = Throw e.
Proof.
  induction k as [|k IH]; intros i; cbn [Sketch.scan]; [tauto|].
  destruct array as [elements|]; [|right; right; eauto].
  destruct (Sketch_isWithinTriangle_outcome (elements !! i) a b c) as [[[|] ->]|[e ->]];
    cbn [obind]; [tauto | apply IH | right; right; eauto].
Qed.

(** X18. The draft of the ear test never answers true: whatever [array] is
    bound to, it answers false, ends without a value, or throws.  With
    [array] undeclared, as in the sources, it answers false exactly when
    the angle at [b] is not convex; under a convex angle it ends without a
    value when there is no candidate, and throws otherwise (on the
    undeclared [array], or on [otherPoints.length] of [undefined]). *)
Theorem Sketch_isEar_outcomes (array otherPoints : option (list Point)) (a b c : Point) :
  (Sketch.isEar array a b c otherPoints = Ret (Some false) \/
   Sketch.isEar array a b c otherPoints = Ret None \/
   exists e, Sketch.isEar array a b c otherPoints = Throw e) /\
  ((isConvex a b c = false /\ Sketch.isEar None a b c otherPoints = Ret (Some false)) \/
   (isConvex a b c = true /\
    match otherPoints with
    | None => Sketch.isEar None a b c otherPoints = Throw TypeError
    | Some [] => Sketch.isEar None a b c otherPoints = Ret None
    | Some (_ :: _) => Sketch.isEar None a b c otherPoints = Throw ReferenceError
    end)).
Proof.
  split.
  - unfold Sketch.isEar. destruct (negb _); [tauto|].
    destruct otherPoints as [l|]; [apply Sketch_scan_outcome | right; right; eauto].
  - unfold Sketch.isEar. destruct (isConvex a b c); [right | left]; cbn [negb].
    + split; [reflexivity|]. destruct otherPoints as [[|p l]|]; reflexivity.
    + split; reflexivity.
Qed.
